(** * consul-generator: the synchronization and supervision core

  A shallow embedding of the retry policy ([config/retry.go]), the
  exit statuses and supervisor loop of the command line ([Cli.Run]),
  the sync processor ([Processor.Process]) and the polling runner
  ([Runner.Start], [Runner.Stop]), followed by the properties stated
  about them. *)

From Stdlib Require Import ZArith Lia Bool Ascii String.
From Stdlib.Strings Require Byte.
From stdpp Require Import base option list strings pretty gmap.

Local Open Scope Z_scope.

(** ** Machine integers and durations *)

(** Go's [int] and [int64] on the 64-bit targets: two's complement. *)
Definition MinInt64 : Z := - 2 ^ 63.
Definition MaxInt64 : Z := 2 ^ 63 - 1.

Definition wrap64 (z : Z) : Z := (z + 2 ^ 63) mod 2 ^ 64 - 2 ^ 63.

Definition int64_range (z : Z) : Prop := MinInt64 <= z <= MaxInt64.

(** [time.Duration] is an [int64] count of nanoseconds. *)
Definition Duration : Type := Z.

Definition Nanosecond : Duration := 1.
Definition Microsecond : Duration := 1000 * Nanosecond.
Definition Millisecond : Duration := 1000 * Microsecond.
Definition Second : Duration := 1000 * Millisecond.
Definition Minute : Duration := 60 * Second.

(** The product of two durations, as the [*] of [int64] computes it. *)
Definition Duration_mul (a b : Duration) : Duration := wrap64 (a * b).

(** ** config/convert.go: values behind optional pointers *)

Module config.

Definition Bool (b : bool) : option bool := Some b.
Definition BoolVal (b : option bool) : bool :=
  match b with None => false | Some v => v end.

Definition Int (i : Z) : option Z := Some i.
Definition IntVal (i : option Z) : Z :=
  match i with None => 0 | Some v => v end.

Definition TimeDuration (t : Duration) : option Duration := Some t.
Definition TimeDurationVal (t : option Duration) : Duration :=
  match t with None => 0 | Some v => v end.

Definition String (s : string) : option string := Some s.
Definition StringVal (s : option string) : string :=
  match s with None => EmptyString | Some v => v end.

(** ** config/retry.go *)

Definition DefaultRetryAttempts : Z := 12.
Definition DefaultRetryBackoff : Duration := 250 * Millisecond.
Definition DefaultRetryMaxBackoff : Duration := 1 * Minute.

Record RetryConfig : Type := mkRetryConfig {
  Attempts : option Z;
  Backoff : option Duration;
  MaxBackoff : option Duration;
  Enabled : option bool
}.

Definition DefaultRetryConfig : RetryConfig :=
  {| Attempts := None; Backoff := None; MaxBackoff := None; Enabled := None |}.

Definition Finalize (c : RetryConfig) : RetryConfig :=
  {| Attempts := match Attempts c with
                 | None => Int DefaultRetryAttempts | a => a end;
     Backoff := match Backoff c with
                | None => TimeDuration DefaultRetryBackoff | b => b end;
     MaxBackoff := match MaxBackoff c with
                   | None => TimeDuration DefaultRetryMaxBackoff | m => m end;
     Enabled := match Enabled c with
                | None => Bool true | e => e end |}.

(** [time.Duration(math.Pow(2, float64(retry)))].  The power is an
    exact float64 for every [retry] an [int] can hold below 1024, and
    the conversion to [int64] truncates it: [2^retry] for
    [0 <= retry <= 62] and [0] for a negative [retry].  From 63 on the
    power does not fit an [int64] and the language leaves the result
    of the conversion to the implementation; the value taken here is
    the one of the amd64 target.  No property below depends on it. *)
Definition Pow2Duration (retry : Z) : Duration :=
  if retry <? 0 then 0
  else if retry <=? 62 then 2 ^ retry
  else MinInt64.

Section RetryFunc.

(** [int(math.Log2(maxSleep.Seconds() / baseSleep.Seconds()))] is
    computed in float64; it is taken as a parameter of the
    embedding, applied to [maxSleep] and [baseSleep]. *)
Variable attemptsTillMaxBackoff : Duration -> Duration -> Z.

Definition RetryFunc (c : RetryConfig) (retry : Z) : bool * Duration :=
  if negb (BoolVal (Enabled c)) then (false, 0)
  else if (IntVal (Attempts c) >? 0) && (retry >? IntVal (Attempts c) - 1)
  then (false, 0)
  else
    let baseSleep := TimeDurationVal (Backoff c) in
    let maxSleep := TimeDurationVal (MaxBackoff c) in
    if (maxSleep >? 0) && (retry >? attemptsTillMaxBackoff maxSleep baseSleep)
    then (true, maxSleep)
    else (true, Duration_mul (Pow2Duration retry) baseSleep).

End RetryFunc.

(** The value of the float64 expression above when the quotient and
    the logarithm are exact: the base-2 logarithm of
    [maxSleep / baseSleep], truncated toward zero by the conversion to
    [int].  For a quotient of at least one this is the floor; for a
    quotient below one it is the ceiling. *)
Definition truncLog2Ratio (maxSleep baseSleep : Duration) : Z :=
  if baseSleep <=? maxSleep then Z.log2 (maxSleep / baseSleep)
  else - Z.log2 (baseSleep / maxSleep).

(** The floor of the same logarithm, as the specification words it. *)
Definition floorLog2Ratio (maxSleep baseSleep : Duration) : Z :=
  if baseSleep <=? maxSleep then Z.log2 (maxSleep / baseSleep)
  else - Z.log2_up ((baseSleep + maxSleep - 1) / maxSleep).

End config.

(** ** Constant declarations with [iota]

  A parenthesised [const] block is a list of specs.  A spec with no
  expression repeats the expression of the spec before it, and [iota]
  is the index of the spec inside the block, counted from zero. *)

Module goconst.

Inductive Expr : Type :=
| Lit (z : Z)
| Iota
| Add (a b : Expr).

Fixpoint eval (iota : Z) (e : Expr) : Z :=
  match e with
  | Lit z => z
  | Iota => iota
  | Add a b => eval iota a + eval iota b
  end.

Definition Spec : Type := (string * option Expr)%type.

Fixpoint evalBlock (iota : Z) (prev : Expr) (specs : list Spec)
  : list (string * Z) :=
  match specs with
  | [] => []
  | (name, e) :: rest =>
      let e' := match e with Some e' => e' | None => prev end in
      (name, eval iota e') :: evalBlock (iota + 1) e' rest
  end.

Fixpoint value (name : string) (consts : list (string * Z)) : Z :=
  match consts with
  | [] => 0
  | (n, v) :: rest => if String.eqb n name then v else value name rest
  end.

End goconst.

(** ** The command line: exit statuses and [Cli.Run] *)

Module cli.

Import goconst.

Definition exitCodeBlock : list Spec :=
  [ ("ExitCodeOK"%string, Some (Lit 0));
    ("ExitCodeError"%string, Some (Add (Lit 10) Iota));
    ("ExitCodeInterrupt"%string, None);
    ("ExitCodeParseFlagsError"%string, None);
    ("ExitCodeRunnerError"%string, None);
    ("ExitCodeConfigError"%string, None) ].

Definition exitCodes : list (string * Z) := evalBlock 0 (Lit 0) exitCodeBlock.

Definition ExitCodeOK : Z := value "ExitCodeOK" exitCodes.
Definition ExitCodeError : Z := value "ExitCodeError" exitCodes.
Definition ExitCodeInterrupt : Z := value "ExitCodeInterrupt" exitCodes.
Definition ExitCodeParseFlagsError : Z := value "ExitCodeParseFlagsError" exitCodes.
Definition ExitCodeRunnerError : Z := value "ExitCodeRunnerError" exitCodes.
Definition ExitCodeConfigError : Z := value "ExitCodeConfigError" exitCodes.

(** What [ParseFlags] hands back to [Run]. *)
Inductive Flags : Type :=
| FlagsErrHelp
| FlagsErr
| FlagsOk (isVersion : bool).

(** One start-up of a runner generation: [loadConfigs], [Finalize],
    [setup], [NewRunner], and where it fails if it does. *)
Inductive Startup : Type :=
| LoadConfigsErr
| SetupErr
| NewRunnerErr
| Started.

Definition Signal : Type := Z.

(** What the [select] of the main loop receives.  A runner error carries
    the status of [ExitStatus()] when it implements [ErrExitable]; the
    start-up attached to a signal is the one a reload would go through. *)
Inductive Event : Type :=
| RunnerErr (exitStatus : option Z)
| RunnerDone
| Sig (s : Signal) (reload : Startup)
| StopCh.

Record Signals : Type := {
  ReloadSignal : Signal;
  KillSignal : Signal
}.

(** The loop of [Run]; [None] when every event was consumed and the
    loop is still selecting. *)
Fixpoint loop (sigs : Signals) (events : list Event) : option Z :=
  match events with
  | [] => None
  | RunnerErr status :: _ =>
      Some (match status with Some code => code | None => ExitCodeRunnerError end)
  | RunnerDone :: _ => Some ExitCodeOK
  | Sig s reload :: rest =>
      if s =? ReloadSignal sigs then
        match reload with
        | LoadConfigsErr => Some ExitCodeConfigError
        | SetupErr => Some ExitCodeConfigError
        | NewRunnerErr => Some ExitCodeRunnerError
        | Started => loop sigs rest
        end
      else if s =? KillSignal sigs then Some ExitCodeInterrupt
      else Some ExitCodeInterrupt
  | StopCh :: _ => Some ExitCodeOK
  end.

Definition Run (flags : Flags) (start : Startup) (sigs : Signals)
    (events : list Event) : option Z :=
  match flags with
  | FlagsErrHelp => Some 0
  | FlagsErr => Some ExitCodeParseFlagsError
  | FlagsOk isVersion =>
      match start with
      | LoadConfigsErr => Some ExitCodeConfigError
      | SetupErr => Some ExitCodeConfigError
      | _ =>
          if isVersion then Some ExitCodeOK
          else match start with
               | NewRunnerErr => Some ExitCodeRunnerError
               | _ => loop sigs events
               end
      end
  end.

(** The statuses [Run] names. *)
Definition namedStatuses : list Z :=
  [ExitCodeOK; ExitCodeInterrupt; ExitCodeParseFlagsError;
   ExitCodeRunnerError; ExitCodeConfigError].

(** The statuses an [ErrExitable] runner error brought to the loop. *)
Definition exitStatuses (events : list Event) : list Z :=
  omap (fun e => match e with RunnerErr s => s | _ => None end) events.

End cli.

(** ** The world outside the process

    The local file system, the remote store and the faults the
    environment injects into the system calls.  The faults are fixed for
    the time of a run and are looked up by path. *)

Definition bytes : Type := list Byte.byte.

Record KVPair : Type := {
  Key : string;
  Value : bytes
}.

Inductive error : Type :=
| ListError
| CreateError (path : string)
| CopyError (path : string)
| MkdirError (path : string)
| PidOpenError
| PidWriteError
| PidStatError
| PidIsDirError
| PidRemoveError.

(** How an [os.Create] followed by a copy of the content ends: both
    succeed, the creation fails, or the file is created and truncated and
    the copy stops with an error after [written] bytes. *)
Inductive WriteFault : Type :=
| WriteOk
| CreateFails
| CopyFails (written : nat).

Record World : Type := {
  files : gmap string bytes;
  dirs : gset string;
  remote : error + list KVPair;
  unreadable : string -> bool;
  writeFault : string -> WriteFault;
  statFails : string -> bool;
  mkdirFails : string -> bool;
  removeFails : string -> bool;
  pid : Z
}.

Definition setFiles (w : World) (fs : gmap string bytes) : World :=
  {| files := fs; dirs := dirs w; remote := remote w;
     unreadable := unreadable w; writeFault := writeFault w;
     statFails := statFails w; mkdirFails := mkdirFails w;
     removeFails := removeFails w; pid := pid w |}.

Definition setDirs (w : World) (ds : gset string) : World :=
  {| files := files w; dirs := ds; remote := remote w;
     unreadable := unreadable w; writeFault := writeFault w;
     statFails := statFails w; mkdirFails := mkdirFails w;
     removeFails := removeFails w; pid := pid w |}.

(** [ioutil.ReadFile] *)
Definition ReadFile (w : World) (path : string) : option bytes :=
  if unreadable w path then None else files w !! path.

(** [os.Create] and [io.Copy] of [content], or [os.OpenFile] with
    [O_CREATE|O_WRONLY|O_TRUNC] and [WriteString]. *)
Definition writeFile (w : World) (path : string) (content : bytes)
  : World * WriteFault :=
  match writeFault w path with
  | WriteOk => (setFiles w (<[path := content]> (files w)), WriteOk)
  | CreateFails => (w, CreateFails)
  | CopyFails n => (setFiles w (<[path := take n content]> (files w)), CopyFails n)
  end.

(** What the process lets the outside see: its log lines, what it sends
    on the runner's channels, and the removal of the PID file. *)
Inductive Event : Type :=
| LogWarnEmpty
| LogConsulPath
| LogSkipping (key : string)
| LogWillCreate (file : string) (content : string)
| LogSaved (file : string)
| LogErr (e : error)
| LogDestinationCreating
| LogDestinationWillBeCreated
| LogRunnerStarting
| LogRunningInitial
| LogInitiatingRun
| LogCreatingPid (path : string)
| LogRemovingPid (path : string)
| LogReceivedFinish
| LogRunnerStopping
| LogWarnPid (e : error)
| OsRemove (path : string)
| SendErr (e : error)
| SendDone
| CloseDone.

(** ** Strings and digests *)

(** [strings.Split(s, "/")]: never empty. *)
Fixpoint Split (s : string) : list string :=
  match s with
  | EmptyString => [EmptyString]
  | String c rest =>
      if Ascii.eqb c "/"%char then EmptyString :: Split rest
      else match Split rest with
           | [] => [String c EmptyString]
           | part :: parts => String c part :: parts
           end
  end.

(** [parts[len(parts)-1]] *)
Definition lastPart (parts : list string) : string :=
  List.last parts EmptyString.

Definition hexDigit (n : N) : Ascii.ascii :=
  match String.get (N.to_nat n) "0123456789abcdef" with
  | Some c => c
  | None => "0"%char
  end.

(** [hex.EncodeToString] *)
Fixpoint EncodeToString (src : bytes) : string :=
  match src with
  | [] => EmptyString
  | b :: rest =>
      let n := Byte.to_N b in
      String (hexDigit (n / 16)) (String (hexDigit (n mod 16)) (EncodeToString rest))
  end.

(** ** crypto/sha256

    The digest of the standard library (FIPS 180-4), on 32-bit words held
    in [Z]. *)

Module sha256.

Definition Size : nat := 32.
Definition BlockSize : nat := 64.

Definition mask32 : Z := 2 ^ 32 - 1.
Definition add32 (x y : Z) : Z := (x + y) mod 2 ^ 32.
Definition rotr (n x : Z) : Z :=
  Z.lor (Z.shiftr x n) (Z.land (Z.shiftl x (32 - n)) mask32).
Definition Ch (x y z : Z) : Z :=
  Z.lxor (Z.land x y) (Z.land (Z.lxor x mask32) z).
Definition Maj (x y z : Z) : Z :=
  Z.lxor (Z.lxor (Z.land x y) (Z.land x z)) (Z.land y z).
Definition Sigma0 (x : Z) : Z := Z.lxor (Z.lxor (rotr 2 x) (rotr 13 x)) (rotr 22 x).
Definition Sigma1 (x : Z) : Z := Z.lxor (Z.lxor (rotr 6 x) (rotr 11 x)) (rotr 25 x).
Definition sigma0 (x : Z) : Z := Z.lxor (Z.lxor (rotr 7 x) (rotr 18 x)) (Z.shiftr x 3).
Definition sigma1 (x : Z) : Z := Z.lxor (Z.lxor (rotr 17 x) (rotr 19 x)) (Z.shiftr x 10).

Definition K : list Z :=
  [ 1116352408; 1899447441; 3049323471; 3921009573; 961987163; 1508970993;
    2453635748; 2870763221; 3624381080; 310598401; 607225278; 1426881987;
    1925078388; 2162078206; 2614888103; 3248222580; 3835390401; 4022224774;
    264347078; 604807628; 770255983; 1249150122; 1555081692; 1996064986;
    2554220882; 2821834349; 2952996808; 3210313671; 3336571891; 3584528711;
    113926993; 338241895; 666307205; 773529912; 1294757372; 1396182291;
    1695183700; 1986661051; 2177026350; 2456956037; 2730485921; 2820302411;
    3259730800; 3345764771; 3516065817; 3600352804; 4094571909; 275423344;
    430227734; 506948616; 659060556; 883997877; 958139571; 1322822218;
    1537002063; 1747873779; 1955562222; 2024104815; 2227730452; 2361852424;
    2428436474; 2756734187; 3204031479; 3329325298 ].

(** The eight words of the hash value. *)
Definition State : Type := list Z.

Definition init : State :=
  [ 1779033703; 3144134277; 1013904242; 2773480762; 1359893119; 2600822924;
    528734635; 1541459225 ].

Definition word (s : list Z) (i : nat) : Z := nth i s 0.

Definition byteZ (b : Byte.byte) : Z := Z.of_N (Byte.to_N b).
Definition Zbyte (z : Z) : Byte.byte :=
  match Byte.of_N (Z.to_N (z mod 256)) with
  | Some b => b
  | None => Byte.x00
  end.

(** Big-endian words of a block. *)
Fixpoint words (block : bytes) : list Z :=
  match block with
  | b0 :: b1 :: b2 :: b3 :: rest =>
      (((byteZ b0 * 256 + byteZ b1) * 256 + byteZ b2) * 256 + byteZ b3)
      :: words rest
  | _ => []
  end.

(** The message schedule, latest word first: [n] more words after the
    ones in [rev]. *)
Fixpoint schedule (n : nat) (rev : list Z) : list Z :=
  match n with
  | O => rev
  | S n' =>
      let w := add32 (add32 (sigma1 (word rev 1)) (word rev 6))
                     (add32 (sigma0 (word rev 14)) (word rev 15)) in
      schedule n' (w :: rev)
  end.

Definition round (s : State) (kw : Z * Z) : State :=
  let '(k, w) := kw in
  let a := word s 0 in let b := word s 1 in let c := word s 2 in
  let d := word s 3 in let e := word s 4 in let f := word s 5 in
  let g := word s 6 in let h := word s 7 in
  let t1 := add32 (add32 (add32 h (Sigma1 e)) (add32 (Ch e f g) k)) w in
  let t2 := add32 (Sigma0 a) (Maj a b c) in
  [add32 t1 t2; a; b; c; add32 d t1; e; f; g].

Definition compress (s : State) (block : bytes) : State :=
  let ws := List.rev (schedule 48 (List.rev (words block))) in
  let s' := fold_left round (combine K ws) s in
  map (fun i => add32 (word s i) (word s' i)) (seq 0 8).

(** The message, the byte 0x80, zeros up to 56 modulo 64, and the length
    in bits on eight bytes. *)
Definition pad (msg : bytes) : bytes :=
  let len := Z.of_nat (length msg) in
  let zeros := Z.to_nat ((55 - len) mod 64) in
  let bits := len * 8 in
  msg ++ Byte.x80 :: replicate zeros Byte.x00
      ++ map (fun i => Zbyte (Z.shiftr bits (8 * (7 - Z.of_nat i)))) (seq 0 8).

Fixpoint blocks (n : nat) (s : State) (data : bytes) : State :=
  match n with
  | O => s
  | S n' => blocks n' (compress s (take BlockSize data)) (drop BlockSize data)
  end.

Definition wordBytes (w : Z) : bytes :=
  [Zbyte (Z.shiftr w 24); Zbyte (Z.shiftr w 16); Zbyte (Z.shiftr w 8); Zbyte w].

Definition Sum256 (msg : bytes) : bytes :=
  let data := pad msg in
  let s := blocks (length data / BlockSize)%nat init data in
  flat_map (fun i => wordBytes (word s i)) (seq 0 8).

End sha256.

Arguments sha256.Sum256 : simpl never.

(** ** The sync processor *)

Module processor.

Import goconst.

Definition exitCodeBlock : list Spec :=
  [ ("ExitCodeOK"%string, Some (Lit 0));
    ("ExitCodeError"%string, Some (Add (Lit 10) Iota)) ].

Definition exitCodes : list (string * Z) := evalBlock 0 (Lit 0) exitCodeBlock.

Definition ExitCodeOK : Z := value "ExitCodeOK" exitCodes.
Definition ExitCodeError : Z := value "ExitCodeError" exitCodes.

(** The fields of the finalized configuration the processor reads, and
    its two modes. *)
Record Processor : Type := {
  From : string;
  To : string;
  once : bool;
  dry : bool
}.

Section Processor.

(** [filepath.Join] of the standard library, at two elements. *)
Variable Join : string -> string -> string.

Definition save (p : Processor) (w : World) (filepath : string) (s : string)
  : World * list Event * option error :=
  if dry p then (w, [LogWillCreate filepath s], None)
  else
    match writeFile w filepath (list_byte_of_string s) with
    | (w', CreateFails) => (w', [], Some (CreateError filepath))
    | (w', CopyFails _) => (w', [], Some (CopyError filepath))
    | (w', WriteOk) => (w', [LogSaved filepath], None)
    end.

(** [sha256.New()], [Write(v)], [Sum(nil)], and the digest in hex. *)
Definition getHash (v : bytes) : string := EncodeToString (sha256.Sum256 v).

(** The hash and whether the read failed. *)
Definition calculateFileHash (w : World) (filepath : string) : string * bool :=
  match ReadFile w filepath with
  | None => (EmptyString, true)
  | Some f => (getHash f, false)
  end.

Definition logError (err : error) (status : Z) : list Event * Z :=
  ([LogErr err], status).

(** [init], which [NewProcessor] runs on the processor it has built.
    Only the destination itself is recorded when [os.MkdirAll] succeeds,
    not the parents it creates on the way. *)
Definition init (p : Processor) (w : World) : World * list Event :=
  if negb (dry p) then
    if negb (statFails w (To p))
       && negb (bool_decide (is_Some (files w !! To p)))
       && negb (bool_decide (To p ∈ dirs w))
    then
      if mkdirFails w (To p)
      then (w, [LogDestinationCreating; SendErr (MkdirError (To p));
                LogErr (MkdirError (To p))])
      else (setDirs w ({[ To p ]} ∪ dirs w), [LogDestinationCreating])
    else (w, [])
  else (w, [LogDestinationWillBeCreated]).

(** The digests of the local file and of the payload differ, or the
    local file gives no digest. *)
Definition fingerprintsDiffer (w : World) (file : string) (payload : bytes) : Prop :=
  match ReadFile w file with
  | None => True
  | Some f => getHash f <> getHash payload
  end.

(** The test [fHash != sHash] of the loop body. *)
Definition wouldWrite (w : World) (file : string) (payload : bytes) : bool :=
  negb (String.eqb (fst (calculateFileHash w file)) (getHash payload)).

(** The body of the [for _, pair := range keys] loop for one pair; the error is
    the one that ends the pass. *)
Definition processPair (p : Processor) (w : World) (kv : KVPair)
  : World * list Event * option error :=
  let parts := Split (Key kv) in
  let filename := lastPart parts in
  if negb (String.eqb filename EmptyString) then
    let file := Join (To p) filename in
    let fHash := fst (calculateFileHash w file) in
    let sHash := getHash (Value kv) in
    if negb (String.eqb fHash sHash) then
      save p w file (string_of_list_byte (Value kv))
    else (w, [LogSkipping (Key kv)], None)
  else (w, [], None).

Fixpoint processPairs (p : Processor) (w : World) (keys : list KVPair)
  : World * list Event * option error :=
  match keys with
  | [] => (w, [], None)
  | kv :: rest =>
      match processPair p w kv with
      | (w', evs, Some err) => (w', evs, Some err)
      | (w', evs, None) =>
          let '(w'', evs', r) := processPairs p w' rest in
          (w'', evs ++ evs', r)
      end
  end.

Definition Process (p : Processor) (w : World) : World * list Event * Z :=
  match remote w with
  | inl err =>
      let '(evs, code) := logError err ExitCodeError in
      (w, SendErr err :: evs, code)
  | inr keys =>
      let header := if (Z.of_nat (length keys) <=? 0)%Z
                    then LogWarnEmpty else LogConsulPath in
      match processPairs p w keys with
      | (w', evs, Some err) =>
          let '(evs', code) := logError err ExitCodeError in
          (w', header :: evs ++ SendErr err :: evs', code)
      | (w', evs, None) =>
          (w', header :: evs ++ (if once p || dry p then [SendDone] else []),
           ExitCodeOK)
      end
  end.

(** The local path a pair is written to, when its key has a file name. *)
Definition target (p : Processor) (kv : KVPair) : option string :=
  let filename := lastPart (Split (Key kv)) in
  if String.eqb filename EmptyString then None else Some (Join (To p) filename).

Definition targets (p : Processor) (keys : list KVPair) : list string :=
  omap (target p) keys.

(** A write of the pass fails: the pairs before [kv] went through
    without error, [kv] has a target whose fingerprint differs, the
    processor really writes, and the write meets a fault. *)
Definition writeFails (p : Processor) (w : World) (keys : list KVPair) : Prop :=
  exists (pre : list KVPair) (kv : KVPair) (post : list KVPair)
         (w1 : World) (evs1 : list Event) (file : string),
    keys = pre ++ kv :: post
    /\ processPairs p w pre = (w1, evs1, None)
    /\ target p kv = Some file
    /\ fingerprintsDiffer w1 file (Value kv)
    /\ dry p = false
    /\ writeFault w1 file <> WriteOk.

End Processor.

(** What the log of a pass says about each pair it compared: kept as it
    is, or written (in a dry run: to be written). *)
Definition determination (e : Event) : option bool :=
  match e with
  | LogSkipping _ => Some false
  | LogWillCreate _ _ => Some true
  | LogSaved _ => Some true
  | _ => None
  end.

Definition determinations (evs : list Event) : list bool :=
  omap determination evs.

Definition isSendErr (e : Event) : bool :=
  match e with SendErr _ => true | _ => false end.

Definition isSendDone (e : Event) : bool :=
  match e with SendDone => true | _ => false end.

(** Nothing is sent on either channel. *)
Definition silent (evs : list Event) : Prop :=
  Forall (fun e => isSendErr e = false /\ isSendDone e = false) evs.

Definition setDry (p : Processor) (d : bool) : Processor :=
  {| From := From p; To := To p; once := once p; dry := d |}.

End processor.

(** ** The runner *)

Module manager.

Import processor.

(** The runner's configuration fields that [Start] and [Stop] read, its
    modes, its [stopped] flag and whether [DoneCh] has been closed. *)
Record Runner : Type := {
  configFrom : string;
  configTo : string;
  PidFile : option string;
  dry : bool;
  once : bool;
  stopped : bool;
  doneClosed : bool
}.

Definition setStopped (r : Runner) : Runner :=
  {| configFrom := configFrom r; configTo := configTo r; PidFile := PidFile r;
     dry := dry r; once := once r; stopped := true; doneClosed := doneClosed r |}.

Definition closeDoneCh (r : Runner) : Runner :=
  {| configFrom := configFrom r; configTo := configTo r; PidFile := PidFile r;
     dry := dry r; once := once r; stopped := stopped r; doneClosed := true |}.

(** [fmt.Sprintf("%d", pid)] *)
Definition formatPid (n : Z) : string := pretty n.

Definition storePid (r : Runner) (w : World) : World * list Event * option error :=
  let path := config.StringVal (PidFile r) in
  if String.eqb path EmptyString then (w, [], None)
  else
    match writeFile w path (list_byte_of_string (formatPid (pid w))) with
    | (w', CreateFails) => (w', [LogCreatingPid path], Some PidOpenError)
    | (w', CopyFails _) => (w', [LogCreatingPid path], Some PidWriteError)
    | (w', WriteOk) => (w', [LogCreatingPid path], None)
    end.

Definition deletePid (r : Runner) (w : World) : World * list Event * option error :=
  let path := config.StringVal (PidFile r) in
  if String.eqb path EmptyString then (w, [], None)
  else if statFails w path
          || (negb (bool_decide (is_Some (files w !! path)))
              && negb (bool_decide (path ∈ dirs w)))
  then (w, [LogRemovingPid path], Some PidStatError)
  else if bool_decide (path ∈ dirs w)
  then (w, [LogRemovingPid path], Some PidIsDirError)
  else if removeFails w path
  then (w, [LogRemovingPid path; OsRemove path], Some PidRemoveError)
  else (setFiles w (delete path (files w)),
        [LogRemovingPid path; OsRemove path], None).

Definition Run (r : Runner) : list Event * option error :=
  ([LogInitiatingRun], None).

(** What the [select] of [Start] receives. *)
Inductive Select : Type :=
| RecvErrCh
| TickerC
| RecvDoneCh.

(** How far [Start] got on the events it was given: it returned, or it
    is back in the [select]. *)
Inductive Status : Type :=
| Returned
| Selecting.

Section Runner.

Variable Join : string -> string -> string.

Definition NewProcessor (r : Runner) (w : World) : Processor * World * list Event :=
  let pr := {| From := configFrom r; To := configTo r;
               processor.once := once r; processor.dry := dry r |} in
  let '(w', evs) := init pr w in
  (pr, w', evs).

(** The [for { select { ... } }] of [Start]. *)
Fixpoint startLoop (pr : Processor) (w : World) (events : list Select)
  : World * list Event * Status :=
  match events with
  | [] => (w, [], Selecting)
  | RecvErrCh :: _ => (w, [], Returned)
  | TickerC :: rest =>
      let '(w', evs, _) := Process Join pr w in
      let '(w'', evs', st) := startLoop pr w' rest in
      (w'', evs ++ evs', st)
  | RecvDoneCh :: _ => (w, [LogReceivedFinish], Returned)
  end.

Definition Start (r : Runner) (w : World) (events : list Select)
  : World * list Event * Status :=
  match storePid r w with
  | (w1, evs1, Some err) => (w1, LogRunnerStarting :: evs1 ++ [SendErr err], Returned)
  | (w1, evs1, None) =>
      match Run r with
      | (evs2, Some err) =>
          (w1, LogRunnerStarting :: evs1 ++ LogRunningInitial :: evs2 ++ [SendErr err],
           Returned)
      | (evs2, None) =>
          let '(pr, w2, evs3) := NewProcessor r w1 in
          let '(w3, evs4, st) := startLoop pr w2 events in
          (w3, LogRunnerStarting :: evs1 ++ LogRunningInitial :: evs2 ++ evs3 ++ evs4, st)
      end
  end.

End Runner.

(** [Stop], the lock held from entry to return. *)
Definition Stop (r : Runner) (w : World) : Runner * World * list Event :=
  if stopped r then (r, w, [])
  else
    let '(w', evs, err) := deletePid r w in
    let warn := match err with Some e => [LogWarnPid e] | None => [] end in
    (closeDoneCh (setStopped r), w', LogRunnerStopping :: evs ++ warn ++ [CloseDone]).

Definition isCloseDone (e : Event) : bool :=
  match e with CloseDone => true | _ => false end.

Definition isOsRemove (e : Event) : bool :=
  match e with OsRemove _ => true | _ => false end.

(** How many events of a kind a run has shown. *)
Fixpoint countIf (kind : Event -> bool) (evs : list Event) : nat :=
  match evs with
  | [] => O
  | e :: rest => ((if kind e then 1 else 0) + countIf kind rest)%nat
  end.

(** A sequence of [n] calls of [Stop], one after the other as the lock
    orders them. *)
Fixpoint StopTimes (n : nat) (r : Runner) (w : World) : Runner * World * list Event :=
  match n with
  | O => (r, w, [])
  | S n' =>
      let '(r', w', evs) := Stop r w in
      let '(r'', w'', evs') := StopTimes n' r' w' in
      (r'', w'', evs ++ evs')
  end.

End manager.

(** ** The retry policy as the specification words it *)

Module reference.

(** [decide(attemptIndex)] of the specification: no retry when disabled
    or when a finite cap is reached, the maximum once the index exceeds
    the floor of the logarithm, exponential growth otherwise. *)
Definition decide (enabled : bool) (attempts : Z) (baseBackoff maxBackoff : Duration)
    (attemptIndex : Z) : bool * Duration :=
  if negb enabled then (false, 0)
  else if (0 <? attempts) && (attempts <=? attemptIndex) then (false, 0)
  else if (0 <? maxBackoff)
          && (config.floorLog2Ratio maxBackoff baseBackoff <? attemptIndex)
  then (true, maxBackoff)
  else (true, baseBackoff * 2 ^ attemptIndex).

(** The same with the logarithm truncated toward zero, as the conversion
    to [int] leaves it. *)
Definition decideTrunc (enabled : bool) (attempts : Z) (baseBackoff maxBackoff : Duration)
    (attemptIndex : Z) : bool * Duration :=
  if negb enabled then (false, 0)
  else if (0 <? attempts) && (attempts <=? attemptIndex) then (false, 0)
  else if (0 <? maxBackoff)
          && (config.truncLog2Ratio maxBackoff baseBackoff <? attemptIndex)
  then (true, maxBackoff)
  else (true, baseBackoff * 2 ^ attemptIndex).

(** [start()] of the specification: the PID file, then one pass as if
    the first tick had fired at once, then the loop. *)
Definition Start (Join : string -> string -> string) (r : manager.Runner)
    (w : World) (events : list manager.Select)
  : World * list Event * manager.Status :=
  match manager.storePid r w with
  | (w1, evs1, Some err) =>
      (w1, LogRunnerStarting :: evs1 ++ [SendErr err], manager.Returned)
  | (w1, evs1, None) =>
      let '(pr, w2, evs2) := manager.NewProcessor r w1 in
      let '(w3, evs3, st) :=
        manager.startLoop Join pr w2 (manager.TickerC :: events) in
      (w3, LogRunnerStarting :: evs1 ++ LogRunningInitial :: evs2 ++ evs3, st)
  end.

End reference.

(** ** config/retry.go: copies and merges

    Methods on [*RetryConfig]; a nil receiver or argument is [None]. *)

Module RetryConfig.

Import config.

Definition Copy (c : option RetryConfig) : option RetryConfig :=
  match c with
  | None => None
  | Some c =>
      Some {| Attempts := Attempts c; Backoff := Backoff c;
              MaxBackoff := MaxBackoff c; Enabled := Enabled c |}
  end.

Definition Merge (c o : option RetryConfig) : option RetryConfig :=
  match c, o with
  | None, None => None
  | None, Some _ => Copy o
  | Some _, None => Copy c
  | Some cv, Some ov =>
      let r := {| Attempts := Attempts cv; Backoff := Backoff cv;
                  MaxBackoff := MaxBackoff cv; Enabled := Enabled cv |} in
      let r := match Attempts ov with
               | Some _ => {| Attempts := Attempts ov; Backoff := Backoff r;
                              MaxBackoff := MaxBackoff r; Enabled := Enabled r |}
               | None => r
               end in
      let r := match Backoff ov with
               | Some _ => {| Attempts := Attempts r; Backoff := Backoff ov;
                              MaxBackoff := MaxBackoff r; Enabled := Enabled r |}
               | None => r
               end in
      let r := match MaxBackoff ov with
               | Some _ => {| Attempts := Attempts r; Backoff := Backoff r;
                              MaxBackoff := MaxBackoff ov; Enabled := Enabled r |}
               | None => r
               end in
      let r := match Enabled ov with
               | Some _ => {| Attempts := Attempts r; Backoff := Backoff r;
                              MaxBackoff := MaxBackoff r; Enabled := Enabled ov |}
               | None => r
               end in
      Some r
  end.

End RetryConfig.

(** The rule the merges follow field by field: the second setting's
    pointer when it is not nil, the first one's otherwise. *)
Definition later {A : Type} (base override : option A) : option A :=
  match override with
  | Some _ => override
  | None => base
  end.

(** ** config: the authentication setting *)

Module auth.

(** [strings.Contains(s, ":")] *)
Fixpoint ContainsColon (s : string) : bool :=
  match s with
  | EmptyString => false
  | String c rest => Ascii.eqb c ":"%char || ContainsColon rest
  end.

(** [strings.SplitN(s, ":", 2)]: the string cut at its first colon, or
    the string alone when it has none. *)
Fixpoint SplitN2 (s : string) : list string :=
  match s with
  | EmptyString => [EmptyString]
  | String c rest =>
      if Ascii.eqb c ":"%char then [EmptyString; rest]
      else match SplitN2 rest with
           | part :: parts => String c part :: parts
           | [] => [String c EmptyString]
           end
  end.

(** [StringPresent] of config/convert.go *)
Definition StringPresent (s : option string) : bool :=
  match s with
  | None => false
  | Some v => negb (String.eqb v EmptyString)
  end.

Record AuthConfig : Type := {
  Enabled : option bool;
  Username : option string;
  Password : option string
}.

Definition DefaultAuthConfig : AuthConfig :=
  {| Enabled := None; Username := None; Password := None |}.

Inductive ParseError : Type := ErrAuthStringEmpty.

Definition ParseAuthConfig (s : string) : ParseError + AuthConfig :=
  if String.eqb s EmptyString then inl ErrAuthStringEmpty
  else if ContainsColon s then
    let split := SplitN2 s in
    inr {| Enabled := None;
           Username := config.String (nth 0 split EmptyString);
           Password := config.String (nth 1 split EmptyString) |}
  else inr {| Enabled := None; Username := config.String s; Password := None |}.

Definition Copy (c : option AuthConfig) : option AuthConfig :=
  match c with
  | None => None
  | Some c => Some {| Enabled := Enabled c; Username := Username c;
                      Password := Password c |}
  end.

Definition Merge (c o : option AuthConfig) : option AuthConfig :=
  match c, o with
  | None, None => None
  | None, Some _ => Copy o
  | Some _, None => Copy c
  | Some cv, Some ov =>
      let r := {| Enabled := Enabled cv; Username := Username cv;
                  Password := Password cv |} in
      let r := match Enabled ov with
               | Some _ => {| Enabled := Enabled ov; Username := Username r;
                              Password := Password r |}
               | None => r
               end in
      let r := match Username ov with
               | Some _ => {| Enabled := Enabled r; Username := Username ov;
                              Password := Password r |}
               | None => r
               end in
      let r := match Password ov with
               | Some _ => {| Enabled := Enabled r; Username := Username r;
                              Password := Password ov |}
               | None => r
               end in
      Some r
  end.

(** The four steps of [Finalize], in their order. *)
Definition Finalize (c : AuthConfig) : AuthConfig :=
  let c := match Enabled c with
           | None =>
               {| Enabled := config.Bool (false || StringPresent (Username c)
                                          || StringPresent (Password c));
                  Username := Username c; Password := Password c |}
           | Some _ => c
           end in
  let c := match Username c with
           | None => {| Enabled := Enabled c;
                        Username := config.String EmptyString;
                        Password := Password c |}
           | Some _ => c
           end in
  let c := match Password c with
           | None => {| Enabled := Enabled c; Username := Username c;
                        Password := config.String EmptyString |}
           | Some _ => c
           end in
  match Enabled c with
  | None =>
      {| Enabled :=
           config.Bool
             (negb (String.eqb (config.StringVal (Username c)) EmptyString)
              || negb (String.eqb (config.StringVal (Password c)) EmptyString));
         Username := Username c; Password := Password c |}
  | Some _ => c
  end.

(** [fmt.Sprintf("%s:%s", ...)] when a password is there. *)
Definition String (c : AuthConfig) : string :=
  if negb (config.BoolVal (Enabled c)) then EmptyString
  else match Password c with
       | Some _ =>
           config.StringVal (Username c) +:+ ":" +:+ config.StringVal (Password c)
       | None => config.StringVal (Username c)
       end.

End auth.

(** ** The supervisor and the runners it owns

    [Cli.Run] again, with the calls that start a runner ([go
    runner.Start()] on a runner [NewRunner] returned) and stop one
    ([runner.Stop()]) in the order the code makes them. *)

Module supervisor.

Import cli.

Inductive Action : Type :=
| StartRunner
| StopRunner.

Fixpoint loop (sigs : Signals) (events : list Event) : list Action * option Z :=
  match events with
  | [] => ([], None)
  | RunnerErr status :: _ =>
      ([], Some (match status with
                 | Some code => code
                 | None => ExitCodeRunnerError
                 end))
  | RunnerDone :: _ => ([StopRunner], Some ExitCodeOK)
  | Sig s reload :: rest =>
      if s =? ReloadSignal sigs then
        match reload with
        | LoadConfigsErr => ([StopRunner], Some ExitCodeConfigError)
        | SetupErr => ([StopRunner], Some ExitCodeConfigError)
        | NewRunnerErr => ([StopRunner], Some ExitCodeRunnerError)
        | Started =>
            let '(acts, code) := loop sigs rest in
            (StopRunner :: StartRunner :: acts, code)
        end
      else if s =? KillSignal sigs then ([StopRunner], Some ExitCodeInterrupt)
      else ([StopRunner], Some ExitCodeInterrupt)
  | StopCh :: _ => ([], Some ExitCodeOK)
  end.

Definition Run (flags : Flags) (start : Startup) (sigs : Signals)
    (events : list Event) : list Action * option Z :=
  match flags with
  | FlagsErrHelp => ([], Some 0)
  | FlagsErr => ([], Some ExitCodeParseFlagsError)
  | FlagsOk isVersion =>
      match start with
      | LoadConfigsErr => ([], Some ExitCodeConfigError)
      | SetupErr => ([], Some ExitCodeConfigError)
      | _ =>
          if isVersion then ([], Some ExitCodeOK)
          else match start with
               | NewRunnerErr => ([], Some ExitCodeRunnerError)
               | _ =>
                   let '(acts, code) := loop sigs events in
                   (StartRunner :: acts, code)
               end
      end
  end.

(** Whether a runner is running after the calls, and whether every call
    was made in a state that allows it: a start when no runner is
    running, a stop on the running one. *)
Fixpoint runningAfter (running : bool) (acts : list Action) : bool :=
  match acts with
  | [] => running
  | StartRunner :: rest => runningAfter true rest
  | StopRunner :: rest => runningAfter false rest
  end.

Fixpoint inTurn (running : bool) (acts : list Action) : bool :=
  match acts with
  | [] => true
  | StartRunner :: rest => negb running && inTurn true rest
  | StopRunner :: rest => running && inTurn false rest
  end.

(** The event that ends the loop: the first one that is not a reload
    that went through. *)
Fixpoint exitEvent (sigs : Signals) (events : list Event) : option Event :=
  match events with
  | [] => None
  | Sig s Started :: rest =>
      if s =? ReloadSignal sigs then exitEvent sigs rest
      else Some (Sig s Started)
  | e :: _ => Some e
  end.

Definition setKillSignal (sigs : Signals) (s : Signal) : Signals :=
  {| ReloadSignal := ReloadSignal sigs; KillSignal := s |}.

End supervisor.

(** ** Passes of the runner's loop *)

Module polling.

Section Passes.

Variable Join : string -> string -> string.

(** [n] passes, one after the other. *)
Fixpoint passes (n : nat) (pr : processor.Processor) (w : World)
  : World * list Event :=
  match n with
  | O => (w, [])
  | S n' =>
      let '(w', evs, _) := processor.Process Join pr w in
      let '(w'', evs') := passes n' pr w' in
      (w'', evs ++ evs')
  end.

End Passes.

Definition isTerminal (e : manager.Select) : bool :=
  match e with
  | manager.TickerC => false
  | _ => true
  end.

End polling.

(** ** strconv.ParseInt(s, 10, 32)

    The parser of the standard library at base 10 and 32 bits: an
    optional sign, then decimal digits only; a syntax error on anything
    else, a range error outside [-2^31, 2^31 - 1]. *)

Module strconv.





End strconv.

(** ** Flag values of the command line *)

Module flagvars.


(** What the [-interval] flag stores:
    [time.Duration(s) * time.Second]. *)
Definition interval (s : Z) : Duration := Duration_mul s Second.

End flagvars.

(** ** service.go: the first version of the pass *)

Module service.

Record Config : Type := {
  host : string;
  port : Z;
  from : string;
  to : string;
  debug : bool
}.

Inductive Log : Type :=
| WarnEmpty
| Saved (file : string)
| Same (file : string).

(** How [process] ends: it returns, or [log.Fatal] ends the program. *)
Inductive Outcome : Type :=
| Done
| Fatal (err : error).

Section Service.

Variable Join : string -> string -> string.

Definition save (w : World) (filepath : string) (s : string)
  : World * list Log * option error :=
  match writeFile w filepath (list_byte_of_string s) with
  | (w', CreateFails) => (w', [], Some (CreateError filepath))
  | (w', CopyFails _) => (w', [], Some (CopyError filepath))
  | (w', WriteOk) => (w', [Saved filepath], None)
  end.

Definition getHash (v : bytes) : string := EncodeToString (sha256.Sum256 v).

(** The hash and whether the file was read. *)
Definition calculateFileHash (w : World) (filepath : string) : string * bool :=
  match ReadFile w filepath with
  | None => (EmptyString, false)
  | Some f => (getHash f, true)
  end.

(** The loop of [process]; the error is the one [log.Fatal] gets. *)
Fixpoint processPairs (cfg : Config) (w : World) (keys : list KVPair)
  : World * list Log * option error :=
  match keys with
  | [] => (w, [], None)
  | kv :: rest =>
      let parts := Split (Key kv) in
      let filename := lastPart parts in
      if negb (String.eqb filename EmptyString) then
        let file := Join (to cfg) filename in
        let fHash := fst (calculateFileHash w file) in
        let sHash := getHash (Value kv) in
        if negb (String.eqb fHash sHash) then
          match save w file (string_of_list_byte (Value kv)) with
          | (w', logs, Some err) => (w', logs, Some err)
          | (w', logs, None) =>
              let '(w'', logs', r) := processPairs cfg w' rest in
              (w'', logs ++ logs', r)
          end
        else
          let '(w'', logs', r) := processPairs cfg w rest in
          (w'', (if debug cfg then [Same file] else []) ++ logs', r)
      else processPairs cfg w rest
  end.

Definition process (cfg : Config) (w : World) : World * list Log * Outcome :=
  match remote w with
  | inl err => (w, [], Fatal err)
  | inr keys =>
      let header := if Z.of_nat (length keys) <=? 0 then [WarnEmpty] else [] in
      match processPairs cfg w keys with
      | (w', logs, Some err) => (w', header ++ logs, Fatal err)
      | (w', logs, None) => (w', header ++ logs, Done)
      end
  end.

End Service.

End service.

(** ** More on keys and digests *)

(** [strings.Join(parts, "/")] *)
Fixpoint JoinSlash (parts : list string) : string :=
  match parts with
  | [] => EmptyString
  | [part] => part
  | part :: rest => part +:+ String "/"%char (JoinSlash rest)
  end.

Fixpoint hasSlash (s : string) : bool :=
  match s with
  | EmptyString => false
  | String c rest => Ascii.eqb c "/"%char || hasSlash rest
  end.

Definition isHexDigit (c : Ascii.ascii) : bool :=
  let n := Ascii.N_of_ascii c in
  ((48 <=? n) && (n <=? 57) || (97 <=? n) && (n <=? 102))%N.

Fixpoint allHex (s : string) : bool :=
  match s with
  | EmptyString => true
  | String c rest => isHexDigit c && allHex rest
  end.

(** The value of a hex digit, and the byte two of them spell. *)
Definition hexValue (c : Ascii.ascii) : N :=
  let n := Ascii.N_of_ascii c in
  (if (97 <=? n) then n - 87 else n - 48)%N.

Definition hexByte (hi lo : Ascii.ascii) : option Byte.byte :=
  Byte.of_N (hexValue hi * 16 + hexValue lo).

(** ** config/syslog.go *)

Module SyslogConfig.

Definition DefaultSyslogFacility : string := "LOCAL0".

Record SyslogConfig : Type := {
  Enabled : option bool;
  Facility : option string
}.

Definition DefaultSyslogConfig : SyslogConfig :=
  {| Enabled := None; Facility := None |}.

Definition Copy (c : option SyslogConfig) : option SyslogConfig :=
  match c with
  | None => None
  | Some c => Some {| Enabled := Enabled c; Facility := Facility c |}
  end.

Definition Merge (c o : option SyslogConfig) : option SyslogConfig :=
  match c, o with
  | None, None => None
  | None, Some _ => Copy o
  | Some _, None => Copy c
  | Some cv, Some ov =>
      let r := {| Enabled := Enabled cv; Facility := Facility cv |} in
      let r := match Enabled ov with
               | Some _ => {| Enabled := Enabled ov; Facility := Facility r |}
               | None => r
               end in
      let r := match Facility ov with
               | Some _ => {| Enabled := Enabled r; Facility := Facility ov |}
               | None => r
               end in
      Some r
  end.

(** The two steps of [Finalize], in their order: the flag is read off
    the facility before the facility gets its default. *)
Definition Finalize (c : SyslogConfig) : SyslogConfig :=
  let c := match Enabled c with
           | None => {| Enabled := config.Bool (auth.StringPresent (Facility c));
                        Facility := Facility c |}
           | Some _ => c
           end in
  match Facility c with
  | None => {| Enabled := Enabled c;
               Facility := config.String DefaultSyslogFacility |}
  | Some _ => c
  end.

End SyslogConfig.

(** ** config/config.go: values from the environment *)

Module fromenv.

(** [strconv.ParseBool] of the standard library. *)
Definition ParseBool (str : string) : option bool :=
  if existsb (String.eqb str) ["1"; "t"; "T"; "true"; "TRUE"; "True"]%string
  then Some true
  else if existsb (String.eqb str) ["0"; "f"; "F"; "false"; "FALSE"; "False"]%string
  then Some false
  else None.

Section Environment.

(** [os.Getenv]: the empty string for a variable that is not set. *)
Variable Getenv : string -> string.

(** [strings.TrimSpace] of the standard library. *)
Variable TrimSpace : string -> string.

Fixpoint stringFromEnv (names : list string) (def : string) : option string :=
  match names with
  | [] => config.String def
  | s :: rest =>
      let v := Getenv s in
      if negb (String.eqb v EmptyString) then config.String (TrimSpace v)
      else stringFromEnv rest def
  end.

Fixpoint antiboolFromEnv (names : list string) (def : bool) : option bool :=
  match names with
  | [] => config.Bool def
  | s :: rest =>
      let v := Getenv s in
      if negb (String.eqb v EmptyString) then
        match ParseBool v with
        | Some b => config.Bool (negb b)
        | None => antiboolFromEnv rest def
        end
      else antiboolFromEnv rest def
  end.

Fixpoint boolFromEnv (names : list string) (def : bool) : option bool :=
  match names with
  | [] => config.Bool def
  | s :: rest =>
      let v := Getenv s in
      if negb (String.eqb v EmptyString) then
        match ParseBool v with
        | Some b => config.Bool b
        | None => boolFromEnv rest def
        end
      else boolFromEnv rest def
  end.

End Environment.

End fromenv.

(** ** config/config.go: the configuration as a whole

    [ConsulConfig] holds an [SSLConfig], which is defined outside the
    files embedded here: the type and its methods are parameters. *)

Module Config.

Definition DefaultLogLevel : string := "WARN".

(** [syscall.SIGHUP] and [syscall.SIGINT] *)
Definition SIGHUP : cli.Signal := 1.
Definition SIGINT : cli.Signal := 2.

Definition DefaultReloadSignal : cli.Signal := SIGHUP.
Definition DefaultKillSignal : cli.Signal := SIGINT.

Record ConsulMethods : Type := {
  ConsulConfig : Type;
  DefaultConsulConfig : ConsulConfig;
  (** [Copy] and [Finalize] on a receiver that is not nil *)
  ConsulCopy : ConsulConfig -> ConsulConfig;
  ConsulMerge : option ConsulConfig -> option ConsulConfig -> option ConsulConfig;
  ConsulFinalize : ConsulConfig -> ConsulConfig
}.

Section Config.

Variable M : ConsulMethods.
Variable Getenv : string -> string.
Variable TrimSpace : string -> string.

Record Config : Type := {
  Consul : option (ConsulConfig M);
  KillSignal : option cli.Signal;
  LogLevel : option string;
  PidFile : option string;
  ReloadSignal : option cli.Signal;
  Syslog : option SyslogConfig.SyslogConfig;
  From : option string;
  To : option string;
  Interval : option Duration
}.

(** [Copy], on a receiver that is not nil (it dereferences it). *)
Definition Copy (c : Config) : Config :=
  {| Consul := match Consul c with
               | Some v => Some (ConsulCopy M v)
               | None => None
               end;
     KillSignal := KillSignal c;
     LogLevel := LogLevel c;
     PidFile := PidFile c;
     ReloadSignal := ReloadSignal c;
     Syslog := match Syslog c with
               | Some _ => SyslogConfig.Copy (Syslog c)
               | None => None
               end;
     From := From c;
     To := To c;
     Interval := Interval c |}.

Definition Merge (c o : option Config) : option Config :=
  match c, o with
  | None, None => None
  | None, Some ov => Some (Copy ov)
  | Some cv, None => Some (Copy cv)
  | Some cv, Some ov =>
      let r := Copy cv in
      Some {| Consul := match Consul ov with
                        | Some _ => ConsulMerge M (Consul r) (Consul ov)
                        | None => Consul r
                        end;
              KillSignal := match KillSignal ov with
                            | Some _ => KillSignal ov
                            | None => KillSignal r
                            end;
              LogLevel := match LogLevel ov with
                          | Some _ => LogLevel ov
                          | None => LogLevel r
                          end;
              PidFile := match PidFile ov with
                         | Some _ => PidFile ov
                         | None => PidFile r
                         end;
              ReloadSignal := match ReloadSignal ov with
                              | Some _ => ReloadSignal ov
                              | None => ReloadSignal r
                              end;
              Syslog := match Syslog ov with
                        | Some _ => SyslogConfig.Merge (Syslog r) (Syslog ov)
                        | None => Syslog r
                        end;
              From := match From ov with
                      | Some _ => From ov
                      | None => From r
                      end;
              To := match To ov with
                    | Some _ => To ov
                    | None => To r
                    end;
              Interval := match Interval ov with
                          | Some _ => Interval ov
                          | None => Interval r
                          end |}
  end.

Definition DefaultConfig : Config :=
  {| Consul := Some (DefaultConsulConfig M);
     KillSignal := None;
     LogLevel := None;
     PidFile := None;
     ReloadSignal := None;
     Syslog := Some SyslogConfig.DefaultSyslogConfig;
     From := config.String "/";
     To := config.String "./";
     Interval := config.TimeDuration (1 * Second) |}.

(** [Finalize]: every step reads and writes one field; there is no
    step for [Interval]. *)
Definition Finalize (c : Config) : Config :=
  {| Consul := Some (ConsulFinalize M
                       match Consul c with
                       | None => DefaultConsulConfig M
                       | Some v => v
                       end);
     KillSignal := match KillSignal c with
                   | None => Some DefaultKillSignal
                   | s => s
                   end;
     LogLevel := match LogLevel c with
                 | None =>
                     fromenv.stringFromEnv Getenv TrimSpace
                       ["CT_LOG"; "CONSUL_TEMPLATE_LOG"]%string DefaultLogLevel
                 | l => l
                 end;
     PidFile := match PidFile c with
                | None => config.String EmptyString
                | p => p
                end;
     ReloadSignal := match ReloadSignal c with
                     | None => Some DefaultReloadSignal
                     | s => s
                     end;
     Syslog := Some (SyslogConfig.Finalize
                       match Syslog c with
                       | None => SyslogConfig.DefaultSyslogConfig
                       | Some v => v
                       end);
     From := match From c with
             | None => config.String "/"
             | f => f
             end;
     To := match To c with
           | None => config.String "./"
           | t => t
           end;
     Interval := Interval c |}.

(** [TestConfig]; [Runner.init] does the same two steps on its
    configuration. *)
Definition TestConfig (c : option Config) : option Config :=
  match Merge (Some DefaultConfig) c with
  | Some d => Some (Finalize d)
  | None => None
  end.

(** The loop of [loadConfigs] over what [FromPath] returned for each
    path: an error, or a configuration that is nil for a folder
    without files. *)
Fixpoint mergePaths {E : Type} (finalC : option Config)
    (paths : list (E + option Config)) : E + option Config :=
  match paths with
  | [] => inr finalC
  | inl err :: _ => inl err
  | inr c :: rest => mergePaths (Merge finalC c) rest
  end.

(** [loadConfigs]; [inr None] stands for [Finalize] on a nil pointer. *)
Definition loadConfigs {E : Type} (paths : list (E + option Config))
    (o : option Config) : E + option Config :=
  match mergePaths (Some DefaultConfig) paths with
  | inl err => inl err
  | inr finalC =>
      match Merge finalC o with
      | Some c => inr (Some (Finalize c))
      | None => inr None
      end
  end.

(** The configurations that were read, in the order of the paths. *)
Definition loaded {E : Type} (paths : list (E + option Config))
  : list (option Config) :=
  omap (fun p => match p with inr c => Some c | inl _ => None end) paths.

(** The last value given for a field by a list of configurations. *)
Definition lastGiven {A : Type} (field : Config -> option A)
    (configs : list (option Config)) : option A :=
  foldl (fun acc c => later acc (c ≫= field)) None configs.

End Config.

End Config.

(** ** config/env.go *)

Module EnvConfig.

(** A slice of strings; [None] is the nil slice. *)
Definition slice : Type := option (list string).

Definition len (s : slice) : nat :=
  match s with None => 0 | Some l => length l end.

Definition elems (s : slice) : list string :=
  match s with None => [] | Some l => l end.

(** [append(s, more...)]: [s] itself when there is nothing to append. *)
Definition append (s more : slice) : slice :=
  match elems more with
  | [] => s
  | _ => Some (elems s ++ elems more)
  end.

Record EnvConfig : Type := {
  Blacklist : slice;
  Custom : slice;
  Pristine : option bool;
  Whitelist : slice
}.

Definition DefaultEnvConfig : EnvConfig :=
  {| Blacklist := None; Custom := None; Pristine := None; Whitelist := None |}.

Definition Copy (c : option EnvConfig) : option EnvConfig :=
  match c with
  | None => None
  | Some c =>
      Some {| Blacklist := match Blacklist c with
                           | Some _ => append (Some []) (Blacklist c)
                           | None => None
                           end;
              Custom := match Custom c with
                        | Some _ => append (Some []) (Custom c)
                        | None => None
                        end;
              Pristine := Pristine c;
              Whitelist := match Whitelist c with
                           | Some _ => append (Some []) (Whitelist c)
                           | None => None
                           end |}
  end.

Definition Merge (c o : option EnvConfig) : option EnvConfig :=
  match c, o with
  | None, None => None
  | None, Some _ => Copy o
  | Some _, None => Copy c
  | Some _, Some ov =>
      match Copy c with
      | None => None
      | Some r =>
          Some {| Blacklist := match Blacklist ov with
                               | Some _ => append (Blacklist r) (Blacklist ov)
                               | None => Blacklist r
                               end;
                  Custom := match Custom ov with
                            | Some _ => append (Custom r) (Custom ov)
                            | None => Custom r
                            end;
                  Pristine := match Pristine ov with
                              | Some _ => Pristine ov
                              | None => Pristine r
                              end;
                  Whitelist := match Whitelist ov with
                               | Some _ => append (Whitelist r) (Whitelist ov)
                               | None => Whitelist r
                               end |}
      end
  end.

Definition Finalize (c : EnvConfig) : EnvConfig :=
  {| Blacklist := match Blacklist c with None => Some [] | b => b end;
     Custom := match Custom c with None => Some [] | b => b end;
     Pristine := match Pristine c with None => config.Bool false | p => p end;
     Whitelist := match Whitelist c with None => Some [] | b => b end |}.

(** [strings.SplitN(v, "=", 2)] *)
Fixpoint SplitN2 (v : string) : list string :=
  match v with
  | EmptyString => [EmptyString]
  | String c rest =>
      if Ascii.eqb c "="%char then [EmptyString; rest]
      else match SplitN2 rest with
           | part :: parts => String c part :: parts
           | [] => [String c EmptyString]
           end
  end.

(** The first loop of [Env]: the keys in the order of [os.Environ()],
    and the map from a key to the value of its last entry.  [None] is
    the panic of [list[1]] on an entry without [=]. *)
Fixpoint readEnviron (environ : list string) (env : gmap string string)
  : option (list string * gmap string string) :=
  match environ with
  | [] => Some ([], env)
  | v :: rest =>
      match SplitN2 v with
      | k :: val :: _ =>
          match readEnviron rest (<[k := val]> env) with
          | Some (keys, env') => Some (k :: keys, env')
          | None => None
          end
      | _ => None
      end
  end.

Section Env.

(** Whether [filepath.Match(pattern, name)] reports a match; its error
    is dropped by the caller. *)
Variable Match : string -> string -> bool.

Definition anyGlobMatch (s : string) (patterns : list string) : bool :=
  existsb (fun pattern => Match pattern s) patterns.

Definition Env (c : EnvConfig) (environ : list string) : option (list string) :=
  if config.BoolVal (Pristine c) then
    if (0 <? len (Custom c))%nat then Some (elems (Custom c)) else Some []
  else
    match readEnviron environ ∅ with
    | None => None
    | Some (keys, env) =>
        let keys :=
          if (0 <? len (Whitelist c))%nat
          then List.filter (fun k => anyGlobMatch k (elems (Whitelist c))) keys
          else keys in
        let keys :=
          if (0 <? len (Blacklist c))%nat
          then List.filter (fun k => negb (anyGlobMatch k (elems (Blacklist c)))) keys
          else keys in
        Some (map (fun k => k +:+ "=" +:+ default EmptyString (env !! k)) keys
              ++ elems (Custom c))
    end.

End Env.

(** Whether an entry of the environment has an [=]. *)
Fixpoint hasEq (v : string) : bool :=
  match v with
  | EmptyString => false
  | String c rest => Ascii.eqb c "="%char || hasEq rest
  end.

End EnvConfig.

(** ** Concrete policies, worlds and runners *)

Module examples.

(** The default base backoff, no maximum and no cap on the attempts. *)
Definition noMaximum : config.RetryConfig :=
  {| config.Attempts := Some 0;
     config.Backoff := Some (250 * Millisecond);
     config.MaxBackoff := Some 0;
     config.Enabled := Some true |}.

(** The default base backoff with a maximum of 200ms below it. *)
Definition lowMaximum : config.RetryConfig :=
  {| config.Attempts := Some 12;
     config.Backoff := Some (250 * Millisecond);
     config.MaxBackoff := Some (200 * Millisecond);
     config.Enabled := Some true |}.

(** The default base backoff with a maximum of 100ms, less than half of
    it. *)
Definition halfMaximum : config.RetryConfig :=
  {| config.Attempts := Some 12;
     config.Backoff := Some (250 * Millisecond);
     config.MaxBackoff := Some (100 * Millisecond);
     config.Enabled := Some true |}.

(** The defaults with a negative attempts value. *)
Definition negativeAttempts : config.RetryConfig :=
  {| config.Attempts := Some (-3);
     config.Backoff := Some (250 * Millisecond);
     config.MaxBackoff := Some (1 * Minute);
     config.Enabled := Some true |}.

(** [filepath.Join] on a clean directory and a plain file name. *)
Definition joinPath (dir name : string) : string := dir +:+ "/" +:+ name.

Definition noFault : string -> bool := fun _ => false.

(** An empty destination directory [out] and two keys under [prefix]. *)
Definition emptyOut : World :=
  {| files := ∅;
     dirs := {[ "out"%string ]};
     remote := inr [ {| Key := "prefix/a"; Value := list_byte_of_string "1" |};
                     {| Key := "prefix/b"; Value := list_byte_of_string "2" |} ];
     unreadable := noFault;
     writeFault := fun _ => WriteOk;
     statFails := noFault;
     mkdirFails := noFault;
     removeFails := noFault;
     pid := 4242 |}.

(** Two keys with the same file name [x] in different folders of the
    store, and a local [out/x] that holds the payload of the second. *)
Definition sameName : World :=
  {| files := {[ "out/x"%string := list_byte_of_string "2" ]};
     dirs := {[ "out"%string ]};
     remote := inr [ {| Key := "prefix/a/x"; Value := list_byte_of_string "1" |};
                     {| Key := "prefix/b/x"; Value := list_byte_of_string "2" |} ];
     unreadable := noFault;
     writeFault := fun _ => WriteOk;
     statFails := noFault;
     mkdirFails := noFault;
     removeFails := noFault;
     pid := 4242 |}.

Definition onceProcessor : processor.Processor :=
  {| processor.From := "prefix"; processor.To := "out";
     processor.once := true; processor.dry := false |}.

Definition dryProcessor : processor.Processor :=
  processor.setDry onceProcessor true.

Definition pairA : KVPair :=
  {| Key := "prefix/a"; Value := list_byte_of_string "1" |}.

(** The same destination when the store cannot be listed. *)
Definition listFails : World :=
  {| files := ∅;
     dirs := {[ "out"%string ]};
     remote := inl ListError;
     unreadable := noFault;
     writeFault := fun _ => WriteOk;
     statFails := noFault;
     mkdirFails := noFault;
     removeFails := noFault;
     pid := 4242 |}.

(** The two-key store when [out/a] cannot be created. *)
Definition createFails : World :=
  {| files := ∅;
     dirs := {[ "out"%string ]};
     remote := remote emptyOut;
     unreadable := noFault;
     writeFault := fun path => if String.eqb path "out/a" then CreateFails else WriteOk;
     statFails := noFault;
     mkdirFails := noFault;
     removeFails := noFault;
     pid := 4242 |}.

(** A runner with a PID file that was written, and one whose PID file
    cannot be removed. *)
Definition pidRunner : manager.Runner :=
  {| manager.configFrom := "prefix"; manager.configTo := "out";
     manager.PidFile := Some "run.pid"%string;
     manager.dry := false; manager.once := false;
     manager.stopped := false; manager.doneClosed := false |}.

Definition pidWritten : World :=
  {| files := {[ "run.pid"%string := list_byte_of_string "4242" ]};
     dirs := {[ "out"%string ]};
     remote := inr [];
     unreadable := noFault;
     writeFault := fun _ => WriteOk;
     statFails := noFault;
     mkdirFails := noFault;
     removeFails := noFault;
     pid := 4242 |}.

Definition pidStuck : World :=
  {| files := {[ "run.pid"%string := list_byte_of_string "4242" ]};
     dirs := {[ "out"%string ]};
     remote := inr [];
     unreadable := noFault;
     writeFault := fun _ => WriteOk;
     statFails := noFault;
     mkdirFails := noFault;
     removeFails := fun _ => true;
     pid := 4242 |}.

(** A run-once runner without PID file, for the two-key store. *)
Definition onceRunner : manager.Runner :=
  {| manager.configFrom := "prefix"; manager.configTo := "out";
     manager.PidFile := Some EmptyString;
     manager.dry := false; manager.once := true;
     manager.stopped := false; manager.doneClosed := false |}.

End examples.

(** ** More settings, worlds and configurations *)

Module samples.

(** A retry setting that gives only the maximum backoff, and one that
    gives only the number of attempts. *)
Definition maximumOnly : config.RetryConfig :=
  {| config.Attempts := None;
     config.Backoff := None;
     config.MaxBackoff := Some (10 * Second);
     config.Enabled := None |}.

Definition attemptsOnly : config.RetryConfig :=
  {| config.Attempts := Some 5;
     config.Backoff := None;
     config.MaxBackoff := None;
     config.Enabled := None |}.

(** The two-key store with a local file that no key names. *)
Definition withOther : World :=
  {| files := {[ "out/keep"%string := list_byte_of_string "k" ]};
     dirs := {[ "out"%string ]};
     remote := remote examples.emptyOut;
     unreadable := examples.noFault;
     writeFault := fun _ => WriteOk;
     statFails := examples.noFault;
     mkdirFails := examples.noFault;
     removeFails := examples.noFault;
     pid := 4242 |}.

(** The two-key store before the destination directory exists. *)
Definition noDestination : World :=
  {| files := ∅;
     dirs := ∅;
     remote := remote examples.emptyOut;
     unreadable := examples.noFault;
     writeFault := fun _ => WriteOk;
     statFails := examples.noFault;
     mkdirFails := examples.noFault;
     removeFails := examples.noFault;
     pid := 4242 |}.

(** A processor of the polling mode. *)
Definition pollingProcessor : processor.Processor :=
  {| processor.From := "prefix"; processor.To := "out";
     processor.once := false; processor.dry := false |}.

(** SIGHUP reloads, SIGINT kills. *)
Definition signals : cli.Signals :=
  {| cli.ReloadSignal := 1; cli.KillSignal := 2 |}.

(** The configuration of service.go for the same prefix and
    destination. *)
Definition legacy : service.Config :=
  {| service.host := "localhost"; service.port := 8500;
     service.from := "prefix"; service.to := "out";
     service.debug := false |}.

(** An environment where the first variable is unset, the second holds
    no truth value and the third is true. *)
Definition threeVariables (name : string) : string :=
  if String.eqb name "B" then "maybe"
  else if String.eqb name "C" then "T"
  else EmptyString.

(** An environment with no variable set. *)
Definition nothingSet (name : string) : string := EmptyString.

(** The Consul block reduced to a single value. *)
Definition noConsul : Config.ConsulMethods :=
  {| Config.ConsulConfig := unit;
     Config.DefaultConsulConfig := tt;
     Config.ConsulCopy := fun c => c;
     Config.ConsulMerge := fun c o => later c o;
     Config.ConsulFinalize := fun c => c |}.

(** A file that gives a PID file and an interval, and a command line
    that gives another interval. *)
Definition fromFile : Config.Config noConsul :=
  {| Config.Consul := None;
     Config.KillSignal := None;
     Config.LogLevel := None;
     Config.PidFile := Some "run.pid"%string;
     Config.ReloadSignal := None;
     Config.Syslog := None;
     Config.From := None;
     Config.To := None;
     Config.Interval := Some (5 * Second) |}.

Definition fromFlags : Config.Config noConsul :=
  {| Config.Consul := None;
     Config.KillSignal := None;
     Config.LogLevel := None;
     Config.PidFile := None;
     Config.ReloadSignal := None;
     Config.Syslog := None;
     Config.From := None;
     Config.To := None;
     Config.Interval := Some (30 * Second) |}.

(** What loading the two gives. *)
Definition fromBoth : Config.Config noConsul :=
  {| Config.Consul := Some (tt : Config.ConsulConfig noConsul);
     Config.KillSignal := Some Config.SIGINT;
     Config.LogLevel := Some "WARN"%string;
     Config.PidFile := Some "run.pid"%string;
     Config.ReloadSignal := Some Config.SIGHUP;
     Config.Syslog := Some {| SyslogConfig.Enabled := Some false;
                              SyslogConfig.Facility := Some "LOCAL0"%string |};
     Config.From := Some "/"%string;
     Config.To := Some "./"%string;
     Config.Interval := Some (30 * Second) |}.

(** Patterns without metacharacters: a pattern matches its own text. *)
Definition plainMatch (pattern name : string) : bool := String.eqb pattern name.

Definition childEnv : EnvConfig.EnvConfig :=
  {| EnvConfig.Blacklist := Some ["SECRET"%string];
     EnvConfig.Custom := Some ["EXTRA=1"%string];
     EnvConfig.Pristine := None;
     EnvConfig.Whitelist := None |}.

Definition environ : list string :=
  ["PATH=/bin"; "SECRET=x"; "HOME=/root"]%string.

End samples.

(** * Properties *)

(** ** Machine arithmetic *)

Lemma wrap64_id (z : Z) : int64_range z -> wrap64 z = z.
Proof.
  unfold int64_range, MinInt64, MaxInt64, wrap64. intros Hz.
  rewrite Z.mod_small; lia.
Qed.

Lemma pow2_le_mono (i j : Z) : 0 <= i <= j -> 2 ^ i <= 2 ^ j.
Proof. intros H. apply Z.pow_le_mono_r; lia. Qed.

Lemma pow2_pos (i : Z) : 0 <= i -> 0 < 2 ^ i.
Proof. intros H. apply Z.pow_pos_nonneg; lia. Qed.

(** An index whose power of two stays below [2^63] is at most 62. *)
Lemma pow2_fits_index (i : Z) : 0 <= i -> 2 ^ i <= MaxInt64 -> i <= 62.
Proof.
  intros Hi Hp. destruct (Z_le_gt_dec i 62) as [|Hgt]; [assumption|].
  assert (2 ^ 63 <= 2 ^ i) by (apply pow2_le_mono; lia).
  unfold MaxInt64 in Hp. lia.
Qed.

(** ** The logarithm of the quotient *)

Section Log2Ratio.

Import config.

Lemma truncLog2Ratio_ge (maxSleep baseSleep : Duration) :
  0 < baseSleep <= maxSleep ->
  let k := truncLog2Ratio maxSleep baseSleep in
  0 <= k /\ baseSleep * 2 ^ k <= maxSleep < baseSleep * 2 ^ (k + 1).
Proof.
  intros [Hb Hm]. unfold truncLog2Ratio.
  destruct (Z.leb_spec baseSleep maxSleep) as [_|]; [|lia].
  set (q := maxSleep / baseSleep).
  assert (Hq : 1 <= q) by (apply Z.div_le_lower_bound; lia).
  assert (Hlo : baseSleep * q <= maxSleep) by (apply Z.mul_div_le; lia).
  assert (Hhi : maxSleep < baseSleep * (q + 1)).
  { pose proof (Z.mul_succ_div_gt maxSleep baseSleep Hb). fold q in H. lia. }
  destruct (Z.log2_spec q ltac:(lia)) as [Hl Hu].
  pose proof (Z.log2_nonneg q) as Hk.
  replace (Z.succ (Z.log2 q)) with (Z.log2 q + 1) in Hu by lia.
  cbv zeta. split; [exact Hk|]. split; nia.
Qed.

Lemma truncLog2Ratio_lt (maxSleep baseSleep : Duration) :
  0 < maxSleep < baseSleep ->
  let k := truncLog2Ratio maxSleep baseSleep in
  k <= 0 /\ (k = 0 <-> baseSleep < 2 * maxSleep).
Proof.
  intros [Hm Hb]. unfold truncLog2Ratio.
  destruct (Z.leb_spec baseSleep maxSleep) as [|_]; [lia|].
  set (q := baseSleep / maxSleep).
  assert (Hq : 1 <= q) by (apply Z.div_le_lower_bound; lia).
  pose proof (Z.log2_nonneg q) as Hk.
  cbv zeta. split; [lia|]. split.
  - intros H0. assert (Hl : Z.log2 q = 0) by lia.
    destruct (Z.log2_spec q ltac:(lia)) as [_ Hu]. rewrite Hl in Hu.
    change (2 ^ Z.succ 0) with 2 in Hu.
    pose proof (Z.mul_succ_div_gt baseSleep maxSleep Hm) as Hgt. fold q in Hgt. nia.
  - intros Hlt. assert (q < 2) by (apply Z.div_lt_upper_bound; lia).
    replace q with 1 by lia. reflexivity.
Qed.

(** On a quotient of at least one, truncation and floor agree. *)
Lemma truncLog2Ratio_floor (maxSleep baseSleep : Duration) :
  baseSleep <= maxSleep ->
  truncLog2Ratio maxSleep baseSleep = floorLog2Ratio maxSleep baseSleep.
Proof.
  intros H. unfold truncLog2Ratio, floorLog2Ratio.
  destruct (Z.leb_spec baseSleep maxSleep); [reflexivity|lia].
Qed.

End Log2Ratio.

(** ** The retry policy *)

Section Retry.

Import config.

Variable attemptsTillMaxBackoff : Duration -> Duration -> Z.

(** Without overflow the product of [RetryFunc] is the exponential. *)
Lemma Duration_mul_pow2 (baseSleep : Duration) (retry : Z) :
  0 < baseSleep -> 0 <= retry -> baseSleep * 2 ^ retry <= MaxInt64 ->
  Duration_mul (Pow2Duration retry) baseSleep = baseSleep * 2 ^ retry.
Proof.
  intros Hb Hr Hfit.
  pose proof (pow2_pos retry Hr) as Hp.
  assert (Hi : retry <= 62) by (apply pow2_fits_index; [lia|nia]).
  unfold Duration_mul, Pow2Duration.
  destruct (Z.ltb_spec retry 0); [lia|].
  destruct (Z.leb_spec retry 62); [|lia].
  rewrite wrap64_id; [lia|].
  unfold int64_range, MinInt64. split; [|lia]. nia.
Qed.

(** The exponential stays below a positive maximum up to the exact
    threshold. *)
Lemma below_threshold_fits (baseSleep maxSleep : Duration) (retry : Z) :
  0 < baseSleep -> 0 < maxSleep -> 0 <= retry ->
  retry <= truncLog2Ratio maxSleep baseSleep ->
  baseSleep * 2 ^ retry <= Z.max baseSleep maxSleep.
Proof.
  intros Hb Hm Hr Hk.
  destruct (Z_le_gt_dec baseSleep maxSleep) as [Hle|Hgt].
  - destruct (truncLog2Ratio_ge maxSleep baseSleep ltac:(lia)) as (Hk0 & Hlo & _).
    pose proof (pow2_le_mono retry (truncLog2Ratio maxSleep baseSleep) ltac:(lia)).
    nia.
  - destruct (truncLog2Ratio_lt maxSleep baseSleep ltac:(lia)) as (Hk0 & _).
    replace retry with 0 by lia. change (2 ^ 0) with 1. lia.
Qed.

Lemma RetryFunc_disabled (c : RetryConfig) (retry : Z) :
  BoolVal (Enabled c) = false ->
  RetryFunc attemptsTillMaxBackoff c retry = (false, 0).
Proof. intros H. unfold RetryFunc. rewrite H. reflexivity. Qed.

Lemma RetryFunc_capped (c : RetryConfig) (retry : Z) :
  0 < IntVal (Attempts c) <= retry ->
  RetryFunc attemptsTillMaxBackoff c retry = (false, 0).
Proof.
  intros [Ha Hr]. unfold RetryFunc.
  destruct (BoolVal (Enabled c)); [|reflexivity]. cbn [negb].
  destruct (Z.gtb_spec (IntVal (Attempts c)) 0); [|lia].
  destruct (Z.gtb_spec retry (IntVal (Attempts c) - 1)); [|lia].
  reflexivity.
Qed.

(** The two tests of [RetryFunc] against the ones of the reference. *)
Lemma cap_test (attempts retry : Z) :
  (attempts >? 0) && (retry >? attempts - 1)
  = (0 <? attempts) && (attempts <=? retry).
Proof.
  destruct (Z.gtb_spec attempts 0), (Z.ltb_spec 0 attempts),
    (Z.gtb_spec retry (attempts - 1)), (Z.leb_spec attempts retry);
    cbn [andb]; try reflexivity; lia.
Qed.

Lemma clamp_test (maxSleep k retry : Z) :
  (maxSleep >? 0) && (retry >? k) = (0 <? maxSleep) && (k <? retry).
Proof.
  destruct (Z.gtb_spec maxSleep 0), (Z.ltb_spec 0 maxSleep),
    (Z.gtb_spec retry k), (Z.ltb_spec k retry);
    cbn [andb]; try reflexivity; lia.
Qed.

End Retry.

(** [RetryFunc] against the reference with the truncated logarithm, for
    any policy. *)
Lemma RetryFunc_decideTrunc
    (attemptsTillMaxBackoff : Duration -> Duration -> Z)
    (c : config.RetryConfig) (retry : Z) :
  let enabled := config.BoolVal (config.Enabled c) in
  let attempts := config.IntVal (config.Attempts c) in
  let baseSleep := config.TimeDurationVal (config.Backoff c) in
  let maxSleep := config.TimeDurationVal (config.MaxBackoff c) in
  0 < baseSleep -> int64_range baseSleep -> int64_range maxSleep ->
  0 <= retry ->
  (0 < maxSleep ->
   attemptsTillMaxBackoff maxSleep baseSleep
   = config.truncLog2Ratio maxSleep baseSleep) ->
  (maxSleep <= 0 -> baseSleep * 2 ^ retry <= MaxInt64) ->
  config.RetryFunc attemptsTillMaxBackoff c retry
  = reference.decideTrunc enabled attempts baseSleep maxSleep retry.
Proof.
  intros enabled attempts baseSleep maxSleep Hb Hbr Hmr Hr Hlog Hfit.
  unfold config.RetryFunc, reference.decideTrunc.
  fold enabled attempts baseSleep maxSleep. cbv zeta.
  destruct enabled; [|reflexivity]. cbn [negb].
  rewrite cap_test.
  destruct ((0 <? attempts) && (attempts <=? retry)); [reflexivity|].
  rewrite clamp_test.
  destruct (Z.ltb_spec 0 maxSleep) as [Hm|Hm]; cbn [andb].
  - rewrite (Hlog Hm).
    destruct (Z.ltb_spec (config.truncLog2Ratio maxSleep baseSleep) retry) as [|Hk];
      [reflexivity|].
    f_equal. apply Duration_mul_pow2; [assumption..|].
    pose proof (below_threshold_fits baseSleep maxSleep retry Hb Hm Hr Hk).
    unfold int64_range in Hbr, Hmr. lia.
  - f_equal. apply Duration_mul_pow2; auto.
Qed.

(** In a policy whose positive maximum is at least the base backoff or at
    most half of it, the floor and the truncation of the logarithm clamp
    the same indices. *)
Lemma floorLog2Ratio_negative (maxSleep baseSleep : Duration) :
  0 < maxSleep < baseSleep -> config.floorLog2Ratio maxSleep baseSleep < 0.
Proof.
  intros [Hm Hb]. unfold config.floorLog2Ratio.
  destruct (Z.leb_spec baseSleep maxSleep); [lia|].
  assert (2 <= (baseSleep + maxSleep - 1) / maxSleep)
    by (apply Z.div_le_lower_bound; lia).
  pose proof (Z.log2_up_pos ((baseSleep + maxSleep - 1) / maxSleep) ltac:(lia)).
  lia.
Qed.

Lemma clamp_floor_trunc (maxSleep baseSleep retry : Z) :
  0 < baseSleep -> 0 < maxSleep -> 0 <= retry ->
  (maxSleep < baseSleep -> 2 * maxSleep <= baseSleep) ->
  (config.truncLog2Ratio maxSleep baseSleep <? retry)
  = (config.floorLog2Ratio maxSleep baseSleep <? retry).
Proof.
  intros Hb Hm Hr Hdom.
  destruct (Z_le_gt_dec baseSleep maxSleep) as [Hle|Hgt].
  - rewrite (truncLog2Ratio_floor _ _ Hle). reflexivity.
  - pose proof (floorLog2Ratio_negative maxSleep baseSleep ltac:(lia)).
    destruct (truncLog2Ratio_lt maxSleep baseSleep ltac:(lia)) as (Hk & Hiff).
    specialize (Hdom ltac:(lia)).
    assert (config.truncLog2Ratio maxSleep baseSleep < 0).
    { destruct (Z.eq_dec (config.truncLog2Ratio maxSleep baseSleep) 0) as [E|];
        [apply Hiff in E|]; lia. }
    destruct (Z.ltb_spec (config.truncLog2Ratio maxSleep baseSleep) retry),
      (Z.ltb_spec (config.floorLog2Ratio maxSleep baseSleep) retry);
      try reflexivity; lia.
Qed.

(** C3 (amended): for a finalized policy with a positive base backoff
    whose maximum is zero, at least the base backoff or at most half of
    it, and a non-negative index, when the threshold computed in float64
    is the exact logarithm truncated toward zero and, without a maximum,
    the exponential fits a 64-bit duration, [RetryFunc] is the reference
    definition of the specification; and index 0 yields the base backoff
    when retries are enabled and the maximum is zero or at least the
    base backoff. *)
Theorem RetryFunc_reference
    (attemptsTillMaxBackoff : Duration -> Duration -> Z)
    (c : config.RetryConfig) (retry : Z) :
  let c' := config.Finalize c in
  let enabled := config.BoolVal (config.Enabled c') in
  let attempts := config.IntVal (config.Attempts c') in
  let baseSleep := config.TimeDurationVal (config.Backoff c') in
  let maxSleep := config.TimeDurationVal (config.MaxBackoff c') in
  0 < baseSleep -> int64_range baseSleep -> int64_range maxSleep ->
  0 <= retry ->
  (0 < maxSleep ->
   attemptsTillMaxBackoff maxSleep baseSleep
   = config.truncLog2Ratio maxSleep baseSleep) ->
  (0 < maxSleep < baseSleep -> 2 * maxSleep <= baseSleep) ->
  (maxSleep <= 0 -> baseSleep * 2 ^ retry <= MaxInt64) ->
  config.RetryFunc attemptsTillMaxBackoff c' retry
  = reference.decide enabled attempts baseSleep maxSleep retry
  /\ (retry = 0 -> enabled = true -> maxSleep <= 0 \/ baseSleep <= maxSleep ->
      config.RetryFunc attemptsTillMaxBackoff c' retry = (true, baseSleep)).
Proof.
  intros c' enabled attempts baseSleep maxSleep Hb Hbr Hmr Hr Hlog Hdom Hfit.
  pose proof (RetryFunc_decideTrunc attemptsTillMaxBackoff c' retry
                Hb Hbr Hmr Hr Hlog Hfit) as Htrunc.
  fold enabled attempts baseSleep maxSleep in Htrunc.
  assert (Href : reference.decideTrunc enabled attempts baseSleep maxSleep retry
                 = reference.decide enabled attempts baseSleep maxSleep retry).
  { unfold reference.decideTrunc, reference.decide.
    destruct (Z.ltb_spec 0 maxSleep) as [Hm|Hm]; [|reflexivity].
    rewrite (clamp_floor_trunc maxSleep baseSleep retry Hb Hm Hr) by lia.
    reflexivity. }
  split; [rewrite Htrunc; exact Href|].
  intros -> Hen Hmax. rewrite Htrunc. unfold reference.decideTrunc.
  rewrite Hen. cbn [negb].
  destruct (Z.ltb_spec 0 attempts), (Z.leb_spec attempts 0); cbn [andb]; try lia.
  all: destruct (Z.ltb_spec 0 maxSleep) as [Hm|Hm]; cbn [andb];
    [|change (2 ^ 0) with 1; f_equal; lia].
  all: destruct (Z.ltb_spec (config.truncLog2Ratio maxSleep baseSleep) 0) as [Hk|Hk];
    [|change (2 ^ 0) with 1; f_equal; lia].
  all: exfalso; destruct Hmax as [|Hle]; [lia|].
  all: pose proof (truncLog2Ratio_ge maxSleep baseSleep ltac:(lia)) as (? & _); lia.
Qed.

(** Where the clamp is sound: for a finalized policy with retries enabled,
    a positive base backoff and an exactly computed threshold, whose
    maximum is zero, at least the base backoff or at most half of it,
    the wait does not decrease over the indices where a retry is
    allowed, as long as without a maximum the exponential fits a 64-bit
    duration; and a positive maximum is never exceeded. *)
Lemma RetryFunc_monotone_bounded
    (attemptsTillMaxBackoff : Duration -> Duration -> Z)
    (c : config.RetryConfig) :
  let c' := config.Finalize c in
  let baseSleep := config.TimeDurationVal (config.Backoff c') in
  let maxSleep := config.TimeDurationVal (config.MaxBackoff c') in
  let decide := config.RetryFunc attemptsTillMaxBackoff c' in
  config.BoolVal (config.Enabled c') = true ->
  0 < baseSleep -> int64_range baseSleep -> int64_range maxSleep ->
  (0 < maxSleep ->
   attemptsTillMaxBackoff maxSleep baseSleep
   = config.truncLog2Ratio maxSleep baseSleep) ->
  (0 < maxSleep < baseSleep -> 2 * maxSleep <= baseSleep) ->
  (forall i j : Z, 0 <= i <= j ->
     fst (decide i) = true -> fst (decide j) = true ->
     (maxSleep <= 0 -> baseSleep * 2 ^ j <= MaxInt64) ->
     snd (decide i) <= snd (decide j))
  /\ (0 < maxSleep -> forall i : Z, 0 <= i -> snd (decide i) <= maxSleep).
Proof.
  intros c' baseSleep maxSleep decide Hen Hb Hbr Hmr Hlog Hdom.
  assert (Hbelow : forall i, 0 < maxSleep -> 0 <= i ->
            i <= config.truncLog2Ratio maxSleep baseSleep ->
            baseSleep * 2 ^ i <= maxSleep).
  { intros i Hm Hi Hk.
    pose proof (below_threshold_fits baseSleep maxSleep i Hb Hm Hi Hk) as Hfit.
    destruct (Z_le_gt_dec baseSleep maxSleep) as [Hle|Hgt]; [lia|].
    destruct (truncLog2Ratio_lt maxSleep baseSleep ltac:(lia)) as (Hk0 & Hiff).
    assert (config.truncLog2Ratio maxSleep baseSleep = 0) as Hz by lia.
    apply Hiff in Hz. specialize (Hdom ltac:(lia)). lia. }
  split.
  - intros i j Hij Hai Haj Hfit.
    assert (Hfiti : maxSleep <= 0 -> baseSleep * 2 ^ i <= MaxInt64).
    { intros Hm. specialize (Hfit Hm).
      pose proof (pow2_le_mono i j Hij). nia. }
    pose proof (RetryFunc_decideTrunc attemptsTillMaxBackoff c' i
                  Hb Hbr Hmr ltac:(lia) Hlog Hfiti) as Ei.
    pose proof (RetryFunc_decideTrunc attemptsTillMaxBackoff c' j
                  Hb Hbr Hmr ltac:(lia) Hlog Hfit) as Ej.
    cbv zeta in Ei, Ej. fold baseSleep maxSleep in Ei, Ej.
    unfold decide in Hai, Haj |- *. rewrite Ei in Hai |- *. rewrite Ej in Haj |- *.
    clear Ei Ej. rewrite Hen in Hai, Haj |- *.
    unfold reference.decideTrunc in Hai, Haj |- *. cbn [negb] in Hai, Haj |- *.
    destruct ((0 <? _) && (_ <=? i)); [discriminate|].
    destruct ((0 <? _) && (_ <=? j)); [discriminate|].
    destruct (Z.ltb_spec 0 maxSleep) as [Hm|Hm]; cbn [andb fst snd] in *.
    + destruct (Z.ltb_spec (config.truncLog2Ratio maxSleep baseSleep) i) as [Hki|Hki],
        (Z.ltb_spec (config.truncLog2Ratio maxSleep baseSleep) j) as [Hkj|Hkj];
        cbn [snd]; try lia.
      * apply Hbelow; lia.
      * pose proof (pow2_le_mono i j Hij). nia.
    + pose proof (pow2_le_mono i j Hij). nia.
  - intros Hm i Hi. unfold decide.
    pose proof (RetryFunc_decideTrunc attemptsTillMaxBackoff c' i
                  Hb Hbr Hmr Hi Hlog ltac:(lia)) as Ei.
    cbv zeta in Ei. fold baseSleep maxSleep in Ei. rewrite Ei, Hen. clear Ei.
    unfold reference.decideTrunc. cbn [negb].
    destruct ((0 <? _) && (_ <=? i)); [cbn [snd]; lia|].
    destruct (Z.ltb_spec 0 maxSleep); [|lia]. cbn [andb].
    destruct (Z.ltb_spec (config.truncLog2Ratio maxSleep baseSleep) i) as [Hki|Hki];
      cbn [snd]; [lia|].
    apply Hbelow; lia.
Qed.

(** C10: with retries enabled and a negative attempts value, [RetryFunc]
    answers as it does with attempts 0, and allows a retry at every
    index. *)
Theorem RetryFunc_negative_attempts
    (attemptsTillMaxBackoff : Duration -> Duration -> Z)
    (c : config.RetryConfig) (a : Z) (retry : Z) :
  config.BoolVal (config.Enabled c) = true ->
  config.Attempts c = Some a -> a < 0 ->
  let unlimited :=
    {| config.Attempts := Some 0; config.Backoff := config.Backoff c;
       config.MaxBackoff := config.MaxBackoff c;
       config.Enabled := config.Enabled c |} in
  config.RetryFunc attemptsTillMaxBackoff c retry
  = config.RetryFunc attemptsTillMaxBackoff unlimited retry
  /\ fst (config.RetryFunc attemptsTillMaxBackoff c retry) = true.
Proof.
  intros Hen Ha Hneg unlimited. unfold config.RetryFunc, unlimited.
  cbn [config.Attempts config.Backoff config.MaxBackoff config.Enabled].
  rewrite Hen, Ha. cbn [negb config.IntVal].
  destruct (Z.gtb_spec a 0); [lia|]. cbn [andb].
  change (0 >? 0) with false. cbn [andb].
  split; [reflexivity|].
  destruct (_ && _); reflexivity.
Qed.

(** Hypotheses on concrete numbers. *)
Ltac by_computation :=
  repeat match goal with
         | |- _ /\ _ => split
         | |- int64_range _ => unfold int64_range
         end;
  try first [ vm_compute; first [reflexivity | discriminate | congruence]
            | let H := fresh in
              intro H; vm_compute in H; vm_compute;
              first [reflexivity | discriminate | intuition discriminate] ].

(** The defaults at index 3: two seconds. *)
Lemma RetryFunc_reference_default :
  let c := config.Finalize config.DefaultRetryConfig in
  config.RetryFunc config.truncLog2Ratio c 3
  = reference.decide true 12 (250 * Millisecond) (1 * Minute) 3
  /\ config.RetryFunc config.truncLog2Ratio c 3 = (true, 2 * Second).
Proof.
  split; [|vm_compute; reflexivity].
  refine (proj1 (RetryFunc_reference config.truncLog2Ratio
                   config.DefaultRetryConfig 3 _ _ _ _ _ _ _)); by_computation.
Defined.

(** C3 fails as stated: with a base backoff of 250ms and a maximum of
    100ms the policy is finalized, and index 0 waits for the maximum,
    not for the base backoff; so does the reference definition, whose
    floor of the logarithm is -2. *)
Lemma RetryFunc_first_not_base :
  config.Finalize examples.halfMaximum = examples.halfMaximum
  /\ config.TimeDurationVal (config.Backoff examples.halfMaximum)
     = 250 * Millisecond
  /\ config.RetryFunc config.truncLog2Ratio examples.halfMaximum 0
     = (true, 100 * Millisecond)
  /\ reference.decide true 12 (250 * Millisecond) (100 * Millisecond) 0
     = (true, 100 * Millisecond)
  /\ config.RetryFunc config.truncLog2Ratio examples.halfMaximum 0
     <> (true, 250 * Millisecond).
Proof. repeat split; vm_compute; congruence. Qed.

(** The defaults: the wait grows from index 2 to index 9 and stays below
    the minute. *)
Lemma RetryFunc_monotone_bounded_default :
  let decide := config.RetryFunc config.truncLog2Ratio
                  (config.Finalize config.DefaultRetryConfig) in
  snd (decide 2) <= snd (decide 9) /\ snd (decide 9) <= 1 * Minute.
Proof.
  intros decide. subst decide.
  pose proof (RetryFunc_monotone_bounded config.truncLog2Ratio
                config.DefaultRetryConfig) as H.
  cbv zeta in H.
  specialize (H ltac:(by_computation) ltac:(by_computation) ltac:(by_computation)
                ltac:(by_computation) ltac:(by_computation) ltac:(by_computation)).
  destruct H as [Hmono Hbound]. split.
  - exact (Hmono 2 9 ltac:(by_computation) ltac:(by_computation)
             ltac:(by_computation) ltac:(by_computation)).
  - exact (Hbound ltac:(by_computation) 9 ltac:(by_computation)).
Defined.

(** C4: with a base backoff of 250ms and a maximum of 200ms, index 0
    waits 250ms, above the maximum, and index 1 waits 200ms, less than
    index 0; a retry is allowed at both.  Without a maximum the product
    overflows at index 36, after 35 had the longest wait. *)
Theorem RetryFunc_clamp_missed :
  let decide := config.RetryFunc config.truncLog2Ratio examples.lowMaximum in
  config.Finalize examples.lowMaximum = examples.lowMaximum
  /\ config.TimeDurationVal (config.MaxBackoff examples.lowMaximum) = 200 * Millisecond
  /\ decide 0 = (true, 250 * Millisecond)
  /\ decide 1 = (true, 200 * Millisecond)
  /\ ~ snd (decide 0) <= snd (decide 1)
  /\ ~ snd (decide 0) <= 200 * Millisecond
  /\ config.RetryFunc config.truncLog2Ratio examples.noMaximum 35
     = (true, 8589934592000000000)
  /\ config.RetryFunc config.truncLog2Ratio examples.noMaximum 36
     = (true, -1266874889709551616).
Proof. repeat split; vm_compute; congruence. Qed.

(** Attempts -3: index 1000 is still retried, at the maximum. *)
Lemma RetryFunc_negative_attempts_example :
  config.RetryFunc config.truncLog2Ratio examples.negativeAttempts 1000
  = (true, 1 * Minute)
  /\ fst (config.RetryFunc config.truncLog2Ratio examples.negativeAttempts 1000)
     = true.
Proof.
  split; [vm_compute; reflexivity|].
  refine (proj2 (RetryFunc_negative_attempts config.truncLog2Ratio
                   examples.negativeAttempts (-3) 1000 _ _ _)); by_computation.
Defined.

(** ** Exit statuses *)

Ltac named := unfold cli.namedStatuses; repeat constructor.

Section ExitStatuses.

Import cli.

Lemma loop_status (sigs : Signals) (events : list Event) (code : Z) :
  loop sigs events = Some code ->
  code ∈ namedStatuses \/ code ∈ exitStatuses events.
Proof.
  induction events as [|e events IH]; cbn [loop]; [discriminate|].
  destruct e as [status| |s reload|].
  - destruct status as [hint|]; intros [= <-].
    + right. unfold exitStatuses. cbn. left.
    + left. named.
  - intros [= <-]. left. named.
  - destruct (s =? ReloadSignal sigs).
    + destruct reload; try (intros [= <-]; left; named).
      intros H. destruct (IH H) as [|Hin]; [left; assumption|right].
      unfold exitStatuses in *. cbn. exact Hin.
    + destruct (s =? KillSignal sigs); intros [= <-]; left;
        named.
  - intros [= <-]. left. named.
Qed.

End ExitStatuses.

(** C1 (amended): the constants are 0 for ok, 11 for a generic error, 12
    for interrupted, 13 for a flag-parse error, 14 for a runner error and
    15 for a config error, and what [Cli.Run] returns is the ok,
    interrupted, flag-parse, runner or config status, or the status an
    exitable runner error carries. *)
Theorem exit_statuses :
  cli.ExitCodeOK = 0 /\ cli.ExitCodeError = 11 /\ cli.ExitCodeInterrupt = 12
  /\ cli.ExitCodeParseFlagsError = 13 /\ cli.ExitCodeRunnerError = 14
  /\ cli.ExitCodeConfigError = 15
  /\ forall (flags : cli.Flags) (start : cli.Startup) (sigs : cli.Signals)
       (events : list cli.Event) (code : Z),
       cli.Run flags start sigs events = Some code ->
       code ∈ [0; 12; 13; 14; 15] \/ code ∈ cli.exitStatuses events.
Proof.
  repeat (split; [reflexivity|]).
  intros flags start sigs events code. unfold cli.Run.
  change [0; 12; 13; 14; 15] with cli.namedStatuses.
  destruct flags as [| |isVersion].
  - intros [= <-]. left. named.
  - intros [= <-]. left. named.
  - destruct start, isVersion;
      try (intros [= <-]; left; named).
    apply loop_status.
Qed.

(** A reload, then the kill signal: interrupted, 12. *)
Lemma exit_statuses_reload_kill :
  let sigs := {| cli.ReloadSignal := 1; cli.KillSignal := 2 |} in
  let events := [cli.Sig 1 cli.Started; cli.Sig 2 cli.Started] in
  cli.Run (cli.FlagsOk false) cli.Started sigs events = Some 12
  /\ (12 ∈ [0; 12; 13; 14; 15] \/ 12 ∈ cli.exitStatuses events).
Proof.
  intros sigs events. split; [reflexivity|].
  refine (proj2 (proj2 (proj2 (proj2 (proj2 (proj2 exit_statuses)))))
            (cli.FlagsOk false) cli.Started sigs events 12 _).
  reflexivity.
Defined.

(** C1 fails as stated: the block gives [iota] the value 1 on the line
    of [ExitCodeError], so the statuses after ok start at 11, not 10. *)
Lemma exit_statuses_not_from_10 :
  ~ (cli.ExitCodeOK = 0 /\ cli.ExitCodeError = 10 /\ cli.ExitCodeInterrupt = 11
     /\ cli.ExitCodeParseFlagsError = 12 /\ cli.ExitCodeRunnerError = 13
     /\ cli.ExitCodeConfigError = 14).
Proof. intros (_ & H & _). vm_compute in H. discriminate H. Qed.

(** ** Strings and digests *)

Lemma EncodeToString_empty (src : bytes) :
  EncodeToString src = EmptyString -> src = [].
Proof. destruct src; [reflexivity|discriminate]. Qed.

Lemma Sum256_length (msg : bytes) : length (sha256.Sum256 msg) = sha256.Size.
Proof. reflexivity. Qed.

(** The hex digest is never the empty string that stands for a file
    that could not be read. *)
Lemma getHash_not_empty (v : bytes) : processor.getHash v <> EmptyString.
Proof.
  unfold processor.getHash. intros H. apply EncodeToString_empty in H.
  pose proof (Sum256_length v) as Hlen. rewrite H in Hlen. discriminate Hlen.
Qed.

Example getHash_1 :
  processor.getHash (list_byte_of_string "1")
  = "6b86b273ff34fce19d6b804eff5a3f5747ada4eaa22f1d49c01e52ddb7875b4b"%string.
Proof. vm_compute. reflexivity. Qed.

Example getHash_abc :
  processor.getHash (list_byte_of_string "abc")
  = "ba7816bf8f01cfea414140de5dae2223b00361a396177a9cb410ff61f20015ad"%string.
Proof. vm_compute. reflexivity. Qed.

(** The last part of a split key is what follows its last slash. *)
Lemma Split_not_nil (s : string) : Split s <> [].
Proof.
  induction s as [|c s IH]; cbn [Split]; [discriminate|].
  destruct (Ascii.eqb c "/"); [discriminate|].
  destruct (Split s); [contradiction|discriminate].
Qed.

Lemma Split_app_slash (dir name : string) :
  Split (dir +:+ String "/" name) = Split dir ++ Split name.
Proof.
  induction dir as [|c dir IH].
  - reflexivity.
  - change (String c dir +:+ String "/" name)
      with (String c (dir +:+ String "/" name)).
    cbn [Split]. destruct (Ascii.eqb c "/").
    + rewrite IH. reflexivity.
    + rewrite IH. pose proof (Split_not_nil dir) as Hne.
      destruct (Split dir) as [|part parts]; [contradiction|reflexivity].
Qed.

Lemma lastPart_app (front back : list string) :
  back <> [] -> lastPart (front ++ back) = lastPart back.
Proof.
  intros Hne. unfold lastPart. induction front as [|part front IH]; [reflexivity|].
  cbn [app List.last]. destruct (front ++ back) eqn:E; [|exact IH].
  apply app_eq_nil in E. destruct E as [_ E]. contradiction.
Qed.

Lemma lastPart_Split_slash (dir name : string) :
  lastPart (Split (dir +:+ String "/" name)) = lastPart (Split name).
Proof. rewrite Split_app_slash. apply lastPart_app, Split_not_nil. Qed.

(** A key that ends with a slash, or is empty, has no file name. *)
Lemma lastPart_Split_directory (dir : string) :
  lastPart (Split (dir +:+ "/")) = EmptyString.
Proof. rewrite lastPart_Split_slash. reflexivity. Qed.

(** ** One pair of a pass *)

Section ProcessPair.

Import processor.

Variable Join : string -> string -> string.

Lemma wouldWrite_differ (w : World) (file : string) (payload : bytes) :
  wouldWrite w file payload = true <-> fingerprintsDiffer w file payload.
Proof.
  unfold wouldWrite, fingerprintsDiffer, calculateFileHash.
  destruct (ReadFile w file) as [f|]; cbn [fst].
  - rewrite negb_true_iff. apply String.eqb_neq.
  - rewrite negb_true_iff, String.eqb_neq. split; [trivial|].
    intros _ H. symmetry in H. exact (getHash_not_empty _ H).
Qed.

Lemma wouldWrite_same (w : World) (file : string) (payload : bytes) :
  wouldWrite w file payload = false <-> ~ fingerprintsDiffer w file payload.
Proof.
  rewrite <- wouldWrite_differ. destruct (wouldWrite w file payload); split;
    congruence.
Qed.

(** The loop body in terms of the target and the comparison. *)
Lemma processPair_target (p : Processor) (w : World) (kv : KVPair) :
  processPair Join p w kv
  = match target Join p kv with
    | None => (w, [], None)
    | Some file =>
        if wouldWrite w file (Value kv)
        then save p w file (string_of_list_byte (Value kv))
        else (w, [LogSkipping (Key kv)], None)
    end.
Proof.
  unfold processPair, target, wouldWrite.
  destruct (String.eqb (lastPart (Split (Key kv))) EmptyString); reflexivity.
Qed.

Lemma target_name (p : Processor) (kv : KVPair) :
  target Join p kv
  = if decide (lastPart (Split (Key kv)) = EmptyString) then None
    else Some (Join (To p) (lastPart (Split (Key kv)))).
Proof.
  unfold target. destruct (String.eqb_spec (lastPart (Split (Key kv))) EmptyString);
    case_decide; congruence.
Qed.

Lemma save_dry (p : Processor) (w : World) (file s : string) :
  dry p = true -> save p w file s = (w, [LogWillCreate file s], None).
Proof. intros H. unfold save. rewrite H. reflexivity. Qed.

Lemma save_ok (p : Processor) (w : World) (file : string) (payload : bytes) :
  dry p = false -> writeFault w file = WriteOk ->
  save p w file (string_of_list_byte payload)
  = (setFiles w (<[file := payload]> (files w)), [LogSaved file], None).
Proof.
  intros Hd Hw. unfold save, writeFile. rewrite Hd, Hw.
  rewrite list_byte_of_string_of_list_byte. reflexivity.
Qed.

Lemma save_fails (p : Processor) (w : World) (file s : string) :
  dry p = false -> writeFault w file <> WriteOk ->
  exists w' err, save p w file s = (w', [], Some err)
                 /\ (err = CreateError file \/ err = CopyError file).
Proof.
  intros Hd Hw. unfold save, writeFile. rewrite Hd.
  destruct (writeFault w file) as [| |n]; [contradiction|eauto..].
Qed.

End ProcessPair.

(** C5 (amended): in a pass, a pair whose key has an empty last segment
    is skipped; otherwise its target is the destination joined with that
    segment, and when the digests are equal the pair is skipped with no
    effect, and when they differ or the local file gives none, a
    processor that is not in dry-run mode and whose write succeeds
    leaves exactly the payload in the target; in dry-run mode the write
    is only logged, and a failed write ends the pair with an error. *)
Theorem processPair_sync (Join : string -> string -> string)
    (p : processor.Processor) (w : World) (kv : KVPair) :
  let name := lastPart (Split (Key kv)) in
  let file := Join (processor.To p) name in
  let differ := processor.fingerprintsDiffer w file (Value kv) in
  (name = EmptyString -> processor.processPair Join p w kv = (w, [], None))
  /\ (name <> EmptyString -> ~ differ ->
      processor.processPair Join p w kv = (w, [LogSkipping (Key kv)], None))
  /\ (name <> EmptyString -> differ ->
      processor.dry p = false -> writeFault w file = WriteOk ->
      processor.processPair Join p w kv
      = (setFiles w (<[file := Value kv]> (files w)), [LogSaved file], None))
  /\ (name <> EmptyString -> differ -> processor.dry p = true ->
      processor.processPair Join p w kv
      = (w, [LogWillCreate file (string_of_list_byte (Value kv))], None))
  /\ (name <> EmptyString -> differ ->
      processor.dry p = false -> writeFault w file <> WriteOk ->
      exists w' err, processor.processPair Join p w kv = (w', [], Some err)).
Proof.
  intros name file differ. rewrite processPair_target, target_name.
  fold name. repeat split.
  - intros ->. reflexivity.
  - intros Hn Hsame. case_decide; [contradiction|]. fold file.
    apply wouldWrite_same in Hsame. rewrite Hsame. reflexivity.
  - intros Hn Hd Hdry Hok. case_decide; [contradiction|]. fold file.
    apply wouldWrite_differ in Hd. rewrite Hd. apply save_ok; assumption.
  - intros Hn Hd Hdry. case_decide; [contradiction|]. fold file.
    apply wouldWrite_differ in Hd. rewrite Hd. apply save_dry; assumption.
  - intros Hn Hd Hdry Hfail. case_decide; [contradiction|]. fold file.
    apply wouldWrite_differ in Hd. rewrite Hd.
    destruct (save_fails p w file (string_of_list_byte (Value kv)) Hdry Hfail)
      as (w' & err & E & _).
    exists w', err. exact E.
Qed.

(** The first pair of the two-key store on an empty destination: [out/a]
    is created with the payload. *)
Lemma processPair_sync_creates :
  processor.processPair examples.joinPath examples.onceProcessor
    examples.emptyOut examples.pairA
  = (setFiles examples.emptyOut
       (<["out/a"%string := list_byte_of_string "1"]> (files examples.emptyOut)),
     [LogSaved "out/a"], None).
Proof.
  refine (proj1 (proj2 (proj2 (processPair_sync examples.joinPath
            examples.onceProcessor examples.emptyOut examples.pairA))) _ _ _ _).
  - vm_compute. discriminate.
  - exact I.
  - reflexivity.
  - reflexivity.
Defined.

(** C5 fails as stated: in a dry-run pass the first pair of the store has
    a file name and no local fingerprint, and no file is written. *)
Lemma Process_dry_run_writes_nothing :
  let result := processor.Process examples.joinPath examples.dryProcessor
                  examples.emptyOut in
  remote examples.emptyOut
  = inr [examples.pairA;
         {| Key := "prefix/b"; Value := list_byte_of_string "2" |}]
  /\ processor.target examples.joinPath examples.dryProcessor examples.pairA
     = Some "out/a"%string
  /\ processor.fingerprintsDiffer examples.emptyOut "out/a" (Value examples.pairA)
  /\ files (fst (fst result)) !! "out/a"%string = None
  /\ snd (fst result)
     = [LogConsulPath; LogWillCreate "out/a" "1"; LogWillCreate "out/b" "2";
        SendDone].
Proof. repeat split; vm_compute; reflexivity. Qed.

(** ** A pass *)

Section Pass.

Import processor.

Variable Join : string -> string -> string.

Lemma save_silent (p : Processor) (w : World) (file s : string) :
  silent (snd (fst (save p w file s))).
Proof.
  unfold save, writeFile, silent. destruct (dry p); cbn; [repeat constructor|].
  destruct (writeFault w file); cbn; repeat constructor.
Qed.

Lemma processPair_silent (p : Processor) (w : World) (kv : KVPair) :
  silent (snd (fst (processPair Join p w kv))).
Proof.
  rewrite processPair_target. destruct (target Join p kv) as [file|];
    [|constructor].
  destruct (wouldWrite w file (Value kv)); [apply save_silent|].
  repeat constructor.
Qed.

Lemma processPairs_silent (p : Processor) (keys : list KVPair) (w : World) :
  silent (snd (fst (processPairs Join p w keys))).
Proof.
  revert w. induction keys as [|kv keys IH]; intros w; cbn [processPairs];
    [constructor|].
  pose proof (processPair_silent p w kv) as Hkv.
  destruct (processPair Join p w kv) as [[w' evs] [err|]]; [exact Hkv|].
  specialize (IH w').
  destruct (processPairs Join p w' keys) as [[w'' evs'] r].
  cbn [fst snd] in *. apply Forall_app. split; assumption.
Qed.

Lemma silent_no_SendErr (evs : list Event) (e : error) :
  silent evs -> SendErr e ∉ evs.
Proof.
  intros Hs Hin. unfold silent in Hs. rewrite Forall_forall in Hs.
  destruct (Hs _ Hin) as [H _]. discriminate H.
Qed.

Lemma silent_no_SendDone (evs : list Event) : silent evs -> SendDone ∉ evs.
Proof.
  intros Hs Hin. unfold silent in Hs. rewrite Forall_forall in Hs.
  destruct (Hs _ Hin) as [_ H]. discriminate H.
Qed.

(** The system call faults of the world do not change during a pass. *)
Lemma processPair_faults (p : Processor) (w : World) (kv : KVPair) :
  let w' := fst (fst (processPair Join p w kv)) in
  writeFault w' = writeFault w /\ unreadable w' = unreadable w
  /\ dirs w' = dirs w /\ remote w' = remote w.
Proof.
  rewrite processPair_target. destruct (target Join p kv) as [file|];
    [|repeat split].
  destruct (wouldWrite w file (Value kv)); [|repeat split].
  unfold save, writeFile. destruct (dry p); [repeat split|].
  destruct (writeFault w file); repeat split.
Qed.

(** The loop over a listing cut in two. *)
Lemma processPairs_app (p : Processor) (front back : list KVPair) (w : World) :
  processPairs Join p w (front ++ back)
  = match processPairs Join p w front with
    | (w1, evs1, Some err) => (w1, evs1, Some err)
    | (w1, evs1, None) =>
        let '(w2, evs2, r) := processPairs Join p w1 back in
        (w2, evs1 ++ evs2, r)
    end.
Proof.
  revert w. induction front as [|kv front IH]; intros w; cbn [app processPairs].
  - destruct (processPairs Join p w back) as [[w2 evs2] r]. reflexivity.
  - destruct (processPair Join p w kv) as [[w' evs] [err|]]; [reflexivity|].
    rewrite IH.
    destruct (processPairs Join p w' front) as [[w1 evs1] [err|]]; [reflexivity|].
    destruct (processPairs Join p w1 back) as [[w2 evs2] r].
    rewrite app_assoc. reflexivity.
Qed.

(** The loop ends with an error exactly when a write fails, and then
    nothing after the failed write is looked at. *)
Lemma processPairs_error (p : Processor) (keys : list KVPair) (w : World) :
  (exists w' evs err, processPairs Join p w keys = (w', evs, Some err))
  <-> writeFails Join p w keys.
Proof.
  split.
  - revert w. induction keys as [|kv keys IH]; intros w (w' & evs & err & E);
      cbn [processPairs] in E; [discriminate|].
    destruct (processPair Join p w kv) as [[w1 evs1] [err1|]] eqn:Ekv.
    + exists [], kv, keys, w, [].
      rewrite processPair_target in Ekv.
      destruct (target Join p kv) as [file|] eqn:Et; [|discriminate].
      exists file.
      destruct (wouldWrite w file (Value kv)) eqn:Ew; [|discriminate].
      apply wouldWrite_differ in Ew.
      unfold save, writeFile in Ekv.
      destruct (dry p) eqn:Ed; [discriminate|].
      repeat split; try assumption; try reflexivity.
      intros Hok. rewrite Hok in Ekv. discriminate.
    + destruct (processPairs Join p w1 keys) as [[w2 evs2] r] eqn:Erest.
      injection E as <- <- ->.
      destruct (IH w1 ltac:(eauto)) as (pre & kv' & post & w3 & evs3 & file & H).
      destruct H as (-> & Hpre & Ht & Hd & Hdry & Hf).
      exists (kv :: pre), kv', post, w3, (evs1 ++ evs3), file.
      repeat split; try assumption.
      cbn [processPairs]. rewrite Ekv, Hpre. reflexivity.
  - intros (pre & kv & post & w1 & evs1 & file & -> & Hpre & Ht & Hd & Hdry & Hf).
    rewrite processPairs_app, Hpre. cbn [processPairs].
    rewrite processPair_target, Ht.
    apply wouldWrite_differ in Hd. rewrite Hd.
    destruct (save_fails p w1 file (string_of_list_byte (Value kv)) Hdry Hf)
      as (w2 & err & -> & _).
    eauto.
Qed.

End Pass.

Section PassOutcome.

Import processor.

Variable Join : string -> string -> string.

(** The events of a pass that went through the listing. *)
Lemma Process_listed (p : Processor) (w : World) (keys : list KVPair) :
  remote w = inr keys ->
  Process Join p w
  = let header := if Z.of_nat (length keys) <=? 0
                  then LogWarnEmpty else LogConsulPath in
    match processPairs Join p w keys with
    | (w', evs, Some err) =>
        (w', header :: evs ++ [SendErr err; LogErr err], ExitCodeError)
    | (w', evs, None) =>
        (w', header :: evs ++ (if once p || dry p then [SendDone] else []),
         ExitCodeOK)
    end.
Proof.
  intros H. unfold Process. rewrite H.
  destruct (processPairs Join p w keys) as [[w' evs] [err|]]; reflexivity.
Qed.

Lemma header_silent (keys : list KVPair) (e : Event) :
  e = (if Z.of_nat (length keys) <=? 0 then LogWarnEmpty else LogConsulPath) ->
  isSendErr e = false /\ isSendDone e = false.
Proof. intros ->. destruct (_ <=? _); split; reflexivity. Qed.

(** An error is sent exactly when the loop ends with one. *)
Lemma Process_SendErr (p : Processor) (w : World) (keys : list KVPair) :
  remote w = inr keys ->
  (exists e, SendErr e ∈ snd (fst (Process Join p w)))
  <-> exists w' evs err, processPairs Join p w keys = (w', evs, Some err).
Proof.
  intros Hr. rewrite (Process_listed p w keys Hr). cbv zeta.
  pose proof (processPairs_silent Join p keys w) as Hs.
  destruct (processPairs Join p w keys) as [[w' evs] [err|]]; cbn [fst snd] in *.
  - split; [eauto|]. intros _. exists err.
    apply elem_of_cons. right. apply elem_of_app. right. left.
  - split; [|intros (? & ? & ? & [=])]. intros (e & Hin). exfalso.
    apply elem_of_cons in Hin. destruct Hin as [Hh|Hin].
    + destruct (_ <=? _); discriminate Hh.
    + apply elem_of_app in Hin. destruct Hin as [Hin|Hin].
      * exact (silent_no_SendErr _ _ Hs Hin).
      * destruct (once p || dry p); [|inversion Hin].
        apply elem_of_cons in Hin. destruct Hin as [|Hin]; [discriminate|].
        inversion Hin.
Qed.

End PassOutcome.

(** C6: a pass whose listing fails sends that error, logs it and ends;
    a pass that got its listing sends an error exactly when a write
    fails, and then ends with the failed write, the pairs after it left
    alone; an empty listing is a warning and a successful pass without
    a write; a local file that cannot be read sends the pair to the
    write as a differing one, not to an error. *)
Theorem Process_errors (Join : string -> string -> string)
    (p : processor.Processor) (w : World) :
  let result := processor.Process Join p w in
  (forall err, remote w = inl err ->
     result = (w, [SendErr err; LogErr err], processor.ExitCodeError))
  /\ (forall keys, remote w = inr keys ->
        ((exists e, SendErr e ∈ snd (fst result))
         <-> processor.writeFails Join p w keys)
        /\ (processor.writeFails Join p w keys ->
            snd result = processor.ExitCodeError)
        /\ (~ processor.writeFails Join p w keys ->
            snd result = processor.ExitCodeOK))
  /\ (forall pre kv post w1 evs1 file,
        remote w = inr (pre ++ kv :: post) ->
        processor.processPairs Join p w pre = (w1, evs1, None) ->
        processor.target Join p kv = Some file ->
        processor.fingerprintsDiffer w1 file (Value kv) ->
        processor.dry p = false -> writeFault w1 file <> WriteOk ->
        exists w2 err,
          processor.processPair Join p w1 kv = (w2, [], Some err)
          /\ result = (w2, LogConsulPath :: evs1 ++ [SendErr err; LogErr err],
                       processor.ExitCodeError))
  /\ (remote w = inr [] ->
      result = (w, LogWarnEmpty
                   :: (if processor.once p || processor.dry p
                       then [SendDone] else []),
                processor.ExitCodeOK))
  /\ (forall kv file,
        processor.target Join p kv = Some file -> ReadFile w file = None ->
        processor.processPair Join p w kv
        = processor.save p w file (string_of_list_byte (Value kv))).
Proof.
  intros result. split; [|split; [|split; [|split]]].
  - intros err Hr. unfold result, processor.Process. rewrite Hr. reflexivity.
  - intros keys Hr. split; [|split].
    + unfold result. rewrite (Process_SendErr Join p w keys Hr).
      apply processPairs_error.
    + intros Hf. apply processPairs_error in Hf. destruct Hf as (w' & evs & err & E).
      unfold result. rewrite (Process_listed Join p w keys Hr), E. reflexivity.
    + intros Hf. unfold result. rewrite (Process_listed Join p w keys Hr). cbv zeta.
      destruct (processor.processPairs Join p w keys) as [[w' evs] [err|]] eqn:E;
        [|reflexivity].
      exfalso. apply Hf, processPairs_error. eauto.
  - intros pre kv post w1 evs1 file Hr Hpre Ht Hd Hdry Hf.
    destruct (save_fails p w1 file (string_of_list_byte (Value kv)) Hdry Hf)
      as (w2 & err & Es & _).
    assert (Ekv : processor.processPair Join p w1 kv = (w2, [], Some err)).
    { rewrite processPair_target, Ht.
      apply wouldWrite_differ in Hd. rewrite Hd. exact Es. }
    exists w2, err. split; [exact Ekv|].
    unfold result. rewrite (Process_listed Join p w _ Hr). cbv zeta.
    rewrite processPairs_app, Hpre. cbn [processor.processPairs]. rewrite Ekv.
    rewrite length_app. cbn [length].
    destruct (Z.leb_spec (Z.of_nat (length pre + S (length post))) 0); [lia|].
    rewrite app_nil_r. reflexivity.
  - intros Hr. unfold result. rewrite (Process_listed Join p w [] Hr). reflexivity.
  - intros kv file Ht Hread. rewrite processPair_target, Ht.
    assert (Hw : processor.wouldWrite w file (Value kv) = true).
    { apply wouldWrite_differ. unfold processor.fingerprintsDiffer.
      rewrite Hread. exact I. }
    rewrite Hw. reflexivity.
Qed.

(** C7: the pass sends on the done channel exactly when the processor is
    in run-once or dry-run mode and the pass sent no error; it does so
    once, as the last thing of the pass. *)
Theorem Process_done (Join : string -> string -> string)
    (p : processor.Processor) (w : World) :
  let evs := snd (fst (processor.Process Join p w)) in
  (SendDone ∈ evs
   <-> processor.once p || processor.dry p = true
       /\ ~ (exists e, SendErr e ∈ evs))
  /\ (SendDone ∈ evs -> exists evs', evs = evs' ++ [SendDone] /\ SendDone ∉ evs').
Proof.
  intros evs. unfold evs. clear evs.
  destruct (remote w) as [err|keys] eqn:Hr.
  - unfold processor.Process. rewrite Hr. cbn [fst snd processor.logError].
    split.
    + split.
      * intros Hin. apply elem_of_cons in Hin.
        destruct Hin as [|Hin]; [discriminate|].
        apply elem_of_cons in Hin. destruct Hin as [|Hin]; [discriminate|].
        inversion Hin.
      * intros [_ Hno]. exfalso. apply Hno. exists err. left.
    + intros Hin. apply elem_of_cons in Hin.
      destruct Hin as [|Hin]; [discriminate|].
      apply elem_of_cons in Hin. destruct Hin as [|Hin]; [discriminate|].
      inversion Hin.
  - pose proof (Process_SendErr Join p w keys Hr) as Herr.
    rewrite (Process_listed Join p w keys Hr) in Herr |- *. cbv zeta in Herr |- *.
    pose proof (processPairs_silent Join p keys w) as Hs.
    destruct (processor.processPairs Join p w keys) as [[w' pevs] [err|]];
      cbn [fst snd] in *.
    + assert (Hnone : SendDone ∉
                (if Z.of_nat (length keys) <=? 0 then LogWarnEmpty
                 else LogConsulPath) :: pevs ++ [SendErr err; LogErr err]).
      { intros Hin. apply elem_of_cons in Hin. destruct Hin as [Hh|Hin].
        - destruct (_ <=? _); discriminate Hh.
        - apply elem_of_app in Hin. destruct Hin as [Hin|Hin].
          + exact (silent_no_SendDone _ Hs Hin).
          + apply elem_of_cons in Hin. destruct Hin as [|Hin]; [discriminate|].
            apply elem_of_cons in Hin. destruct Hin as [|Hin]; [discriminate|].
            inversion Hin. }
      split; [|intros Hin; contradiction].
      split; [intros Hin; contradiction|].
      intros [_ Hno]. exfalso. apply Hno, Herr. eauto.
    + assert (Hnoerr : ~ exists w'0 evs err,
                (w', pevs, @None error) = (w'0, evs, Some err)).
      { intros (? & ? & ? & [=]). }
      destruct (processor.once p || processor.dry p).
      * split.
        -- split; [intros _|intros _].
           ++ split; [reflexivity|]. intros He. apply Hnoerr, Herr, He.
           ++ apply elem_of_cons. right. apply elem_of_app. right. left.
        -- intros _.
           exists ((if Z.of_nat (length keys) <=? 0 then LogWarnEmpty
                    else LogConsulPath) :: pevs).
           split; [reflexivity|].
           intros Hin. apply elem_of_cons in Hin. destruct Hin as [Hh|Hin].
           ++ destruct (_ <=? _); discriminate Hh.
           ++ exact (silent_no_SendDone _ Hs Hin).
      * assert (Hnone : SendDone ∉
                  (if Z.of_nat (length keys) <=? 0 then LogWarnEmpty
                   else LogConsulPath) :: pevs ++ []).
        { rewrite app_nil_r. intros Hin. apply elem_of_cons in Hin.
          destruct Hin as [Hh|Hin].
          - destruct (_ <=? _); discriminate Hh.
          - exact (silent_no_SendDone _ Hs Hin). }
        split; [|intros Hin; contradiction].
        split; [intros Hin; contradiction|].
        intros [Hf _]. discriminate Hf.
Qed.

(** A listing that fails, and a first write that fails: one error is
    sent and the pass is over; [out/b] is not looked at. *)
Lemma Process_errors_examples :
  processor.Process examples.joinPath examples.onceProcessor examples.listFails
  = (examples.listFails, [SendErr ListError; LogErr ListError], 11)
  /\ exists w2 err,
       processor.processPair examples.joinPath examples.onceProcessor
         examples.createFails examples.pairA = (w2, [], Some err)
       /\ processor.Process examples.joinPath examples.onceProcessor
            examples.createFails
          = (w2, [LogConsulPath; SendErr err; LogErr err],
             processor.ExitCodeError).
Proof.
  split.
  - refine (proj1 (Process_errors examples.joinPath examples.onceProcessor
                     examples.listFails) ListError _).
    reflexivity.
  - refine (proj1 (proj2 (proj2 (Process_errors examples.joinPath
              examples.onceProcessor examples.createFails)))
              [] examples.pairA
              [{| Key := "prefix/b"; Value := list_byte_of_string "2" |}]
              examples.createFails [] "out/a"%string _ _ _ _ _ _).
    + reflexivity.
    + reflexivity.
    + vm_compute. reflexivity.
    + exact I.
    + reflexivity.
    + vm_compute. discriminate.
Defined.

(** The two-key store in run-once mode: both files are saved and done is
    the last thing sent. *)
Lemma Process_done_once :
  let evs := snd (fst (processor.Process examples.joinPath examples.onceProcessor
                         examples.emptyOut)) in
  evs = [LogConsulPath; LogSaved "out/a"; LogSaved "out/b"; SendDone]
  /\ exists evs', evs = evs' ++ [SendDone] /\ SendDone ∉ evs'.
Proof.
  intros evs. split; [vm_compute; reflexivity|].
  refine (proj2 (Process_done examples.joinPath examples.onceProcessor
                   examples.emptyOut) _).
  change (SendDone ∈ [LogConsulPath; LogSaved "out/a"; LogSaved "out/b"; SendDone]).
  repeat constructor.
Defined.

(** ** Dry run *)

Section DryRun.

Import processor.

Variable Join : string -> string -> string.

Lemma target_setDry (p : Processor) (d : bool) (kv : KVPair) :
  target Join (setDry p d) kv = target Join p kv.
Proof. reflexivity. Qed.

Lemma targets_cons (p : Processor) (kv : KVPair) (keys : list KVPair) :
  targets Join p (kv :: keys)
  = match target Join p kv with
    | Some file => file :: targets Join p keys
    | None => targets Join p keys
    end.
Proof. reflexivity. Qed.

Lemma determinations_cons (e : Event) (evs : list Event) :
  determinations (e :: evs)
  = match determination e with
    | Some b => b :: determinations evs
    | None => determinations evs
    end.
Proof. reflexivity. Qed.

Lemma determinations_app (evs evs' : list Event) :
  determinations (evs ++ evs') = determinations evs ++ determinations evs'.
Proof. apply omap_app. Qed.

(** A dry-run loop hands back the world it was given, without error. *)
Lemma processPairs_dry (p : Processor) (keys : list KVPair) (w : World) :
  dry p = true ->
  fst (processPairs Join p w keys) = (w, snd (fst (processPairs Join p w keys)))
  /\ snd (processPairs Join p w keys) = None.
Proof.
  intros Hd. induction keys as [|kv keys IH]; cbn [processPairs];
    [split; reflexivity|].
  assert (Ekv : exists evs, processPair Join p w kv = (w, evs, None)).
  { rewrite processPair_target. destruct (target Join p kv) as [file|]; [|eauto].
    destruct (wouldWrite w file (Value kv)); [|eauto].
    rewrite save_dry by assumption. eauto. }
  destruct Ekv as (evs & ->).
  destruct (processPairs Join p w keys) as [[w' evs'] r].
  cbn [fst snd] in *. destruct IH as [[= ->] ->]. split; reflexivity.
Qed.

Lemma wouldWrite_agree (wd ww : World) (file : string) (payload : bytes) :
  unreadable wd = unreadable ww -> files wd !! file = files ww !! file ->
  wouldWrite wd file payload = wouldWrite ww file payload.
Proof.
  intros Hu Hf. unfold wouldWrite, calculateFileHash, ReadFile.
  rewrite Hu, Hf. reflexivity.
Qed.

(** With distinct targets and no write fault, the loop of a dry run on
    [wd] and the writing loop on [ww] compare alike as long as the two
    worlds agree on the targets still to come. *)
Lemma processPairs_dry_wet (p : Processor) (keys : list KVPair) :
  forall wd ww : World,
    unreadable wd = unreadable ww ->
    (forall path, writeFault ww path = WriteOk) ->
    (forall file, file ∈ targets Join p keys -> files wd !! file = files ww !! file) ->
    NoDup (targets Join p keys) ->
    snd (processPairs Join (setDry p false) ww keys) = None
    /\ determinations (snd (fst (processPairs Join (setDry p true) wd keys)))
       = determinations (snd (fst (processPairs Join (setDry p false) ww keys))).
Proof.
  induction keys as [|kv keys IH]; intros wd ww Hu Hok Hag Hnd;
    cbn [processPairs]; [split; reflexivity|].
  rewrite !processPair_target, !target_setDry.
  rewrite targets_cons in Hag, Hnd.
  destruct (target Join p kv) as [file|] eqn:Et.
  - apply NoDup_cons in Hnd. destruct Hnd as [Hfresh Hnd].
    rewrite (wouldWrite_agree wd ww file (Value kv) Hu)
      by (apply Hag; left).
    destruct (wouldWrite ww file (Value kv)).
    + rewrite (save_dry (setDry p true)) by reflexivity.
      rewrite (save_ok (setDry p false)) by (reflexivity || apply Hok).
      specialize (IH wd (setFiles ww (<[file:=Value kv]> (files ww))) Hu Hok).
      destruct IH as [IHe IHd]; [|exact Hnd|].
      { intros file' Hin. cbn [files setFiles].
        rewrite lookup_insert_ne by (intros ->; contradiction).
        apply Hag. right. exact Hin. }
      destruct (processPairs Join (setDry p true) wd keys) as [[wd' evd] rd].
      destruct (processPairs Join (setDry p false) _ keys) as [[ww' evw] rw].
      cbn [fst snd] in *. split; [exact IHe|].
      cbn [app]. rewrite !determinations_cons. cbn [determination].
      f_equal. exact IHd.
    + specialize (IH wd ww Hu Hok).
      destruct IH as [IHe IHd]; [|exact Hnd|].
      { intros file' Hin. apply Hag. right. exact Hin. }
      destruct (processPairs Join (setDry p true) wd keys) as [[wd' evd] rd].
      destruct (processPairs Join (setDry p false) ww keys) as [[ww' evw] rw].
      cbn [fst snd] in *. split; [exact IHe|].
      cbn [app]. rewrite !determinations_cons. cbn [determination].
      f_equal. exact IHd.
  - specialize (IH wd ww Hu Hok Hag Hnd). destruct IH as [IHe IHd].
    destruct (processPairs Join (setDry p true) wd keys) as [[wd' evd] rd].
    destruct (processPairs Join (setDry p false) ww keys) as [[ww' evw] rw].
    cbn [fst snd] in *. split; [exact IHe|]. exact IHd.
Qed.

Lemma setDry_same (p : Processor) : setDry p (dry p) = p.
Proof. destruct p; reflexivity. Qed.

End DryRun.

(** C8 (amended): a processor in dry-run mode leaves the world as it is,
    when it is set up and in every pass: no file or directory is created
    or changed; and the pass compares each pair as the pass of the same
    processor out of dry-run mode does, from the same world, when the
    targets of the listing are distinct and no write fails. *)
Theorem dry_run_frame (Join : string -> string -> string)
    (p : processor.Processor) (w : World) :
  processor.dry p = true ->
  fst (processor.init p w) = w
  /\ fst (fst (processor.Process Join p w)) = w
  /\ (forall keys, remote w = inr keys ->
        NoDup (processor.targets Join p keys) ->
        (forall path, writeFault w path = WriteOk) ->
        processor.determinations (snd (fst (processor.Process Join p w)))
        = processor.determinations
            (snd (fst (processor.Process Join (processor.setDry p false) w)))).
Proof.
  intros Hd. split; [|split].
  - unfold processor.init. rewrite Hd. reflexivity.
  - unfold processor.Process. destruct (remote w) as [err|keys]; [reflexivity|].
    destruct (processPairs_dry Join p keys w Hd) as [Hw He].
    destruct (processor.processPairs Join p w keys) as [[w' evs] r].
    cbn [fst snd] in *. subst r. injection Hw as ->. reflexivity.
  - intros keys Hr Hnd Hok.
    rewrite (Process_listed Join p w keys Hr).
    rewrite (Process_listed Join (processor.setDry p false) w keys Hr). cbv zeta.
    destruct (processPairs_dry_wet Join p keys w w eq_refl Hok
                ltac:(reflexivity) Hnd) as [He Hdet].
    replace (processor.setDry p true) with p in Hdet
      by (rewrite <- Hd; symmetry; apply setDry_same).
    destruct (processPairs_dry Join p keys w Hd) as [_ Hnone].
    destruct (processor.processPairs Join p w keys) as [[wd evd] rd].
    destruct (processor.processPairs Join (processor.setDry p false) w keys)
      as [[ww evw] rw].
    cbn [fst snd] in *. subst rd rw.
    cbn [fst snd].
    rewrite !determinations_cons, !determinations_app, Hdet.
    destruct (_ <=? _); cbn [processor.determination]; f_equal;
      destruct (processor.once p || processor.dry p);
      destruct (processor.once (processor.setDry p false)
                || processor.dry (processor.setDry p false));
      reflexivity.
Qed.

(** The two-key store in dry-run mode: the world stays as it is and both
    pairs are found to be written, as out of dry-run mode. *)
Lemma dry_run_frame_two_keys :
  fst (fst (processor.Process examples.joinPath examples.dryProcessor
              examples.emptyOut)) = examples.emptyOut
  /\ processor.determinations
       (snd (fst (processor.Process examples.joinPath examples.dryProcessor
                    examples.emptyOut)))
     = processor.determinations
         (snd (fst (processor.Process examples.joinPath
                      (processor.setDry examples.dryProcessor false)
                      examples.emptyOut))).
Proof.
  pose proof (dry_run_frame examples.joinPath examples.dryProcessor
                examples.emptyOut eq_refl) as (_ & Hworld & Hdet).
  split; [exact Hworld|].
  apply (Hdet _ eq_refl).
  - apply (bool_decide_unpack _). vm_compute. exact I.
  - reflexivity.
Defined.

(** C8 fails as stated: two keys [prefix/a/x] and [prefix/b/x] go to the
    same [out/x], which holds the payload of the second.  The dry run
    finds the first to be written and the second to be kept; the pass
    that writes finds both to be written, the second because the first
    was written over the file. *)
Lemma dry_run_determinations_differ :
  processor.dry examples.dryProcessor = true
  /\ processor.setDry examples.dryProcessor false = examples.onceProcessor
  /\ processor.determinations
       (snd (fst (processor.Process examples.joinPath examples.dryProcessor
                    examples.sameName)))
     = [true; false]
  /\ processor.determinations
       (snd (fst (processor.Process examples.joinPath examples.onceProcessor
                    examples.sameName)))
     = [true; true].
Proof. repeat split; vm_compute; reflexivity. Qed.

(** ** Stopping the runner *)

Section Stop.

Import manager.

Lemma Stop_stopped (r : Runner) (w : World) :
  stopped r = true -> Stop r w = (r, w, []).
Proof. intros H. unfold Stop. rewrite H. reflexivity. Qed.

Lemma StopTimes_stopped (n : nat) (r : Runner) (w : World) :
  stopped r = true -> StopTimes n r w = (r, w, []).
Proof.
  intros H. induction n as [|n IH]; cbn [StopTimes]; [reflexivity|].
  rewrite (Stop_stopped r w H), IH. reflexivity.
Qed.

Lemma Stop_sets_stopped (r : Runner) (w : World) :
  stopped (fst (fst (Stop r w))) = true.
Proof.
  unfold Stop. destruct (stopped r) eqn:E; [exact E|].
  destruct (deletePid r w) as [[w' evs] err]. reflexivity.
Qed.

(** What one call shows: at most one close, at most one removal, and
    nothing on the error channel. *)
Lemma deletePid_events (r : Runner) (w : World) :
  let evs := snd (fst (deletePid r w)) in
  countIf isCloseDone evs = O /\ (countIf isOsRemove evs <= 1)%nat
  /\ countIf processor.isSendErr evs = O.
Proof.
  unfold deletePid. destruct (String.eqb _ _); [cbn; lia|].
  destruct (_ || _); [cbn; lia|].
  destruct (bool_decide _); [cbn; lia|].
  destruct (removeFails w _); cbn; lia.
Qed.

Lemma countIf_app (kind : Event -> bool) (evs evs' : list Event) :
  countIf kind (evs ++ evs') = (countIf kind evs + countIf kind evs')%nat.
Proof. induction evs as [|e evs IH]; cbn [app countIf]; lia. Qed.

Lemma Stop_events (r : Runner) (w : World) :
  let evs := snd (Stop r w) in
  (countIf isCloseDone evs <= 1)%nat /\ (countIf isOsRemove evs <= 1)%nat
  /\ countIf processor.isSendErr evs = O.
Proof.
  unfold Stop. destruct (stopped r); [cbn; lia|].
  pose proof (deletePid_events r w) as H. cbv zeta in H.
  destruct (deletePid r w) as [[w' evs] err]. cbn [fst snd] in *.
  cbn [countIf isCloseDone isOsRemove processor.isSendErr].
  rewrite !countIf_app.
  destruct err as [e|]; cbn; lia.
Qed.

(** Any number of calls is the first call. *)
Lemma StopTimes_first (n : nat) (r : Runner) (w : World) :
  StopTimes (S n) r w = Stop r w.
Proof.
  cbn [StopTimes]. pose proof (Stop_sets_stopped r w) as H.
  destruct (Stop r w) as [[r1 w1] evs1]. cbn [fst] in H.
  rewrite (StopTimes_stopped n r1 w1 H), app_nil_r. reflexivity.
Qed.

End Stop.

(** C9: after a call of [Stop] the runner is stopped and every further
    call changes nothing and shows nothing; over any number of calls the
    done channel is closed at most once, the PID file removed at most
    once and nothing is sent on the error channel; and when the removal
    of the PID file fails, the call still stops the runner and closes
    the done channel, with a warning in the log. *)
Theorem Stop_idempotent (r : manager.Runner) (w : World) :
  let first := manager.Stop r w in
  let r1 := fst (fst first) in
  let w1 := snd (fst first) in
  manager.stopped r1 = true
  /\ manager.Stop r1 w1 = (r1, w1, [])
  /\ (forall n : nat, manager.StopTimes (S n) r w = first)
  /\ (forall n : nat,
        let evs := snd (manager.StopTimes n r w) in
        (manager.countIf manager.isCloseDone evs <= 1)%nat
        /\ (manager.countIf manager.isOsRemove evs <= 1)%nat
        /\ manager.countIf processor.isSendErr evs = O)
  /\ (forall (w' : World) (devs : list Event) (e : error),
        manager.stopped r = false ->
        manager.deletePid r w = (w', devs, Some e) ->
        first = (manager.closeDoneCh (manager.setStopped r), w',
                 LogRunnerStopping :: devs ++ [LogWarnPid e] ++ [CloseDone])).
Proof.
  intros first r1 w1.
  pose proof (Stop_sets_stopped r w) as Hst. fold first r1 in Hst.
  split; [exact Hst|]. split; [apply Stop_stopped; exact Hst|].
  split; [intros n; apply StopTimes_first|]. split.
  - intros [|n].
    + cbn. lia.
    + rewrite StopTimes_first. apply Stop_events.
  - intros w' devs e Hs Hdel. unfold first, manager.Stop.
    rewrite Hs, Hdel. reflexivity.
Qed.

(** A PID file that cannot be removed: three calls of [Stop] show one
    warning and one close, and leave the file where it is. *)
Lemma Stop_idempotent_stuck_pid :
  manager.StopTimes 3 examples.pidRunner examples.pidStuck
  = (manager.closeDoneCh (manager.setStopped examples.pidRunner),
     examples.pidStuck,
     [LogRunnerStopping; LogRemovingPid "run.pid"; OsRemove "run.pid";
      LogWarnPid PidRemoveError; CloseDone]).
Proof.
  pose proof (Stop_idempotent examples.pidRunner examples.pidStuck)
    as (_ & _ & Htimes & _ & Hfail).
  rewrite (Htimes 2%nat).
  exact (Hfail examples.pidStuck
           [LogRemovingPid "run.pid"; OsRemove "run.pid"] PidRemoveError
           eq_refl eq_refl).
Defined.

(** ** Starting the runner *)

Section Start.

Import manager.

Variable Join : string -> string -> string.

(** The runner's own [Run] does nothing but log. *)
Lemma Run_nil (r : Runner) : Run r = ([LogInitiatingRun], None).
Proof. reflexivity. Qed.

(** A PID file that cannot be written ends [Start] before the loop. *)
Lemma Start_pid_error (r : Runner) (w w1 : World) (evs1 : list Event)
    (err : error) (events : list Select) :
  storePid r w = (w1, evs1, Some err) ->
  Start Join r w events = (w1, LogRunnerStarting :: evs1 ++ [SendErr err], Returned).
Proof. intros H. unfold Start. rewrite H. reflexivity. Qed.

(** Up to the first [select], [Start] has stored the PID, logged the
    initial run and set the processor up; there is no pass in it. *)
Lemma Start_until_select (r : Runner) (w w1 : World) (evs1 : list Event) :
  storePid r w = (w1, evs1, None) ->
  let pr := {| processor.From := configFrom r; processor.To := configTo r;
               processor.once := once r; processor.dry := dry r |} in
  Start Join r w []
  = (fst (processor.init pr w1),
     LogRunnerStarting :: evs1 ++ LogRunningInitial :: LogInitiatingRun
       :: snd (processor.init pr w1),
     Selecting).
Proof.
  intros H pr. unfold Start. rewrite H, Run_nil. unfold NewProcessor.
  fold pr. destruct (processor.init pr w1) as [w2 evs3].
  cbn [startLoop fst snd app]. rewrite app_nil_r. reflexivity.
Qed.

(** From then on, one pass for each tick. *)
Lemma startLoop_tick (pr : processor.Processor) (w : World) (rest : list Select) :
  startLoop Join pr w (TickerC :: rest)
  = let '(w', evs, _) := processor.Process Join pr w in
    let '(w'', evs', st) := startLoop Join pr w' rest in
    (w'', evs ++ evs', st).
Proof. reflexivity. Qed.

End Start.

(** C2: started on the two-key store with an empty destination and no
    PID file, the runner reaches its [select] with the world as it was
    and a log without a pass: [Run] only logs.  The files appear with
    the first tick.  The start of the specification has them before the
    first [select]. *)
Theorem Start_initial_run_is_empty :
  manager.Start examples.joinPath examples.onceRunner examples.emptyOut []
  = (examples.emptyOut,
     [LogRunnerStarting; LogRunningInitial; LogInitiatingRun],
     manager.Selecting)
  /\ files (fst (fst (manager.Start examples.joinPath examples.onceRunner
                        examples.emptyOut [manager.TickerC])))
     = {[ "out/a"%string := list_byte_of_string "1";
          "out/b"%string := list_byte_of_string "2" ]}
  /\ reference.Start examples.joinPath examples.onceRunner examples.emptyOut []
     = (setFiles examples.emptyOut
          {[ "out/a"%string := list_byte_of_string "1";
             "out/b"%string := list_byte_of_string "2" ]},
        [LogRunnerStarting; LogRunningInitial; LogConsulPath;
         LogSaved "out/a"; LogSaved "out/b"; SendDone],
        manager.Selecting).
Proof. repeat split; vm_compute; reflexivity. Qed.

(** * Further properties *)

(** ** Merging and finalizing retry settings *)

Section RetryMerge.

Import config.

Lemma later_assoc {A : Type} (a b c : option A) :
  later (later a b) c = later a (later b c).
Proof. destruct c, b; reflexivity. Qed.

Lemma Merge_fields (c o : RetryConfig) :
  RetryConfig.Merge (Some c) (Some o)
  = Some {| Attempts := later (Attempts c) (Attempts o);
            Backoff := later (Backoff c) (Backoff o);
            MaxBackoff := later (MaxBackoff c) (MaxBackoff o);
            Enabled := later (Enabled c) (Enabled o) |}.
Proof.
  unfold RetryConfig.Merge, later.
  destruct (Attempts o), (Backoff o), (MaxBackoff o), (Enabled o); reflexivity.
Qed.

Lemma Copy_id (c : option RetryConfig) : RetryConfig.Copy c = c.
Proof. destruct c as [[a b m e]|]; reflexivity. Qed.

Lemma Merge_nil_r (c : option RetryConfig) : RetryConfig.Merge c None = c.
Proof. destruct c as [[a b m e]|]; reflexivity. Qed.

Lemma Merge_nil_l (c : option RetryConfig) : RetryConfig.Merge None c = c.
Proof. destruct c as [[a b m e]|]; reflexivity. Qed.

End RetryMerge.

(** X1: merging retry settings is associative, a nil setting on either
    side changes nothing, and a setting merged with itself is itself. *)
Theorem RetryConfig_Merge_monoid (a b c : option config.RetryConfig) :
  RetryConfig.Merge (RetryConfig.Merge a b) c
  = RetryConfig.Merge a (RetryConfig.Merge b c)
  /\ RetryConfig.Merge a None = a
  /\ RetryConfig.Merge None a = a
  /\ RetryConfig.Merge a a = a.
Proof.
  split; [|split; [|split]].
  - destruct a as [a|], b as [b|], c as [c|];
      rewrite ?Merge_nil_r, ?Merge_nil_l, ?Merge_nil_r; try reflexivity.
    rewrite !Merge_fields.
    cbn [config.Attempts config.Backoff config.MaxBackoff config.Enabled].
    rewrite !later_assoc. reflexivity.
  - apply Merge_nil_r.
  - apply Merge_nil_l.
  - destruct a as [[[?|] [?|] [?|] [?|]]|]; reflexivity.
Qed.

(** X2: in the finalized merge of two retry settings every field is set:
    to the value of the second setting when it has one, else to the
    value of the first, else to the default (12 attempts, 250ms, one
    minute, enabled); finalizing again changes nothing. *)
Theorem RetryConfig_Finalize_precedence (c o r : config.RetryConfig) :
  RetryConfig.Merge (Some c) (Some o) = Some r ->
  config.Finalize r
  = {| config.Attempts :=
         Some (default (default config.DefaultRetryAttempts (config.Attempts c))
                       (config.Attempts o));
       config.Backoff :=
         Some (default (default config.DefaultRetryBackoff (config.Backoff c))
                       (config.Backoff o));
       config.MaxBackoff :=
         Some (default (default config.DefaultRetryMaxBackoff (config.MaxBackoff c))
                       (config.MaxBackoff o));
       config.Enabled :=
         Some (default (default true (config.Enabled c)) (config.Enabled o)) |}
  /\ config.Finalize (config.Finalize r) = config.Finalize r.
Proof.
  rewrite Merge_fields. intros [= <-]. split.
  - unfold config.Finalize, later. cbn.
    destruct (config.Attempts o), (config.Attempts c), (config.Backoff o),
      (config.Backoff c), (config.MaxBackoff o), (config.MaxBackoff c),
      (config.Enabled o), (config.Enabled c); reflexivity.
  - unfold config.Finalize, later. cbn.
    destruct (config.Attempts o), (config.Attempts c), (config.Backoff o),
      (config.Backoff c), (config.MaxBackoff o), (config.MaxBackoff c),
      (config.Enabled o), (config.Enabled c); reflexivity.
Qed.

(** A maximum of ten seconds merged with five attempts: the other two
    fields take their defaults. *)
Lemma RetryConfig_Finalize_precedence_example :
  let r := {| config.Attempts := Some 5;
              config.Backoff := None;
              config.MaxBackoff := Some (10 * Second);
              config.Enabled := None |} in
  RetryConfig.Merge (Some samples.maximumOnly) (Some samples.attemptsOnly) = Some r
  /\ config.Finalize r
     = {| config.Attempts := Some 5;
          config.Backoff := Some (250 * Millisecond);
          config.MaxBackoff := Some (10 * Second);
          config.Enabled := Some true |}.
Proof.
  intros r.
  assert (Hm : RetryConfig.Merge (Some samples.maximumOnly)
                 (Some samples.attemptsOnly) = Some r) by reflexivity.
  split; [exact Hm|].
  exact (proj1 (RetryConfig_Finalize_precedence samples.maximumOnly
                  samples.attemptsOnly r Hm)).
Defined.

(** ** What a pass leaves behind *)

Section PassEffect.

Import processor.

Variable Join : string -> string -> string.

Lemma processPair_frame (p : Processor) (w : World) (kv : KVPair) (path : string) :
  target Join p kv <> Some path ->
  files (fst (fst (processPair Join p w kv))) !! path = files w !! path.
Proof.
  intros Hne. rewrite processPair_target.
  destruct (target Join p kv) as [file|]; [|reflexivity].
  destruct (wouldWrite w file (Value kv)); [|reflexivity].
  unfold save, writeFile. destruct (dry p); [reflexivity|].
  destruct (writeFault w file); cbn [fst files setFiles]; try reflexivity;
    apply lookup_insert_ne; congruence.
Qed.

Lemma processPairs_faults (p : Processor) (keys : list KVPair) (w : World) :
  let w' := fst (fst (processPairs Join p w keys)) in
  writeFault w' = writeFault w /\ unreadable w' = unreadable w
  /\ dirs w' = dirs w /\ remote w' = remote w.
Proof.
  revert w. induction keys as [|kv keys IH]; intros w; cbn [processPairs];
    [repeat split|].
  pose proof (processPair_faults Join p w kv) as Hkv. cbv zeta in Hkv.
  destruct (processPair Join p w kv) as [[w1 evs] [err|]]; [exact Hkv|].
  specialize (IH w1). cbv zeta in IH.
  destruct (processPairs Join p w1 keys) as [[w2 evs'] r].
  cbn [fst] in *. destruct Hkv as (H1 & H2 & H3 & H4).
  destruct IH as (I1 & I2 & I3 & I4). repeat split; congruence.
Qed.

Lemma processPairs_frame (p : Processor) (keys : list KVPair) (w : World)
    (path : string) :
  path ∉ targets Join p keys ->
  files (fst (fst (processPairs Join p w keys))) !! path = files w !! path.
Proof.
  revert w. induction keys as [|kv keys IH]; intros w Hnot; cbn [processPairs];
    [reflexivity|].
  rewrite targets_cons in Hnot.
  assert (Hkv : target Join p kv <> Some path).
  { intros E. rewrite E in Hnot. apply Hnot. left. }
  assert (Hrest : path ∉ targets Join p keys).
  { intros Hin. apply Hnot. destruct (target Join p kv); [right|]; exact Hin. }
  pose proof (processPair_frame p w kv path Hkv) as Hf.
  destruct (processPair Join p w kv) as [[w1 evs] [err|]]; [exact Hf|].
  specialize (IH w1 Hrest).
  destruct (processPairs Join p w1 keys) as [[w2 evs'] r].
  cbn [fst] in *. congruence.
Qed.

(** After a pair went through a writing pass, its target holds content
    with the digest of the payload. *)
Lemma processPair_holds (p : Processor) (w w1 : World) (evs : list Event)
    (kv : KVPair) (file : string) :
  dry p = false ->
  processPair Join p w kv = (w1, evs, None) ->
  target Join p kv = Some file ->
  exists content, files w1 !! file = Some content
                  /\ getHash content = getHash (Value kv)
                  /\ (content = Value kv \/ files w !! file = Some content).
Proof.
  intros Hd E Ht. rewrite processPair_target, Ht in E.
  destruct (wouldWrite w file (Value kv)) eqn:Ew.
  - unfold save, writeFile in E. rewrite Hd in E.
    destruct (writeFault w file); try discriminate.
    injection E as <- _. exists (Value kv). cbn [files setFiles].
    rewrite lookup_insert_eq, list_byte_of_string_of_list_byte.
    split; [reflexivity|split; [reflexivity|left; reflexivity]].
  - injection E as <- _. unfold wouldWrite, calculateFileHash, ReadFile in Ew.
    apply negb_false_iff, String.eqb_eq in Ew.
    destruct (unreadable w file).
    + cbn [fst] in Ew. symmetry in Ew. destruct (getHash_not_empty _ Ew).
    + destruct (files w !! file) as [content|] eqn:Ef; cbn [fst] in Ew.
      * exists content.
        split; [reflexivity|split; [exact Ew|right; reflexivity]].
      * symmetry in Ew. destruct (getHash_not_empty _ Ew).
Qed.

Lemma processPairs_hold (p : Processor) (keys : list KVPair) :
  forall (w w' : World) (evs : list Event),
    dry p = false ->
    NoDup (targets Join p keys) ->
    processPairs Join p w keys = (w', evs, None) ->
    forall kv file, kv ∈ keys -> target Join p kv = Some file ->
      exists content, files w' !! file = Some content
                      /\ getHash content = getHash (Value kv).
Proof.
  induction keys as [|kv0 keys IH]; intros w w' evs Hd Hnd E kv file Hin Ht.
  - inversion Hin.
  - cbn [processPairs] in E. rewrite targets_cons in Hnd.
    destruct (processPair Join p w kv0) as [[w1 evs0] [err|]] eqn:E0;
      [discriminate|].
    pose proof (processPairs_frame p keys w1) as Hframe.
    destruct (processPairs Join p w1 keys) as [[w2 evs1] r] eqn:E1.
    injection E as <- _ ->. cbn [fst] in Hframe.
    apply elem_of_cons in Hin. destruct Hin as [->|Hin].
    + rewrite Ht in Hnd. apply NoDup_cons in Hnd. destruct Hnd as [Hfresh _].
      destruct (processPair_holds p w w1 evs0 kv0 file Hd E0 Ht)
        as (content & Hf & Hh & _).
      exists content. split; [|exact Hh]. rewrite (Hframe file Hfresh). exact Hf.
    + apply (IH w1 w2 evs1 Hd); try assumption.
      destruct (target Join p kv0); [apply NoDup_cons in Hnd; tauto|exact Hnd].
Qed.

End PassEffect.

(** X3: a pass changes no file but the targets of the listed keys, in
    either mode and whatever faults it meets; the directories and the
    store are as before. *)
Theorem Process_frame (Join : string -> string -> string)
    (p : processor.Processor) (w : World) :
  let w' := fst (fst (processor.Process Join p w)) in
  dirs w' = dirs w /\ remote w' = remote w
  /\ (forall err, remote w = inl err -> w' = w)
  /\ (forall keys path, remote w = inr keys ->
        path ∉ processor.targets Join p keys ->
        files w' !! path = files w !! path).
Proof.
  intros w'. unfold w'. clear w'.
  destruct (remote w) as [err|keys] eqn:Hr.
  - unfold processor.Process. rewrite Hr. cbn [fst processor.logError].
    split; [reflexivity|]. split; [exact Hr|].
    split; [reflexivity|]. intros keys path [=].
  - rewrite (Process_listed Join p w keys Hr). cbv zeta.
    pose proof (processPairs_faults Join p keys w) as Hf. cbv zeta in Hf.
    pose proof (processPairs_frame Join p keys w) as Hfr.
    destruct (processor.processPairs Join p w keys) as [[w1 evs] [err|]];
      cbn [fst] in *; destruct Hf as (_ & _ & Hd & Hrem);
      (split; [exact Hd|]); (split; [congruence|]);
      (split; [intros ? [=]|]); intros keys' path [= <-]; apply Hfr.
Qed.

(** A local file that no key names is still there after the pass. *)
Lemma Process_frame_other_file :
  files (fst (fst (processor.Process examples.joinPath examples.onceProcessor
                     samples.withOther))) !! "out/keep"%string
  = Some (list_byte_of_string "k").
Proof.
  pose proof (Process_frame examples.joinPath examples.onceProcessor
                samples.withOther) as (_ & _ & _ & Hfiles).
  refine (eq_trans (Hfiles [examples.pairA;
                             {| Key := "prefix/b";
                                Value := list_byte_of_string "2" |}]
                      "out/keep"%string eq_refl _) _).
  - apply (bool_decide_unpack _). vm_compute. exact I.
  - reflexivity.
Defined.

(** X4: after a pass that writes (not a dry run) and sent no error, on a
    listing whose targets are distinct, the target of every listed key
    holds content with the SHA-256 digest of the key's payload. *)
Theorem Process_synchronized (Join : string -> string -> string)
    (p : processor.Processor) (w : World) (keys : list KVPair) :
  remote w = inr keys ->
  processor.dry p = false ->
  NoDup (processor.targets Join p keys) ->
  snd (processor.Process Join p w) = processor.ExitCodeOK ->
  forall kv file, kv ∈ keys -> processor.target Join p kv = Some file ->
    exists content,
      files (fst (fst (processor.Process Join p w))) !! file = Some content
      /\ processor.getHash content = processor.getHash (Value kv).
Proof.
  intros Hr Hd Hnd Hok kv file Hin Ht.
  rewrite (Process_listed Join p w keys Hr) in Hok |- *. cbv zeta in Hok |- *.
  destruct (processor.processPairs Join p w keys) as [[w1 evs] [err|]] eqn:E;
    cbn [fst snd] in *; [discriminate Hok|].
  exact (processPairs_hold Join p keys w w1 evs Hd Hnd E kv file Hin Ht).
Qed.

(** After the pass on the empty destination the file of the first key
    has the fingerprint of its payload. *)
Lemma Process_synchronized_first_key :
  exists content,
    files (fst (fst (processor.Process examples.joinPath examples.onceProcessor
                       examples.emptyOut))) !! "out/a"%string = Some content
    /\ processor.getHash content = processor.getHash (Value examples.pairA).
Proof.
  refine (Process_synchronized examples.joinPath examples.onceProcessor
            examples.emptyOut
            [examples.pairA;
             {| Key := "prefix/b"; Value := list_byte_of_string "2" |}]
            eq_refl eq_refl _ _ examples.pairA "out/a"%string _ _).
  - apply (bool_decide_unpack _). vm_compute. exact I.
  - vm_compute. reflexivity.
  - left.
  - reflexivity.
Defined.

Section PassAgain.

Import processor.

Variable Join : string -> string -> string.

(** A loop over pairs that all compare equal skips every one of them. *)
Lemma processPairs_all_same (p : Processor) (w : World) (keys : list KVPair) :
  (forall kv file, kv ∈ keys -> target Join p kv = Some file ->
     wouldWrite w file (Value kv) = false) ->
  exists evs,
    processPairs Join p w keys = (w, evs, None)
    /\ determinations evs = replicate (length (targets Join p keys)) false.
Proof.
  induction keys as [|kv keys IH]; intros Hsame; cbn [processPairs].
  - exists []. split; reflexivity.
  - destruct IH as (evs & E & Hdet).
    { intros kv' file Hin. apply Hsame. right. exact Hin. }
    rewrite processPair_target, targets_cons.
    destruct (target Join p kv) as [file|] eqn:Et.
    + rewrite (Hsame kv file ltac:(left) Et), E.
      exists ([LogSkipping (Key kv)] ++ evs). split; [reflexivity|].
      cbn [app length replicate]. rewrite determinations_cons.
      cbn [determination]. f_equal. exact Hdet.
    + rewrite E. exists ([] ++ evs). split; [reflexivity|]. exact Hdet.
Qed.

Lemma wouldWrite_held (w : World) (file : string) (payload content : bytes) :
  unreadable w file = false -> files w !! file = Some content ->
  getHash content = getHash payload ->
  wouldWrite w file payload = false.
Proof.
  intros Hu Hf Hh. unfold wouldWrite, calculateFileHash, ReadFile.
  rewrite Hu, Hf. cbn [fst]. rewrite Hh, String.eqb_refl. reflexivity.
Qed.

End PassAgain.

(** X5: a second pass right after a writing pass that sent no error, on
    the same listing with distinct and readable targets, skips every
    key: it leaves the world as the first pass left it and sends no
    error. *)
Theorem Process_second_pass (Join : string -> string -> string)
    (p : processor.Processor) (w : World) (keys : list KVPair) :
  remote w = inr keys ->
  processor.dry p = false ->
  NoDup (processor.targets Join p keys) ->
  (forall file, file ∈ processor.targets Join p keys -> unreadable w file = false) ->
  snd (processor.Process Join p w) = processor.ExitCodeOK ->
  let w1 := fst (fst (processor.Process Join p w)) in
  let second := processor.Process Join p w1 in
  fst (fst second) = w1
  /\ processor.determinations (snd (fst second))
     = replicate (length (processor.targets Join p keys)) false
  /\ snd second = processor.ExitCodeOK.
Proof.
  intros Hr Hd Hnd Hread Hok w1 second.
  pose proof (Process_listed Join p w keys Hr) as E1. cbv zeta in E1.
  pose proof (processPairs_faults Join p keys w) as Hf. cbv zeta in Hf.
  assert (Hhold : forall kv file, kv ∈ keys ->
            processor.target Join p kv = Some file ->
            exists content, files w1 !! file = Some content
              /\ processor.getHash content = processor.getHash (Value kv)).
  { intros kv file Hin Ht. unfold w1. rewrite E1.
    rewrite E1 in Hok.
    destruct (processor.processPairs Join p w keys) as [[w' evs] [err|]] eqn:E;
      cbn [fst snd] in *; [discriminate Hok|].
    exact (processPairs_hold Join p keys w w' evs Hd Hnd E kv file Hin Ht). }
  assert (Hw1 : unreadable w1 = unreadable w /\ remote w1 = inr keys).
  { unfold w1. rewrite E1.
    destruct (processor.processPairs Join p w keys) as [[w' evs] [err|]];
      cbn [fst] in *; destruct Hf as (_ & Hu & _ & Hrem);
      (split; [exact Hu|congruence]). }
  destruct Hw1 as [Hu Hr1].
  destruct (processPairs_all_same Join p w1 keys) as (evs & E & Hdet).
  { intros kv file Hin Ht. destruct (Hhold kv file Hin Ht) as (content & Hc & Hh).
    apply (wouldWrite_held w1 file (Value kv) content); [|exact Hc|exact Hh].
    rewrite Hu. apply Hread. unfold processor.targets.
    apply list_elem_of_omap. exists kv. split; assumption. }
  unfold second. rewrite (Process_listed Join p w1 keys Hr1). cbv zeta. rewrite E.
  cbn [fst snd]. split; [reflexivity|]. split; [|reflexivity].
  rewrite determinations_cons, determinations_app, Hdet.
  destruct (_ <=? _); cbn [processor.determination];
    destruct (processor.once p || processor.dry p); cbn; rewrite app_nil_r;
    reflexivity.
Qed.

(** The two-key store on the empty destination: the second pass has two
    comparisons and both say skip. *)
Lemma Process_second_pass_two_keys :
  let w1 := fst (fst (processor.Process examples.joinPath examples.onceProcessor
                        examples.emptyOut)) in
  let second := processor.Process examples.joinPath examples.onceProcessor w1 in
  fst (fst second) = w1
  /\ processor.determinations (snd (fst second)) = [false; false]
  /\ snd second = processor.ExitCodeOK.
Proof.
  refine (Process_second_pass examples.joinPath examples.onceProcessor
            examples.emptyOut
            [examples.pairA;
             {| Key := "prefix/b"; Value := list_byte_of_string "2" |}]
            eq_refl eq_refl _ _ _).
  - apply (bool_decide_unpack _). vm_compute. exact I.
  - intros file _. reflexivity.
  - vm_compute. reflexivity.
Defined.

(** ** File names and fingerprints *)

Lemma hexDigit_pair (b : Byte.byte) :
  let n := Byte.to_N b in
  isHexDigit (hexDigit (n / 16)) = true
  /\ isHexDigit (hexDigit (n mod 16)) = true
  /\ hexByte (hexDigit (n / 16)) (hexDigit (n mod 16)) = Some b.
Proof. destruct b; vm_compute; repeat split. Qed.

Lemma EncodeToString_length (src : bytes) :
  String.length (EncodeToString src) = (2 * length src)%nat.
Proof.
  induction src as [|b src IH]; [reflexivity|].
  cbn [EncodeToString String.length length]. rewrite IH. lia.
Qed.

Lemma EncodeToString_hex (src : bytes) : allHex (EncodeToString src) = true.
Proof.
  induction src as [|b src IH]; [reflexivity|].
  cbn [EncodeToString allHex].
  destruct (hexDigit_pair b) as (H1 & H2 & _). cbv zeta in H1, H2.
  rewrite H1, H2, IH. reflexivity.
Qed.

Lemma EncodeToString_inj (src src' : bytes) :
  EncodeToString src = EncodeToString src' -> src = src'.
Proof.
  revert src'. induction src as [|b src IH]; intros [|b' src'];
    cbn [EncodeToString]; try discriminate; [reflexivity|].
  intros [= Hhi Hlo Hrest].
  destruct (hexDigit_pair b) as (_ & _ & Hb).
  destruct (hexDigit_pair b') as (_ & _ & Hb'). cbv zeta in Hb, Hb'.
  rewrite Hhi, Hlo, Hb' in Hb. injection Hb as ->.
  f_equal. apply IH. exact Hrest.
Qed.

(** X6: the fingerprint is a string of 64 characters among 0-9 and a-f,
    and two fingerprints are the same string exactly when the SHA-256
    digests are the same bytes. *)
Theorem getHash_hex (v v' : bytes) :
  String.length (processor.getHash v) = 64%nat
  /\ allHex (processor.getHash v) = true
  /\ (processor.getHash v = processor.getHash v'
      <-> sha256.Sum256 v = sha256.Sum256 v').
Proof.
  unfold processor.getHash. split; [|split].
  - rewrite EncodeToString_length, Sum256_length. reflexivity.
  - apply EncodeToString_hex.
  - split; [apply EncodeToString_inj|intros ->; reflexivity].
Qed.

Lemma string_app_assoc (a b c : string) : (a +:+ b) +:+ c = a +:+ (b +:+ c).
Proof.
  induction a as [|x a IH]; [reflexivity|].
  change (String x ((a +:+ b) +:+ c) = String x (a +:+ (b +:+ c))).
  f_equal. exact IH.
Qed.

(** [strings.Join] undoes [strings.Split]. *)
Lemma JoinSlash_Split (s : string) : JoinSlash (Split s) = s.
Proof.
  induction s as [|c s IH]; [reflexivity|]. cbn [Split].
  pose proof (Split_not_nil s) as Hne.
  destruct (Ascii.eqb_spec c "/") as [->|Hc].
  - cbn [JoinSlash]. destruct (Split s) as [|part parts]; [contradiction|].
    rewrite IH. reflexivity.
  - destruct (Split s) as [|part parts]; [contradiction|].
    rewrite <- IH. destruct parts; reflexivity.
Qed.

Lemma Split_no_slash (s : string) :
  Forall (fun part => hasSlash part = false) (Split s).
Proof.
  induction s as [|c s IH]; [repeat constructor|]. cbn [Split].
  destruct (Ascii.eqb c "/") eqn:Ec.
  - constructor; [reflexivity|exact IH].
  - destruct (Split s) as [|part parts]; [repeat constructor; cbn; rewrite Ec; reflexivity|].
    inversion IH as [|? ? Hpart Hparts]; subst.
    constructor; [|exact Hparts]. cbn [hasSlash]. rewrite Ec, Hpart. reflexivity.
Qed.

Lemma JoinSlash_snoc (front : list string) (name : string) :
  front <> [] ->
  JoinSlash (front ++ [name]) = JoinSlash front +:+ String "/" name.
Proof.
  induction front as [|part front IH]; [contradiction|]. intros _.
  destruct front as [|part' front]; [reflexivity|].
  change (JoinSlash ((part :: part' :: front) ++ [name]))
    with (part +:+ String "/" (JoinSlash ((part' :: front) ++ [name]))).
  rewrite IH by discriminate.
  change (JoinSlash (part :: part' :: front))
    with (part +:+ String "/" (JoinSlash (part' :: front))).
  rewrite string_app_assoc. reflexivity.
Qed.

(** X7: the file name a pass takes from a key has no slash in it, and
    the key is that name alone or some text, a slash and that name; a
    key without slash is its own file name. *)
Theorem key_filename (key : string) :
  let name := lastPart (Split key) in
  hasSlash name = false
  /\ (key = name \/ exists dir, key = dir +:+ String "/" name)
  /\ (hasSlash key = false -> name = key).
Proof.
  intros name.
  pose proof (Split_not_nil key) as Hne.
  pose proof (Split_no_slash key) as Hall.
  pose proof (JoinSlash_Split key) as Hjoin.
  destruct (exists_last Hne) as (front & last & E).
  assert (Hname : name = last).
  { unfold name, lastPart. rewrite E. apply last_last. }
  rewrite E in Hall, Hjoin. rewrite Hname.
  apply Forall_app in Hall. destruct Hall as [_ Hlast].
  apply Forall_inv in Hlast. rename Hlast into Hl.
  assert (Hshape : key = last \/ exists dir, key = dir +:+ String "/" last).
  { destruct front as [|part front].
    - left. cbn in Hjoin. congruence.
    - right. exists (JoinSlash (part :: front)).
      rewrite <- Hjoin at 1. apply JoinSlash_snoc. discriminate. }
  split; [exact Hl|]. split; [exact Hshape|].
  intros Hkey. destruct Hshape as [->|(dir & ->)]; [reflexivity|].
  exfalso. clear -Hkey. induction dir as [|c dir IH]; cbn in Hkey.
  - discriminate.
  - apply orb_false_iff in Hkey. destruct Hkey as [_ Hkey]. exact (IH Hkey).
Qed.

(** A key without folder is its own file name; under a folder the name
    is what follows the last slash. *)
Lemma key_filename_examples :
  lastPart (Split "plain") = "plain"%string
  /\ hasSlash (lastPart (Split "prefix/a/x")) = false.
Proof.
  split.
  - exact (proj2 (proj2 (key_filename "plain")) eq_refl).
  - exact (proj1 (key_filename "prefix/a/x")).
Defined.

(** ** The destination directory *)

(** X8: setting a processor up never touches a file and never removes a
    directory; in dry-run mode it changes nothing; otherwise, when the
    destination can be inspected and created, it exists afterwards, as a
    directory or as the file that was there, and setting up again
    changes nothing and logs nothing. *)
Theorem init_destination (p : processor.Processor) (w : World) :
  let w' := fst (processor.init p w) in
  files w' = files w
  /\ dirs w ⊆ dirs w'
  /\ (processor.dry p = true -> w' = w)
  /\ (processor.dry p = false ->
      statFails w (processor.To p) = false ->
      mkdirFails w (processor.To p) = false ->
      (processor.To p ∈ dirs w' \/ is_Some (files w' !! processor.To p))
      /\ processor.init p w' = (w', [])).
Proof.
  intros w'. unfold w', processor.init. clear w'.
  destruct (processor.dry p) eqn:Hd; cbn [negb].
  - cbn [fst]. repeat split; try reflexivity; discriminate.
  - destruct (statFails w (processor.To p)) eqn:Hs; cbn [negb andb].
    + cbn [fst]. repeat split; try reflexivity; discriminate.
    + destruct (bool_decide (is_Some (files w !! processor.To p))) eqn:Hf;
        cbn [negb andb].
      * cbn [fst]. rewrite Hs, Hf. cbn [negb andb].
        apply bool_decide_eq_true in Hf.
        repeat split; try reflexivity; try discriminate. right. exact Hf.
      * destruct (bool_decide (processor.To p ∈ dirs w)) eqn:Hdir; cbn [negb].
        -- cbn [fst]. rewrite Hs, Hf, Hdir. cbn [negb andb].
           apply bool_decide_eq_true in Hdir.
           repeat split; try reflexivity; try discriminate. left. exact Hdir.
        -- destruct (mkdirFails w (processor.To p)) eqn:Hm; cbn [fst].
           ++ repeat split; try reflexivity; discriminate.
           ++ cbn [files dirs setDirs statFails mkdirFails].
              repeat split; try reflexivity; try discriminate.
              ** set_solver.
              ** left. set_solver.
              ** rewrite Hs, Hf. cbn [negb andb].
                 rewrite (bool_decide_eq_true_2 _); [reflexivity|set_solver].
Qed.

(** With no destination yet, the set-up creates it, and a second set-up
    finds it. *)
Lemma init_destination_created :
  let w' := fst (processor.init examples.onceProcessor samples.noDestination) in
  ("out"%string ∈ dirs w' \/ is_Some (files w' !! "out"%string))
  /\ processor.init examples.onceProcessor w' = (w', []).
Proof.
  exact (proj2 (proj2 (proj2 (init_destination examples.onceProcessor
                                samples.noDestination)))
           eq_refl eq_refl eq_refl).
Defined.

(** ** The PID file *)

Section PidFile.

Import manager.

Lemma deletePid_cases (r : Runner) (w : World) :
  let path := config.StringVal (PidFile r) in
  (path = EmptyString /\ deletePid r w = (w, [], None))
  \/ (path <> EmptyString
      /\ exists evs err, deletePid r w = (w, evs, Some err)
         /\ (statFails w path = true \/ files w !! path = None
             \/ path ∈ dirs w \/ removeFails w path = true))
  \/ (path <> EmptyString
      /\ statFails w path = false /\ is_Some (files w !! path)
      /\ (path ∉ dirs w) /\ removeFails w path = false
      /\ deletePid r w
         = (setFiles w (delete path (files w)),
            [LogRemovingPid path; OsRemove path], None)).
Proof.
  intros path. unfold deletePid. fold path.
  destruct (String.eqb_spec path EmptyString) as [E|Hne]; [left; auto|right].
  destruct (statFails w path) eqn:Hs; cbn [orb]; [left; eauto 10|].
  destruct (bool_decide (is_Some (files w !! path))) eqn:Hf; cbn [negb andb].
  - apply bool_decide_eq_true in Hf.
    destruct (bool_decide (path ∈ dirs w)) eqn:Hd.
    + apply bool_decide_eq_true in Hd. left. eauto 10.
    + apply bool_decide_eq_false in Hd.
      destruct (removeFails w path) eqn:Hr; [left; eauto 10|].
      right. repeat split; first [assumption | reflexivity].
  - apply bool_decide_eq_false in Hf.
    assert (files w !! path = None).
    { destruct (files w !! path) eqn:E; [|reflexivity]. destruct Hf. eauto. }
    destruct (bool_decide (path ∈ dirs w)); cbn [negb]; left; eauto 10.
Qed.

End PidFile.

(** X9: a PID file that [storePid] wrote holds the process id in decimal
    and no other file has changed; when the path can be inspected, is no
    directory and can be removed, [deletePid] then succeeds and leaves
    the files as they were before, without the one at the PID path. *)
Theorem pid_file_round_trip (r : manager.Runner) (w w1 : World)
    (evs : list Event) :
  let path := config.StringVal (manager.PidFile r) in
  path <> EmptyString ->
  manager.storePid r w = (w1, evs, None) ->
  files w1 !! path = Some (list_byte_of_string (manager.formatPid (pid w)))
  /\ (forall other, other <> path -> files w1 !! other = files w !! other)
  /\ (statFails w path = false -> path ∉ dirs w -> removeFails w path = false ->
      manager.deletePid r w1
      = (setFiles w1 (delete path (files w)),
         [LogRemovingPid path; OsRemove path], None)).
Proof.
  intros path Hne Hstore. unfold manager.storePid in Hstore. fold path in Hstore.
  destruct (String.eqb_spec path EmptyString) as [|_]; [contradiction|].
  unfold writeFile in Hstore.
  destruct (writeFault w path); try discriminate.
  injection Hstore as <- _.
  split; [cbn [files setFiles]; apply lookup_insert_eq|]. split.
  - intros other Ho. cbn [files setFiles]. apply lookup_insert_ne. congruence.
  - intros Hs Hd Hr.
    match goal with
    | |- manager.deletePid r ?world = _ => remember world as w1 eqn:Ew1
    end.
    assert (Hfiles : files w1 !! path = Some
              (list_byte_of_string (manager.formatPid (pid w)))).
    { rewrite Ew1. cbn [files setFiles]. apply lookup_insert_eq. }
    assert (Hdel : delete path (files w1) = delete path (files w)).
    { rewrite Ew1. cbn [files setFiles]. apply delete_insert_eq. }
    assert (Hsame : statFails w1 = statFails w /\ removeFails w1 = removeFails w
                    /\ dirs w1 = dirs w) by (rewrite Ew1; repeat split).
    destruct Hsame as (Hs1 & Hr1 & Hd1).
    pose proof (deletePid_cases r w1) as Hc.
    cbv zeta in Hc. fold path in Hc. rewrite Hs1, Hr1, Hd1 in Hc.
    destruct Hc as [[E _]|[(_ & evs' & err & _ & Hbad)|(_ & _ & _ & _ & _ & E)]].
    + contradiction.
    + exfalso. destruct Hbad as [Hb|[Hb|[Hb|Hb]]];
        first [contradiction | congruence
              | discriminate (eq_trans (eq_sym Hfiles) Hb)].
    + rewrite E, Hdel. reflexivity.
Qed.

(** Process 4242 with the PID file run.pid. *)
Lemma pid_file_round_trip_4242 :
  let w1 := fst (fst (manager.storePid examples.pidRunner examples.emptyOut)) in
  files w1 !! "run.pid"%string = Some (list_byte_of_string "4242")
  /\ manager.deletePid examples.pidRunner w1
     = (setFiles w1 (delete "run.pid"%string (files examples.emptyOut)),
        [LogRemovingPid "run.pid"; OsRemove "run.pid"], None).
Proof.
  intros w1.
  pose proof (pid_file_round_trip examples.pidRunner examples.emptyOut w1
                [LogCreatingPid "run.pid"]) as H.
  cbv zeta in H.
  specialize (H ltac:(discriminate) eq_refl).
  destruct H as (Hfile & _ & Hdelete).
  split; [exact Hfile|].
  apply Hdelete; [reflexivity| |reflexivity].
  apply (bool_decide_unpack _). vm_compute. exact I.
Defined.

(** X10: [deletePid] removes nothing but the file at the PID path and no
    directory; with an empty path it does nothing and reports no error;
    a path where no file is found, or a directory, is an error that
    leaves the world as it is; without error the file is gone. *)
Theorem deletePid_only_pid_file (r : manager.Runner) (w : World) :
  let path := config.StringVal (manager.PidFile r) in
  let result := manager.deletePid r w in
  let w' := fst (fst result) in
  dirs w' = dirs w
  /\ (forall other, other <> path -> files w' !! other = files w !! other)
  /\ (path = EmptyString -> result = (w, [], None))
  /\ (path <> EmptyString -> files w !! path = None \/ path ∈ dirs w ->
      w' = w /\ snd result <> None)
  /\ (path <> EmptyString -> snd result = None ->
      files w' !! path = None /\ is_Some (files w !! path)).
Proof.
  intros path result w'. unfold w', result. clear w' result.
  pose proof (deletePid_cases r w) as Hc. cbv zeta in Hc. fold path in Hc.
  destruct Hc as [[E ->]|[(Hne & evs & err & -> & Hbad)
                         |(Hne & Hs & Hf & Hd & Hr & ->)]]; cbn [fst snd].
  - repeat split; try reflexivity; intros; contradiction.
  - repeat split; try reflexivity; try discriminate; intros; contradiction.
  - cbn [files dirs setFiles]. split; [reflexivity|]. split.
    { intros other Ho. apply lookup_delete_ne. congruence. }
    split; [intros; contradiction|]. split.
    + intros _ [Hnone|Hdir]; [|contradiction].
      rewrite Hnone in Hf. destruct Hf as [? [=]].
    + intros _ _. split; [apply lookup_delete_eq|exact Hf].
Qed.

(** The PID file that was written is gone after [deletePid]. *)
Lemma deletePid_only_pid_file_written :
  files (fst (fst (manager.deletePid examples.pidRunner examples.pidWritten)))
    !! "run.pid"%string = None
  /\ is_Some (files examples.pidWritten !! "run.pid"%string).
Proof.
  pose proof (deletePid_only_pid_file examples.pidRunner examples.pidWritten)
    as H.
  cbv zeta in H. destruct H as (_ & _ & _ & _ & Hgone).
  apply Hgone; [discriminate|reflexivity].
Defined.

(** ** The loops *)

(** X11: the runner's loop makes one pass for every tick up to the first
    value it receives on the error or the done channel, returns there,
    and looks at nothing that comes after; as long as only ticks come it
    stays in its select. *)
Theorem startLoop_until_terminal (Join : string -> string -> string)
    (pr : processor.Processor) (n : nat) (w : World)
    (e : manager.Select) (rest : list manager.Select) :
  polling.isTerminal e = true ->
  let after := polling.passes Join n pr w in
  manager.startLoop Join pr w (replicate n manager.TickerC ++ e :: rest)
  = (fst after,
     snd after ++ match e with
                  | manager.RecvDoneCh => [LogReceivedFinish]
                  | _ => []
                  end,
     manager.Returned)
  /\ manager.startLoop Join pr w (replicate n manager.TickerC)
     = (fst after, snd after, manager.Selecting).
Proof.
  intros He. revert w. induction n as [|n IH]; intros w after.
  - unfold after. cbn [polling.passes replicate app fst snd manager.startLoop].
    destruct e; try discriminate He; split; reflexivity.
  - unfold after. cbn [polling.passes replicate app manager.startLoop].
    destruct (processor.Process Join pr w) as [[w1 evs1] code].
    specialize (IH w1). cbv zeta in IH. destruct IH as [IH1 IH2].
    rewrite IH1, IH2.
    destruct (polling.passes Join n pr w1) as [w2 evs2]. cbn [fst snd].
    rewrite app_assoc. split; reflexivity.
Qed.

(** Two ticks, then the done channel, then a tick that is never taken. *)
Lemma startLoop_until_terminal_two_ticks :
  let after := polling.passes examples.joinPath 2 samples.pollingProcessor
                 examples.emptyOut in
  manager.startLoop examples.joinPath samples.pollingProcessor examples.emptyOut
    (replicate 2 manager.TickerC ++ manager.RecvDoneCh :: [manager.TickerC])
  = (fst after, snd after ++ [LogReceivedFinish], manager.Returned).
Proof.
  exact (proj1 (startLoop_until_terminal examples.joinPath
                  samples.pollingProcessor 2 examples.emptyOut
                  manager.RecvDoneCh [manager.TickerC] eq_refl)).
Defined.

Section Supervisor.

Import cli supervisor.

Lemma supervisor_loop (sigs : Signals) (events : list Event) :
  let '(acts, code) := supervisor.loop sigs events in
  code = cli.loop sigs events
  /\ inTurn true acts = true
  /\ runningAfter true acts
     = match exitEvent sigs events with
       | Some (RunnerErr _) | Some StopCh | None => true
       | _ => false
       end.
Proof.
  induction events as [|e events IH]; cbn [supervisor.loop cli.loop exitEvent].
  - repeat split.
  - destruct e as [status| |s reload|]; try (repeat split; fail).
    destruct (s =? ReloadSignal sigs) eqn:Es.
    + destruct reload; try (repeat split; fail).
      destruct (supervisor.loop sigs events) as [acts code].
      destruct IH as (Hc & Ht & Hr). cbn [inTurn runningAfter negb andb].
      repeat split; assumption.
    + destruct (s =? KillSignal sigs), reload; repeat split.
Qed.

End Supervisor.

(** X12: the supervisor has at most one runner at a time: it starts one
    only when none is running and stops only the running one, a reload
    stopping the old runner before the new one starts.  When it leaves
    on the done channel or on a signal, or when a reload fails, the
    runner has been stopped; when it leaves on a runner error or on its
    own stop request, the runner has not been stopped.  Its exit status
    is the one of [Cli.Run]. *)
Theorem supervisor_one_runner (flags : cli.Flags) (start : cli.Startup)
    (sigs : cli.Signals) (events : list cli.Event) :
  let result := supervisor.Run flags start sigs events in
  snd result = cli.Run flags start sigs events
  /\ supervisor.inTurn false (fst result) = true
  /\ (flags = cli.FlagsOk false -> start = cli.Started ->
      supervisor.runningAfter false (fst result)
      = match supervisor.exitEvent sigs events with
        | Some (cli.RunnerErr _) | Some cli.StopCh | None => true
        | _ => false
        end)
  /\ (flags <> cli.FlagsOk false \/ start <> cli.Started -> fst result = []).
Proof.
  intros result. unfold result, supervisor.Run, cli.Run. clear result.
  pose proof (supervisor_loop sigs events) as Hl.
  destruct (supervisor.loop sigs events) as [acts code].
  destruct Hl as (Hc & Ht & Hr).
  destruct flags as [| |[|]], start;
    cbn [fst snd supervisor.inTurn supervisor.runningAfter negb andb];
    (split; [first [exact Hc | reflexivity]|]);
    (split; [first [exact Ht | reflexivity]|]);
    (split; [intros Hflags Hstart;
             first [discriminate Hflags | discriminate Hstart | exact Hr]|]);
    intros [Hno|Hno]; first [reflexivity | contradiction].
Qed.

(** Two reloads and a finished runner: three runners were started, one
    after the other, and none is left running. *)
Lemma supervisor_one_runner_reloads :
  let events := [cli.Sig 1 cli.Started; cli.Sig 1 cli.Started; cli.RunnerDone] in
  let result := supervisor.Run (cli.FlagsOk false) cli.Started samples.signals
                  events in
  fst result
  = [supervisor.StartRunner; supervisor.StopRunner; supervisor.StartRunner;
     supervisor.StopRunner; supervisor.StartRunner; supervisor.StopRunner]
  /\ supervisor.runningAfter false (fst result) = false.
Proof.
  intros events result. split; [reflexivity|].
  exact (proj1 (proj2 (proj2 (supervisor_one_runner (cli.FlagsOk false)
                                cli.Started samples.signals events)))
           eq_refl eq_refl).
Defined.

(** X13: the configured kill signal has no part in the exit status: with
    any other kill signal [Cli.Run] returns the same status on the same
    events.  Every signal that is not the reload signal ends the run as
    interrupted. *)
Theorem kill_signal_irrelevant (flags : cli.Flags) (start : cli.Startup)
    (sigs : cli.Signals) (kill : cli.Signal) (events : list cli.Event) :
  cli.Run flags start (supervisor.setKillSignal sigs kill) events
  = cli.Run flags start sigs events
  /\ forall s reload rest,
       s <> cli.ReloadSignal sigs ->
       cli.loop sigs (cli.Sig s reload :: rest) = Some cli.ExitCodeInterrupt.
Proof.
  split.
  - unfold cli.Run. destruct flags as [| |isVersion]; try reflexivity.
    destruct start, isVersion; try reflexivity.
    induction events as [|e events IH]; cbn [cli.loop]; [reflexivity|].
    destruct e as [status| |s reload|]; try reflexivity.
    cbn [supervisor.setKillSignal cli.ReloadSignal cli.KillSignal].
    destruct (s =? cli.ReloadSignal sigs).
    + destruct reload; try reflexivity. exact IH.
    + destruct (s =? kill), (s =? cli.KillSignal sigs); reflexivity.
  - intros s reload rest Hs. cbn [cli.loop].
    destruct (Z.eqb_spec s (cli.ReloadSignal sigs)); [contradiction|].
    destruct (s =? cli.KillSignal sigs); reflexivity.
Qed.

(** SIGTERM, neither the reload nor the kill signal, interrupts. *)
Lemma kill_signal_irrelevant_sigterm :
  cli.loop samples.signals [cli.Sig 15 cli.Started; cli.RunnerDone] = Some 12.
Proof.
  refine (proj2 (kill_signal_irrelevant (cli.FlagsOk false) cli.Started
                   samples.signals 9 [])
            15 cli.Started [cli.RunnerDone] _).
  discriminate.
Defined.

(** ** The authentication setting *)

Section Auth.

Lemma SplitN2_cut (s : string) :
  auth.ContainsColon s = true ->
  exists user pass,
    auth.SplitN2 s = [user; pass] /\ s = user +:+ String ":" pass
    /\ auth.ContainsColon user = false.
Proof.
  induction s as [|c s IH]; cbn [auth.ContainsColon auth.SplitN2]; [discriminate|].
  destruct (Ascii.eqb_spec c ":") as [->|Hc]; cbn [orb].
  - intros _. exists EmptyString, s. repeat split.
  - intros H. destruct (IH H) as (user & pass & E & Es & Hu).
    exists (String c user), pass. rewrite E. split; [reflexivity|]. split.
    + rewrite Es. reflexivity.
    + cbn [auth.ContainsColon]. rewrite Hu.
      destruct (Ascii.eqb_spec c ":"); [contradiction|reflexivity].
Qed.

Lemma ParseAuthConfig_cases (s : string) :
  (s = EmptyString /\ auth.ParseAuthConfig s = inl auth.ErrAuthStringEmpty)
  \/ (s <> EmptyString /\ auth.ContainsColon s = false
      /\ auth.ParseAuthConfig s
         = inr {| auth.Enabled := None; auth.Username := Some s; auth.Password := None |})
  \/ (exists user pass,
        s = user +:+ String ":" pass /\ auth.ContainsColon user = false
        /\ auth.ContainsColon s = true
        /\ auth.ParseAuthConfig s
           = inr {| auth.Enabled := None; auth.Username := Some user;
                    auth.Password := Some pass |}).
Proof.
  unfold auth.ParseAuthConfig.
  destruct (String.eqb_spec s EmptyString) as [->|Hne]; [left; auto|right].
  destruct (auth.ContainsColon s) eqn:Hc; [right|left; auto].
  destruct (SplitN2_cut s Hc) as (user & pass & -> & Es & Hu).
  exists user, pass. repeat split; assumption.
Qed.

Lemma app_colon_not_empty (user pass : string) :
  user +:+ String ":" pass <> EmptyString.
Proof. destruct user; discriminate. Qed.

End Auth.

(** X14: [ParseAuthConfig] fails exactly on the empty string; otherwise
    the user name is the text before the first colon and the password
    the text after it, and without a colon the whole string is the user
    name and no password is set.  The enabled flag is left unset. *)
Theorem ParseAuthConfig_first_colon (s : string) :
  (auth.ParseAuthConfig s = inl auth.ErrAuthStringEmpty <-> s = EmptyString)
  /\ forall a, auth.ParseAuthConfig s = inr a ->
       auth.Enabled a = None
       /\ exists user,
            auth.Username a = Some user /\ auth.ContainsColon user = false
            /\ match auth.Password a with
               | Some pass => s = user +:+ String ":" pass
               | None => s = user
               end.
Proof.
  destruct (ParseAuthConfig_cases s)
    as [[-> E]|[(Hne & Hc & E)|(user & pass & Es & Hu & Hc & E)]]; rewrite E.
  - split; [split; reflexivity|]. intros a [=].
  - split; [split; [discriminate|contradiction]|].
    intros a [= <-]. split; [reflexivity|]. exists s. repeat split. exact Hc.
  - split.
    + split; [discriminate|]. intros ->. symmetry in Es.
      destruct (app_colon_not_empty _ _ Es).
    + intros a [= <-]. split; [reflexivity|]. exists user. repeat split; assumption.
Qed.

(** A password with a colon in it. *)
Lemma ParseAuthConfig_first_colon_example :
  let a := {| auth.Enabled := None; auth.Username := Some "user"%string;
              auth.Password := Some "pa:ss"%string |} in
  auth.ParseAuthConfig "user:pa:ss" = inr a
  /\ exists user,
       auth.Username a = Some user /\ auth.ContainsColon user = false
       /\ match auth.Password a with
          | Some pass => "user:pa:ss"%string = user +:+ String ":" pass
          | None => "user:pa:ss"%string = user
          end.
Proof.
  intros a. split; [reflexivity|].
  exact (proj2 (proj2 (ParseAuthConfig_first_colon "user:pa:ss") a eq_refl)).
Defined.

(** X15: what [String] prints for a parsed and finalized setting: the
    input itself when it has a colon and is more than the colon alone,
    nothing for the colon alone, and the input followed by a colon when
    it has none. *)
Theorem AuthConfig_String_of_parsed (s : string) (a : auth.AuthConfig) :
  auth.ParseAuthConfig s = inr a ->
  auth.String (auth.Finalize a)
  = if auth.ContainsColon s
    then (if String.eqb s ":" then EmptyString else s)
    else s +:+ ":".
Proof.
  intros Hp.
  destruct (ParseAuthConfig_cases s)
    as [[-> E]|[(Hne & Hc & E)|(user & pass & Es & Hu & Hc & E)]];
    rewrite E in Hp; [discriminate| |]; injection Hp as <-; rewrite Hc.
  - unfold auth.Finalize, auth.String. cbn.
    destruct (String.eqb_spec s EmptyString); [contradiction|]. reflexivity.
  - subst s.
    assert (Hs : auth.String
                   (auth.Finalize {| auth.Enabled := None;
                                     auth.Username := Some user;
                                     auth.Password := Some pass |})
                 = if String.eqb user EmptyString && String.eqb pass EmptyString
                   then EmptyString
                   else user +:+ String ":" pass).
    { unfold auth.Finalize, auth.String. cbn.
      destruct (String.eqb user EmptyString), (String.eqb pass EmptyString);
        reflexivity. }
    rewrite Hs.
    destruct (String.eqb_spec (user +:+ String ":" pass) ":") as [E1|E1].
    + destruct user as [|c user].
      * cbn in E1. injection E1 as ->. reflexivity.
      * cbn in E1. injection E1 as _ E1.
        destruct (app_colon_not_empty _ _ E1).
    + destruct (String.eqb_spec user EmptyString) as [->|_]; [|reflexivity].
      destruct (String.eqb_spec pass EmptyString) as [->|_]; [|reflexivity].
      destruct E1. reflexivity.
Qed.

(** A user name alone is printed with a colon after it; a pair is
    printed as it was given. *)
Lemma AuthConfig_String_of_parsed_examples :
  auth.String (auth.Finalize {| auth.Enabled := None;
                                auth.Username := Some "user"%string;
                                auth.Password := None |}) = "user:"%string
  /\ auth.String (auth.Finalize {| auth.Enabled := None;
                                   auth.Username := Some "user"%string;
                                   auth.Password := Some "pa:ss"%string |})
     = "user:pa:ss"%string.
Proof.
  split.
  - exact (AuthConfig_String_of_parsed "user" _ eq_refl).
  - exact (AuthConfig_String_of_parsed "user:pa:ss" _ eq_refl).
Defined.

(** X16: finalizing an authentication setting sets every field: user name
    and password to the given ones or to the empty string, and the
    enabled flag to the given one or, when none was given, to whether
    the user name or the password is not empty; finalizing again changes
    nothing. *)
Theorem AuthConfig_Finalize_enabled (c : auth.AuthConfig) :
  let f := auth.Finalize c in
  auth.Username f = Some (config.StringVal (auth.Username c))
  /\ auth.Password f = Some (config.StringVal (auth.Password c))
  /\ auth.Enabled f
     = Some (match auth.Enabled c with
             | Some e => e
             | None =>
                 negb (String.eqb (config.StringVal (auth.Username c)) EmptyString)
                 || negb (String.eqb (config.StringVal (auth.Password c)) EmptyString)
             end)
  /\ auth.Finalize f = f.
Proof.
  destruct c as [[e|] [u|] [p|]]; cbn; repeat split.
Qed.

(** ** The interval flag *)





(** ** The first version of the pass *)

Section Legacy.

Variable Join : string -> string -> string.

Lemma service_loop (cfg : service.Config) (p : processor.Processor)
    (keys : list KVPair) (w : World) :
  service.to cfg = processor.To p -> processor.dry p = false ->
  fst (fst (service.processPairs Join cfg w keys))
  = fst (fst (processor.processPairs Join p w keys))
  /\ snd (service.processPairs Join cfg w keys)
     = snd (processor.processPairs Join p w keys).
Proof.
  intros Hto Hd. revert w.
  induction keys as [|kv keys IH]; intros w;
    cbn [service.processPairs processor.processPairs]; [split; reflexivity|].
  unfold processor.processPair. rewrite Hto.
  destruct (negb (String.eqb (lastPart (Split (Key kv))) EmptyString)).
  - change (service.getHash (Value kv)) with (processor.getHash (Value kv)).
    assert (Hh : fst (service.calculateFileHash w
                        (Join (processor.To p) (lastPart (Split (Key kv)))))
                 = fst (processor.calculateFileHash w
                          (Join (processor.To p) (lastPart (Split (Key kv)))))).
    { unfold service.calculateFileHash, processor.calculateFileHash.
      destruct (ReadFile w _); reflexivity. }
    rewrite Hh.
    destruct (negb (String.eqb _ (processor.getHash (Value kv)))).
    + unfold service.save, processor.save. rewrite Hd.
      destruct (writeFile w _ _) as [w1 [| |n]]; try (split; reflexivity).
      specialize (IH w1).
      destruct (service.processPairs Join cfg w1 keys) as [[ws logs] rs].
      destruct (processor.processPairs Join p w1 keys) as [[wp evs] rp].
      exact IH.
    + specialize (IH w).
      destruct (service.processPairs Join cfg w keys) as [[ws logs] rs].
      destruct (processor.processPairs Join p w keys) as [[wp evs] rp].
      exact IH.
  - specialize (IH w).
    destruct (service.processPairs Join cfg w keys) as [[ws logs] rs].
    destruct (processor.processPairs Join p w keys) as [[wp evs] rp].
    exact IH.
Qed.

End Legacy.

(** X18: the pass of service.go and the pass of the processor out of
    dry-run mode, for the same destination, leave the same world behind,
    whatever the listing and the faults; the first ends the program with
    [log.Fatal] exactly when the second returns its error status. *)
Theorem service_process_agrees (Join : string -> string -> string)
    (cfg : service.Config) (p : processor.Processor) (w : World) :
  service.to cfg = processor.To p -> processor.dry p = false ->
  fst (fst (service.process Join cfg w))
  = fst (fst (processor.Process Join p w))
  /\ (snd (service.process Join cfg w) = service.Done
      <-> snd (processor.Process Join p w) = processor.ExitCodeOK)
  /\ forall err, snd (service.process Join cfg w) = service.Fatal err ->
       SendErr err ∈ snd (fst (processor.Process Join p w)).
Proof.
  intros Hto Hd. unfold service.process, processor.Process.
  destruct (remote w) as [err|keys].
  - cbn. split; [reflexivity|]. split; [split; discriminate|].
    intros e [= <-]. left.
  - destruct (service_loop Join cfg p keys w Hto Hd) as [Hw Hr].
    destruct (service.processPairs Join cfg w keys) as [[ws logs] rs].
    destruct (processor.processPairs Join p w keys) as [[wp evs] rp].
    cbn [fst snd] in Hw, Hr. subst ws rs.
    destruct rp as [err|]; cbn [fst snd processor.logError].
    + split; [reflexivity|]. split; [split; discriminate|].
      intros e [= <-]. right. apply elem_of_app. right. left.
    + split; [reflexivity|]. split; [split; reflexivity|]. intros e [=].
Qed.

(** The two-key store on the empty destination: both versions write the
    two files and neither reports an error. *)
Lemma service_process_agrees_two_keys :
  fst (fst (service.process examples.joinPath samples.legacy examples.emptyOut))
  = fst (fst (processor.Process examples.joinPath examples.onceProcessor
                examples.emptyOut))
  /\ snd (service.process examples.joinPath samples.legacy examples.emptyOut)
     = service.Done.
Proof.
  pose proof (service_process_agrees examples.joinPath samples.legacy
                examples.onceProcessor examples.emptyOut eq_refl eq_refl)
    as (Hworld & Hdone & _).
  split; [exact Hworld|].
  apply Hdone. vm_compute. reflexivity.
Defined.

(** ** The syslog setting *)

(** X19: merging syslog settings is associative with nil as the neutral
    element.  Finalizing sets both fields; the flag, when not given, says
    whether a facility other than the empty string was given, so the
    default facility LOCAL0 alone never enables syslog; finalizing again
    changes nothing. *)
Theorem SyslogConfig_Finalize_enabled (a b c : option SyslogConfig.SyslogConfig)
    (s : SyslogConfig.SyslogConfig) :
  SyslogConfig.Merge (SyslogConfig.Merge a b) c
  = SyslogConfig.Merge a (SyslogConfig.Merge b c)
  /\ SyslogConfig.Merge a None = a /\ SyslogConfig.Merge None a = a
  /\ SyslogConfig.Enabled (SyslogConfig.Finalize s)
     = Some (match SyslogConfig.Enabled s with
             | Some e => e
             | None => match SyslogConfig.Facility s with
                       | Some f => negb (String.eqb f EmptyString)
                       | None => false
                       end
             end)
  /\ SyslogConfig.Facility (SyslogConfig.Finalize s)
     = Some (default SyslogConfig.DefaultSyslogFacility (SyslogConfig.Facility s))
  /\ SyslogConfig.Finalize (SyslogConfig.Finalize s) = SyslogConfig.Finalize s
  /\ SyslogConfig.Finalize SyslogConfig.DefaultSyslogConfig
     = {| SyslogConfig.Enabled := Some false;
          SyslogConfig.Facility := Some "LOCAL0"%string |}.
Proof.
  split; [|split; [|split]].
  - destruct a as [[[[|]|] [fa|]]|], b as [[[[|]|] [fb|]]|],
      c as [[[[|]|] [fc|]]|]; reflexivity.
  - destruct a as [[ea fa]|]; reflexivity.
  - destruct a as [[ea fa]|]; reflexivity.
  - destruct s as [[e|] [f|]]; cbn; repeat split; reflexivity.
Qed.

(** ** Values from the environment *)

Section FromEnv.

Variable Getenv : string -> string.

Lemma ParseBool_empty : fromenv.ParseBool EmptyString = None.
Proof. reflexivity. Qed.

Lemma boolFromEnv_step (s : string) (rest : list string) (def : bool) :
  fromenv.boolFromEnv Getenv (s :: rest) def
  = match fromenv.ParseBool (Getenv s) with
    | Some b => Some b
    | None => fromenv.boolFromEnv Getenv rest def
    end.
Proof.
  cbn [fromenv.boolFromEnv]. cbv zeta.
  destruct (String.eqb_spec (Getenv s) EmptyString) as [->|_]; reflexivity.
Qed.

Lemma antiboolFromEnv_step (s : string) (rest : list string) (def : bool) :
  fromenv.antiboolFromEnv Getenv (s :: rest) def
  = match fromenv.ParseBool (Getenv s) with
    | Some b => Some (negb b)
    | None => fromenv.antiboolFromEnv Getenv rest def
    end.
Proof.
  cbn [fromenv.antiboolFromEnv]. cbv zeta.
  destruct (String.eqb_spec (Getenv s) EmptyString) as [->|_]; reflexivity.
Qed.

End FromEnv.

(** X20: [boolFromEnv] answers with the first listed variable whose value
    [strconv.ParseBool] accepts, passing over variables that are unset or
    hold anything else, and with the default when there is none;
    [antiboolFromEnv] is its mirror image: the negation of [boolFromEnv]
    at the negated default.  So the two agree exactly when no listed
    variable decides and they were given the same default. *)
Theorem boolFromEnv_antibool (Getenv : string -> string)
    (names : list string) (def : bool) :
  fromenv.antiboolFromEnv Getenv names def
  = negb <$> fromenv.boolFromEnv Getenv names (negb def)
  /\ (exists b, fromenv.boolFromEnv Getenv names def = Some b)
  /\ (fromenv.boolFromEnv Getenv names def
      = fromenv.antiboolFromEnv Getenv names def
      <-> Forall (fun s => fromenv.ParseBool (Getenv s) = None) names)
  /\ forall skipped rest,
       names = skipped ++ rest ->
       Forall (fun s => fromenv.ParseBool (Getenv s) = None) skipped ->
       fromenv.boolFromEnv Getenv names def
       = fromenv.boolFromEnv Getenv rest def.
Proof.
  split; [|split; [|split]].
  - induction names as [|s rest IH]; [cbn; rewrite negb_involutive; reflexivity|].
    rewrite boolFromEnv_step, antiboolFromEnv_step.
    destruct (fromenv.ParseBool (Getenv s)); [reflexivity|exact IH].
  - induction names as [|s rest IH]; [exists def; reflexivity|].
    rewrite boolFromEnv_step.
    destruct (fromenv.ParseBool (Getenv s)) as [b|]; [exists b; reflexivity|exact IH].
  - induction names as [|s rest IH].
    + split; [constructor|reflexivity].
    + rewrite boolFromEnv_step, antiboolFromEnv_step.
      destruct (fromenv.ParseBool (Getenv s)) as [b|] eqn:Eb.
      * split.
        -- intros [= Hb]. destruct b; discriminate.
        -- intros Hall. apply Forall_inv in Hall. congruence.
      * destruct IH as [IH1 IH2]. split.
        -- intros H. constructor; [exact Eb|exact (IH1 H)].
        -- intros Hall. apply IH2. exact (Forall_inv_tail Hall).
  - intros skipped rest -> Hall.
    induction Hall as [|s skipped Hs _ IH]; [reflexivity|].
    change ((s :: skipped) ++ rest) with (s :: (skipped ++ rest)).
    rewrite boolFromEnv_step, Hs. exact IH.
Qed.

(** The first variable is unset and the second holds no truth value:
    the third one decides. *)
Lemma boolFromEnv_antibool_third :
  fromenv.boolFromEnv samples.threeVariables ["A"; "B"; "C"]%string false
  = fromenv.boolFromEnv samples.threeVariables ["C"]%string false.
Proof.
  refine (proj2 (proj2 (proj2 (boolFromEnv_antibool samples.threeVariables
                                 ["A"; "B"; "C"]%string false)))
            ["A"; "B"]%string ["C"]%string eq_refl _).
  repeat constructor.
Defined.

(** ** Loading the configuration *)

Section LoadConfigs.

Variable M : Config.ConsulMethods.
Variable Getenv : string -> string.
Variable TrimSpace : string -> string.

Abbreviation Config := (Config.Config M).
Abbreviation Merge := (Config.Merge M).
Abbreviation Finalize := (Config.Finalize M Getenv TrimSpace).

Lemma later_None_l {A : Type} (a : option A) : later None a = a.
Proof. destruct a; reflexivity. Qed.

Lemma lastGiven_from {A : Type} (field : Config -> option A)
    (configs : list (option Config)) (acc : option A) :
  foldl (fun acc c => later acc (c ≫= field)) acc configs
  = later acc (Config.lastGiven M field configs).
Proof.
  unfold Config.lastGiven. revert acc.
  induction configs as [|c configs IH]; intros acc; [reflexivity|].
  cbn [foldl]. rewrite IH, (IH (later None (c ≫= field))).
  rewrite later_None_l. apply later_assoc.
Qed.

Lemma lastGiven_snoc {A : Type} (field : Config -> option A)
    (configs : list (option Config)) (o : option Config) :
  Config.lastGiven M field (configs ++ [o])
  = later (Config.lastGiven M field configs) (o ≫= field).
Proof. unfold Config.lastGiven. rewrite foldl_app. reflexivity. Qed.

Lemma Merge_Some (a : Config) (x : option Config) : is_Some (Merge (Some a) x).
Proof. destruct x; cbn; eauto. Qed.

(** The fields that follow the merge, the merged value being the later
    of the two, are the last ones given along the paths. *)
Lemma mergePaths_merged {E : Type} (paths : list (E + option Config)) :
  forall (a : Config) (res : option Config),
    Config.mergePaths M (Some a) paths = inr res ->
    exists r, res = Some r
      /\ forall (A : Type) (field : Config -> option A),
           (forall a x r, Merge (Some a) x = Some r ->
                          field r = later (field a) (x ≫= field)) ->
           field r = later (field a)
                       (Config.lastGiven M field (Config.loaded M paths)).
Proof.
  induction paths as [|[err|c] paths IH]; intros a res; cbn [Config.mergePaths].
  - intros [= <-]. exists a. split; [reflexivity|]. reflexivity.
  - discriminate.
  - destruct (Merge_Some a c) as [r Er]. rewrite Er. intros Hres.
    destruct (IH r res Hres) as (r' & -> & Hr'). exists r'. split; [reflexivity|].
    intros A field Hfield.
    rewrite (Hr' A field Hfield), (Hfield a c r Er).
    change (Config.loaded M (inr c :: paths)) with (c :: Config.loaded M paths).
    unfold Config.lastGiven at 2. cbn [foldl]. rewrite lastGiven_from.
    rewrite later_None_l. apply later_assoc.
Qed.

Lemma mergePaths_error {E : Type} (paths : list (E + option Config)) :
  forall (a : option Config) (err : E),
    Config.mergePaths M a paths = inl err ->
    exists before rest, paths = before ++ inl err :: rest
                        /\ Forall (fun p => exists c, p = inr c) before.
Proof.
  induction paths as [|[e|c] paths IH]; intros a err; cbn [Config.mergePaths].
  - discriminate.
  - intros [= <-]. exists [], paths. split; [reflexivity|constructor].
  - intros H. destruct (IH _ _ H) as (before & rest & -> & Hall).
    exists (inr c :: before), rest. split; [reflexivity|].
    constructor; [eauto|exact Hall].
Qed.

Lemma mergePaths_all {E : Type} (paths : list (E + option Config)) :
  forall (a res : option Config),
    Config.mergePaths M a paths = inr res ->
    Forall (fun p => exists c, p = inr c) paths.
Proof.
  induction paths as [|[e|c] paths IH]; intros a res; cbn [Config.mergePaths].
  - constructor.
  - discriminate.
  - intros H. constructor; [eauto|exact (IH _ _ H)].
Qed.

Lemma loadConfigs_merged {E : Type} (paths : list (E + option Config))
    (o : option Config) :
  match Config.loadConfigs M Getenv TrimSpace paths o with
  | inl err =>
      exists before rest, paths = before ++ inl err :: rest
                          /\ Forall (fun p => exists c, p = inr c) before
  | inr None => False
  | inr (Some c) =>
      Forall (fun p => exists c, p = inr c) paths
      /\ exists r, c = Finalize r
           /\ forall (A : Type) (field : Config -> option A),
                (forall a x r, Merge (Some a) x = Some r ->
                               field r = later (field a) (x ≫= field)) ->
                field r = later (field (Config.DefaultConfig M))
                            (Config.lastGiven M field (Config.loaded M paths ++ [o]))
  end.
Proof.
  unfold Config.loadConfigs.
  destruct (Config.mergePaths M (Some (Config.DefaultConfig M)) paths)
    as [err|finalC] eqn:Ep.
  - exact (mergePaths_error paths _ _ Ep).
  - destruct (mergePaths_merged paths _ _ Ep) as (r & -> & Hr).
    destruct (Merge_Some r o) as [r' Er']. rewrite Er'.
    split; [exact (mergePaths_all paths _ _ Ep)|].
    exists r'. split; [reflexivity|].
    intros A field Hfield.
    rewrite (Hfield r o r' Er'), (Hr A field Hfield), lastGiven_snoc.
    apply later_assoc.
Qed.

Ltac merged :=
  let a := fresh "a" in let x := fresh "x" in let r := fresh "r" in
  intros a [x|] r [= <-]; [|reflexivity]; cbn; try reflexivity.

Lemma Merge_Interval (a : Config) (x : option Config) (r : Config) :
  Merge (Some a) x = Some r ->
  Config.Interval M r = later (Config.Interval M a) (x ≫= Config.Interval M).
Proof. revert a x r. merged. Qed.

Lemma Merge_From (a : Config) (x : option Config) (r : Config) :
  Merge (Some a) x = Some r ->
  Config.From M r = later (Config.From M a) (x ≫= Config.From M).
Proof. revert a x r. merged. Qed.

Lemma Merge_To (a : Config) (x : option Config) (r : Config) :
  Merge (Some a) x = Some r ->
  Config.To M r = later (Config.To M a) (x ≫= Config.To M).
Proof. revert a x r. merged. Qed.

Lemma Merge_PidFile (a : Config) (x : option Config) (r : Config) :
  Merge (Some a) x = Some r ->
  Config.PidFile M r = later (Config.PidFile M a) (x ≫= Config.PidFile M).
Proof. revert a x r. merged. Qed.

Lemma Merge_LogLevel (a : Config) (x : option Config) (r : Config) :
  Merge (Some a) x = Some r ->
  Config.LogLevel M r = later (Config.LogLevel M a) (x ≫= Config.LogLevel M).
Proof. revert a x r. merged. Qed.

Lemma Merge_KillSignal (a : Config) (x : option Config) (r : Config) :
  Merge (Some a) x = Some r ->
  Config.KillSignal M r = later (Config.KillSignal M a) (x ≫= Config.KillSignal M).
Proof. revert a x r. merged. Qed.

Lemma Merge_ReloadSignal (a : Config) (x : option Config) (r : Config) :
  Merge (Some a) x = Some r ->
  Config.ReloadSignal M r
  = later (Config.ReloadSignal M a) (x ≫= Config.ReloadSignal M).
Proof. revert a x r. merged. Qed.

Lemma Merge_Facility (a : Config) (x : option Config) (r : Config) :
  Merge (Some a) x = Some r ->
  Config.Syslog M r ≫= SyslogConfig.Facility
  = later (Config.Syslog M a ≫= SyslogConfig.Facility)
      (x ≫= fun c => Config.Syslog M c ≫= SyslogConfig.Facility).
Proof.
  intros H. destruct x as [x|]; injection H as <-; cbn.
  - destruct (Config.Syslog M x) as [[ex [fx|]]|],
      (Config.Syslog M a) as [[ea fa]|]; cbn; try reflexivity;
      destruct ex; reflexivity.
  - destruct (Config.Syslog M a) as [[ea fa]|]; reflexivity.
Qed.

Lemma Merge_Enabled (a : Config) (x : option Config) (r : Config) :
  Merge (Some a) x = Some r ->
  Config.Syslog M r ≫= SyslogConfig.Enabled
  = later (Config.Syslog M a ≫= SyslogConfig.Enabled)
      (x ≫= fun c => Config.Syslog M c ≫= SyslogConfig.Enabled).
Proof.
  intros H. destruct x as [x|]; injection H as <-; cbn.
  - destruct (Config.Syslog M x) as [[[ex|] fx]|],
      (Config.Syslog M a) as [[ea fa]|]; cbn; try reflexivity;
      destruct fx; reflexivity.
  - destruct (Config.Syslog M a) as [[ea fa]|]; reflexivity.
Qed.

End LoadConfigs.

(** X21: [loadConfigs] stops at the first path that fails; otherwise it
    returns a configuration (never nil) in which every one of these
    fields is set, to the last value given for it by the files in the
    order of the paths and then by the command line, else to its
    default: one second, [/], [./], no PID file, SIGINT, SIGHUP, the log
    level of the environment or WARN, the facility LOCAL0, and syslog
    enabled when a facility other than the empty string was given. *)
Theorem loadConfigs_precedence (M : Config.ConsulMethods)
    (Getenv TrimSpace : string -> string) (E : Type)
    (paths : list (E + option (Config.Config M))) (o : option (Config.Config M)) :
  let given := Config.loaded M paths ++ [o] in
  match Config.loadConfigs M Getenv TrimSpace paths o with
  | inl err =>
      exists before rest, paths = before ++ inl err :: rest
                          /\ Forall (fun p => exists c, p = inr c) before
  | inr None => False
  | inr (Some c) =>
      Forall (fun p => exists c, p = inr c) paths
      /\ Config.Interval M c
         = Some (default (1 * Second)
                   (Config.lastGiven M (Config.Interval M) given))
      /\ Config.From M c
         = Some (default "/"%string (Config.lastGiven M (Config.From M) given))
      /\ Config.To M c
         = Some (default "./"%string (Config.lastGiven M (Config.To M) given))
      /\ Config.PidFile M c
         = Some (default EmptyString (Config.lastGiven M (Config.PidFile M) given))
      /\ Config.KillSignal M c
         = Some (default Config.SIGINT
                   (Config.lastGiven M (Config.KillSignal M) given))
      /\ Config.ReloadSignal M c
         = Some (default Config.SIGHUP
                   (Config.lastGiven M (Config.ReloadSignal M) given))
      /\ Config.LogLevel M c
         = match Config.lastGiven M (Config.LogLevel M) given with
           | Some level => Some level
           | None => fromenv.stringFromEnv Getenv TrimSpace
                       ["CT_LOG"; "CONSUL_TEMPLATE_LOG"]%string "WARN"
           end
      /\ exists s,
           Config.Syslog M c = Some s
           /\ SyslogConfig.Facility s
              = Some (default "LOCAL0"%string
                        (Config.lastGiven M
                           (fun c => Config.Syslog M c ≫= SyslogConfig.Facility)
                           given))
           /\ SyslogConfig.Enabled s
              = Some (match Config.lastGiven M
                              (fun c => Config.Syslog M c ≫= SyslogConfig.Enabled)
                              given with
                      | Some e => e
                      | None =>
                          auth.StringPresent
                            (Config.lastGiven M
                               (fun c => Config.Syslog M c ≫= SyslogConfig.Facility)
                               given)
                      end)
  end.
Proof.
  intros given.
  pose proof (loadConfigs_merged M Getenv TrimSpace paths o) as H.
  destruct (Config.loadConfigs M Getenv TrimSpace paths o) as [err|[c|]];
    [exact H| |exact H].
  destruct H as (Hall & r & -> & Hr). fold given in Hr.
  pose proof (Hr _ _ (Merge_Interval M)) as Hinterval.
  pose proof (Hr _ _ (Merge_From M)) as Hfrom.
  pose proof (Hr _ _ (Merge_To M)) as Hto.
  pose proof (Hr _ _ (Merge_PidFile M)) as Hpid.
  pose proof (Hr _ _ (Merge_KillSignal M)) as Hkill.
  pose proof (Hr _ _ (Merge_ReloadSignal M)) as Hreload.
  pose proof (Hr _ _ (Merge_LogLevel M)) as Hlevel.
  pose proof (Hr _ _ (Merge_Facility M)) as Hfacility.
  pose proof (Hr _ _ (Merge_Enabled M)) as Henabled.
  clear Hr. cbv beta in Hfacility, Henabled.
  change (Config.Syslog M (Config.DefaultConfig M) ≫= SyslogConfig.Facility)
    with (@None string) in Hfacility.
  change (Config.Syslog M (Config.DefaultConfig M) ≫= SyslogConfig.Enabled)
    with (@None bool) in Henabled.
  rewrite later_None_l in Hfacility. rewrite later_None_l in Henabled.
  split; [exact Hall|].
  cbn [Config.Finalize Config.Interval Config.From Config.To Config.PidFile
       Config.KillSignal Config.ReloadSignal Config.LogLevel Config.Syslog].
  split; [rewrite Hinterval;
          destruct (Config.lastGiven M (Config.Interval M) given); reflexivity|].
  split; [rewrite Hfrom;
          destruct (Config.lastGiven M (Config.From M) given); reflexivity|].
  split; [rewrite Hto;
          destruct (Config.lastGiven M (Config.To M) given); reflexivity|].
  split; [rewrite Hpid;
          destruct (Config.lastGiven M (Config.PidFile M) given); reflexivity|].
  split; [rewrite Hkill;
          destruct (Config.lastGiven M (Config.KillSignal M) given); reflexivity|].
  split; [rewrite Hreload;
          destruct (Config.lastGiven M (Config.ReloadSignal M) given); reflexivity|].
  split; [rewrite Hlevel;
          destruct (Config.lastGiven M (Config.LogLevel M) given); reflexivity|].
  eexists. split; [reflexivity|].
  rewrite <- Hfacility, <- Henabled.
  destruct (Config.Syslog M r) as [[[e|] [f|]]|]; split; reflexivity.
Qed.

(** The interval of the command line wins over the one of the file; the
    PID file comes from the file; the rest takes its defaults. *)
Lemma loadConfigs_precedence_example :
  Config.loadConfigs samples.noConsul samples.nothingSet (fun s => s)
    [@inr unit _ (Some samples.fromFile)] (Some samples.fromFlags)
  = inr (Some samples.fromBoth)
  /\ Config.Interval samples.noConsul samples.fromBoth
     = Some (default (1 * Second)
               (Config.lastGiven samples.noConsul
                  (Config.Interval samples.noConsul)
                  [Some samples.fromFile; Some samples.fromFlags])).
Proof.
  assert (Hload : Config.loadConfigs samples.noConsul samples.nothingSet
                    (fun s => s) [@inr unit _ (Some samples.fromFile)]
                    (Some samples.fromFlags)
                  = inr (Some samples.fromBoth)) by reflexivity.
  split; [exact Hload|].
  pose proof (loadConfigs_precedence samples.noConsul samples.nothingSet
                (fun s => s) unit [inr (Some samples.fromFile)]
                (Some samples.fromFlags)) as H.
  cbv zeta in H. rewrite Hload in H.
  exact (proj1 (proj2 H)).
Defined.

Lemma stringFromEnv_Some (Getenv TrimSpace : string -> string)
    (names : list string) (def : string) :
  is_Some (fromenv.stringFromEnv Getenv TrimSpace names def).
Proof.
  induction names as [|s rest IH]; cbn; [eauto|].
  destruct (negb (String.eqb (Getenv s) EmptyString)); [eauto|exact IH].
Qed.

(** X22: [Finalize] has no step for the interval: it leaves the field
    as it is, nil included, so the interval of a loaded configuration
    comes from [DefaultConfig] or from what was given.  On a
    configuration that [loadConfigs] returned, merging over the defaults
    and finalizing once more, as [TestConfig] and [Runner.init] do,
    changes no field outside the Consul block. *)
Theorem defaults_settle (M : Config.ConsulMethods)
    (Getenv TrimSpace : string -> string) (E : Type)
    (paths : list (E + option (Config.Config M))) (o : option (Config.Config M)) :
  (forall c, Config.Interval M (Config.Finalize M Getenv TrimSpace c)
             = Config.Interval M c)
  /\ forall c,
       Config.loadConfigs M Getenv TrimSpace paths o = inr (Some c) ->
       exists c',
         Config.TestConfig M Getenv TrimSpace (Some c) = Some c'
         /\ Config.KillSignal M c' = Config.KillSignal M c
         /\ Config.LogLevel M c' = Config.LogLevel M c
         /\ Config.PidFile M c' = Config.PidFile M c
         /\ Config.ReloadSignal M c' = Config.ReloadSignal M c
         /\ Config.Syslog M c' = Config.Syslog M c
         /\ Config.From M c' = Config.From M c
         /\ Config.To M c' = Config.To M c
         /\ Config.Interval M c' = Config.Interval M c.
Proof.
  split; [reflexivity|].
  intros c Hc.
  pose proof (loadConfigs_merged M Getenv TrimSpace paths o) as H.
  rewrite Hc in H. destruct H as (_ & r & -> & Hr).
  pose proof (Hr _ _ (Merge_Interval M)) as Hinterval.
  assert (Hi : is_Some (Config.Interval M r)).
  { rewrite Hinterval. cbn.
    destruct (Config.lastGiven M (Config.Interval M) _); cbn; eauto. }
  destruct Hi as [i Hi]. clear Hr Hinterval Hc.
  eexists. split; [reflexivity|].
  cbn. rewrite Hi.
  destruct (stringFromEnv_Some Getenv TrimSpace
              ["CT_LOG"; "CONSUL_TEMPLATE_LOG"]%string Config.DefaultLogLevel)
    as [level Hlevel].
  destruct r as [consul [kill|] [lvl|] [pidfile|] [reload|] [[[e|] [f|]]|]
                   [from|] [to|] interval];
    cbn in *; rewrite ?Hlevel; repeat split; reflexivity.
Qed.

(** The configuration loaded from the file and the command line goes
    through the defaults again unchanged. *)
Lemma defaults_settle_example :
  exists c',
    Config.TestConfig samples.noConsul samples.nothingSet (fun s => s)
      (Some samples.fromBoth) = Some c'
    /\ Config.PidFile samples.noConsul c' = Some "run.pid"%string
    /\ Config.Interval samples.noConsul c' = Some (30 * Second).
Proof.
  destruct (proj2 (defaults_settle samples.noConsul samples.nothingSet
                     (fun s => s) unit [inr (Some samples.fromFile)]
                     (Some samples.fromFlags))
              samples.fromBoth eq_refl)
    as (c' & Htest & _ & _ & Hpid & _ & _ & _ & _ & Hinterval).
  exists c'. split; [exact Htest|]. split; [exact Hpid|exact Hinterval].
Defined.

(** ** The environment of a child process *)

Section EnvMerge.

Import EnvConfig.

Lemma append_None (s : slice) : append s None = s.
Proof. reflexivity. Qed.








End EnvMerge.


Section EnvEntries.

Import EnvConfig.

Variable Match : string -> string -> bool.

Lemma SplitN2_cases (v : string) :
  (hasEq v = false /\ SplitN2 v = [v])
  \/ (exists k val, hasEq v = true /\ SplitN2 v = [k; val]
                    /\ v = k +:+ String "=" val /\ hasEq k = false).
Proof.
  induction v as [|ch rest IH]; [left; split; reflexivity|].
  cbn [SplitN2 hasEq].
  destruct (Ascii.eqb_spec ch "="%char) as [->|Hne].
  - right. exists EmptyString, rest. repeat split.
  - destruct IH as [[Hno Hs]|(k & val & Hyes & Hs & Hv & Hk)]; rewrite Hs.
    + left. split; [exact Hno|reflexivity].
    + right. exists (String ch k), val. split; [exact Hyes|].
      split; [reflexivity|]. split; [rewrite Hv; reflexivity|].
      cbn [hasEq]. rewrite Hk. destruct (Ascii.eqb_spec ch "="%char); [contradiction|reflexivity].
Qed.

Lemma readEnviron_spec (environ : list string) :
  forall env : gmap string string,
    match readEnviron environ env with
    | None => Exists (fun v => hasEq v = false) environ
    | Some (keys, env') =>
        Forall (fun v => hasEq v = true) environ
        /\ length keys = length environ
        /\ (forall k val, env' !! k = Some val ->
              env !! k = Some val
              \/ (k +:+ String "=" val ∈ environ /\ hasEq k = false))
        /\ (forall k, is_Some (env !! k) -> is_Some (env' !! k))
        /\ (forall k, k ∈ keys -> is_Some (env' !! k))
    end.
Proof.
  induction environ as [|v rest IH]; intros env; cbn [readEnviron].
  - split; [constructor|]. split; [reflexivity|]. split; [auto|].
    split; [auto|]. intros k Hk. inversion Hk.
  - destruct (SplitN2_cases v) as [[Hno Hs]|(k & val & Hyes & Hs & Hv & Hk)];
      rewrite Hs.
    + apply Exists_cons_hd. exact Hno.
    + specialize (IH (<[k := val]> env)).
      destruct (readEnviron rest (<[k := val]> env)) as [[keys env']|].
      * destruct IH as (Hall & Hlen & Hval & Hkeep & Hkeys).
        split; [constructor; assumption|].
        split; [cbn; rewrite Hlen; reflexivity|].
        split; [|split].
        -- intros k0 val0 H0. destruct (Hval k0 val0 H0) as [Hin|[Hin Hk0]].
           ++ destruct (decide (k0 = k)) as [->|Hne].
              ** rewrite lookup_insert_eq in Hin. injection Hin as <-.
                 right. split; [|exact Hk]. rewrite <- Hv. left.
              ** rewrite lookup_insert_ne in Hin by congruence. left. exact Hin.
           ++ right. split; [right; exact Hin|exact Hk0].
        -- intros k0 H0. apply Hkeep.
           destruct (decide (k0 = k)) as [->|Hne].
           ++ rewrite lookup_insert_eq. eauto.
           ++ rewrite lookup_insert_ne by congruence. exact H0.
        -- intros k0 H0. apply elem_of_cons in H0. destruct H0 as [->|H0].
           ++ apply Hkeep. rewrite lookup_insert_eq. eauto.
           ++ apply Hkeys. exact H0.
      * apply Exists_cons_tl. exact IH.
Qed.

Lemma filter_when {A : Type} (b : bool) (f : A -> bool) (l : list A) :
  let l' := if b then List.filter f l else l in
  (length l' <= length l)%nat
  /\ forall x, In x l' -> In x l /\ (b = true -> f x = true).
Proof.
  destruct b; cbn.
  - split.
    + induction l as [|x l IH]; cbn; [lia|]. destruct (f x); cbn; lia.
    + intros x Hx. apply filter_In in Hx. destruct Hx. split; auto.
  - split; [lia|]. intros x Hx. split; [exact Hx|discriminate].
Qed.

Lemma len_elems (s : slice) : elems s <> [] -> (0 <? len s)%nat = true.
Proof. destruct s as [[|x l]|]; cbn; congruence. Qed.

Lemma anyGlobMatch_nil (k : string) (s : slice) :
  (0 <? len s)%nat = false -> anyGlobMatch Match k (elems s) = false.
Proof. destruct s as [[|x l]|]; cbn; congruence. Qed.

End EnvEntries.

(** X24: in pristine mode [Env] is the custom list, whatever the
    environment of the process.  Otherwise it panics exactly when an
    entry of the environment has no [=]; when it returns, the result is
    a list of entries of the environment, no more of them than the
    environment has, followed by the custom list; the name of every one
    of these entries matches no pattern of the blacklist, and matches a
    pattern of the whitelist when the whitelist is not empty: the
    blacklist wins over the whitelist. *)
Theorem Env_entries (Match : string -> string -> bool)
    (c : EnvConfig.EnvConfig) (environ : list string) :
  (config.BoolVal (EnvConfig.Pristine c) = true ->
   EnvConfig.Env Match c environ = Some (EnvConfig.elems (EnvConfig.Custom c)))
  /\ (config.BoolVal (EnvConfig.Pristine c) = false ->
      (EnvConfig.Env Match c environ = None
       <-> Exists (fun v => EnvConfig.hasEq v = false) environ)
      /\ forall result,
           EnvConfig.Env Match c environ = Some result ->
           exists kept,
             result = kept ++ EnvConfig.elems (EnvConfig.Custom c)
             /\ (length kept <= length environ)%nat
             /\ forall e, e ∈ kept ->
                  e ∈ environ
                  /\ exists k val,
                       e = k +:+ String "=" val
                       /\ EnvConfig.hasEq k = false
                       /\ EnvConfig.anyGlobMatch Match k
                            (EnvConfig.elems (EnvConfig.Blacklist c)) = false
                       /\ (EnvConfig.elems (EnvConfig.Whitelist c) <> [] ->
                           EnvConfig.anyGlobMatch Match k
                             (EnvConfig.elems (EnvConfig.Whitelist c)) = true)).
Proof.
  unfold EnvConfig.Env. split.
  - intros ->. destruct (EnvConfig.Custom c) as [[|x l]|]; reflexivity.
  - intros ->.
    pose proof (readEnviron_spec environ ∅) as Hspec.
    destruct (EnvConfig.readEnviron environ ∅) as [[keys env]|].
    + destruct Hspec as (Hall & Hlen & Hval & _ & Hkeys). split.
      * split; [discriminate|]. intros Hex. exfalso.
        apply Exists_exists in Hex. destruct Hex as (v & Hv & Hno).
        rewrite Forall_forall in Hall. rewrite (Hall v Hv) in Hno. discriminate.
      * intros result [= <-]. eexists. split; [reflexivity|].
        match goal with
        | |- context [map _ (if ?bb then List.filter ?fb ?white else _)] =>
            pose proof (filter_when bb fb white) as Hblack;
            match white with
            | (if ?bw then List.filter ?fw _ else _) =>
                pose proof (filter_when bw fw keys) as Hwhite
            end
        end.
        cbv zeta in Hblack, Hwhite.
        destruct Hblack as [Hlb Hblack], Hwhite as [Hlw Hwhite].
        split; [rewrite length_map; lia|].
        intros e He. apply list_elem_of_In, in_map_iff in He.
        destruct He as (k & <- & Hk).
        destruct (Hblack k Hk) as [Hw Hb]. destruct (Hwhite k Hw) as [Hin Hm].
        destruct (Hkeys k) as [val Hval']; [apply list_elem_of_In; exact Hin|].
        rewrite Hval'. cbn [default].
        destruct (Hval k val Hval') as [Hempty|[Hentry Hk0]];
          [rewrite lookup_empty in Hempty; discriminate|].
        split; [exact Hentry|].
        exists k, val. split; [reflexivity|]. split; [exact Hk0|]. split.
        -- destruct (0 <? EnvConfig.len (EnvConfig.Blacklist c))%nat eqn:El.
           ++ apply negb_true_iff. apply Hb. reflexivity.
           ++ apply anyGlobMatch_nil. exact El.
        -- intros Hne. apply Hm. apply len_elems. exact Hne.
    + split; [split; [intros _; exact Hspec|reflexivity]|discriminate].
Qed.

(** A blacklisted variable is dropped and the custom entry comes last. *)
Lemma Env_entries_example :
  EnvConfig.Env samples.plainMatch samples.childEnv samples.environ
  = Some ["PATH=/bin"; "HOME=/root"; "EXTRA=1"]%string
  /\ exists kept,
       ["PATH=/bin"; "HOME=/root"; "EXTRA=1"]%string = kept ++ ["EXTRA=1"%string]
       /\ (length kept <= 3)%nat
       /\ forall e, e ∈ kept ->
            e ∈ samples.environ
            /\ exists k val,
                 e = k +:+ String "=" val
                 /\ EnvConfig.hasEq k = false
                 /\ EnvConfig.anyGlobMatch samples.plainMatch k ["SECRET"%string]
                    = false
                 /\ (@nil string <> [] ->
                     EnvConfig.anyGlobMatch samples.plainMatch k [] = true).
Proof.
  assert (Henv : EnvConfig.Env samples.plainMatch samples.childEnv samples.environ
                 = Some ["PATH=/bin"; "HOME=/root"; "EXTRA=1"]%string)
    by reflexivity.
  split; [exact Henv|].
  exact (proj2 (proj2 (Env_entries samples.plainMatch samples.childEnv
                         samples.environ) eq_refl)
           _ Henv).
Defined.
